(** * AM-finance-recon: the matching and balance-validation engine

    A shallow embedding of [modules/entity_matcher.py],
    [modules/balance_calculator.py], of the table processing of
    [modules/file_handler.py] and of the [/auto_match] and
    [/confirm_match] routes of [app.py], followed by the properties the
    specification states about them and by further properties of the
    code.

    Modelling conventions.
    - Currency amounts and scores are Python floats in the source. The
      functions are embedded twice. The first embedding idealises floats
      as exact rationals ([Q], compared with [Qeq]); it carries the
      properties that hold however a comparison falls: of the structure
      of the results, of the pools and of the session. The second, in
      module [F64], rounds every operation to binary64 as the
      interpreter does (module [Float]); it carries the properties that
      depend on the outcome of a tolerance test, of a rounding or of a
      score.
    - A pandas row ([pd.Series]) and its [to_dict()] are the record
      [transaction]; a DataFrame is the list of its rows, in row order.
    - A Python [set] of row ids or of keywords is a [gset].
    - Descriptions are 7-bit ASCII text.
    - [fuzz.token_sort_ratio] (package fuzzywuzzy) is a parameter of the
      development. *)

From Stdlib Require Import QArith Qround Qabs Qminmax Lqa.
From Stdlib Require Import Ascii String.
From stdpp Require Import gmap strings list pretty sorting.

Local Open Scope Q_scope.

(** ** Python primitives *)

Module Py.

(** [a < b] on floats. *)
Definition Qltb (a b : Q) : bool := negb (Qle_bool b a).

(** [str.isspace] on one 7-bit character: tab, LF, VT, FF, CR, the
    separators FS, GS, RS, US, and the space. *)
Definition isspace (c : ascii) : bool :=
  let n := nat_of_ascii c in
  ((9 <=? n)%nat && (n <=? 13)%nat) || ((28 <=? n)%nat && (n <=? 32)%nat).

(** The class [\w] on 7-bit characters: letters, digits, underscore. *)
Definition isword (c : ascii) : bool :=
  let n := nat_of_ascii c in
  ((48 <=? n)%nat && (n <=? 57)%nat) || ((65 <=? n)%nat && (n <=? 90)%nat)
  || ((97 <=? n)%nat && (n <=? 122)%nat) || (n =? 95)%nat.

Definition lower_char (c : ascii) : ascii :=
  let n := nat_of_ascii c in
  if ((65 <=? n)%nat && (n <=? 90)%nat) then ascii_of_nat (n + 32) else c.

(** [str.lower()] *)
Fixpoint lower (s : string) : string :=
  match s with
  | EmptyString => EmptyString
  | String c s' => String (lower_char c) (lower s')
  end.

Fixpoint lstrip (s : string) : string :=
  match s with
  | EmptyString => EmptyString
  | String c s' => if isspace c then lstrip s' else s
  end.

Definition rstrip (s : string) : string :=
  String.rev (lstrip (String.rev s)).

(** [str.strip()] *)
Definition strip (s : string) : string := rstrip (lstrip s).

(** [str.split()] with no separator: the maximal runs of non-space
    characters, in order. [word] is the run being read. *)
Fixpoint split_from (word : string) (s : string) : list string :=
  match s with
  | EmptyString => if String.eqb word "" then [] else [word]
  | String c s' =>
      if isspace c
      then (if String.eqb word "" then split_from "" s'
            else word :: split_from "" s')
      else split_from (word +:+ String c "") s'
  end.

Definition split (s : string) : list string := split_from "" s.

(** [re.sub(r"[^\w\s]", " ", s)] *)
Fixpoint sub_nonword_space (s : string) : string :=
  match s with
  | EmptyString => EmptyString
  | String c s' =>
      String (if isword c || isspace c then c else " "%char)
             (sub_nonword_space s')
  end.

(** [round(x)] to an integer: to the nearest, ties to the even one. *)
Definition round (x : Q) : Z :=
  let f := Qfloor x in
  let r := x - inject_Z f in
  if Qltb r (1#2) then f
  else if Qltb (1#2) r then (f + 1)%Z
  else if Z.even f then f else (f + 1)%Z.

(** [sum(xs)]: left to right from the integer 0. *)
Definition sum (xs : list Q) : Q := foldl Qplus 0 xs.

(** [range(a, b)] *)
Definition range (a b : nat) : list nat := seq a (b - a).

(** [itertools.combinations(l, k)]: the [k]-element selections of [l],
    positions increasing, in lexicographic order of positions. *)
Fixpoint combinations {A} (l : list A) (k : nat) : list (list A) :=
  match k with
  | O => [[]]
  | S k' =>
      match l with
      | [] => []
      | x :: l' => (cons x <$> combinations l' k') ++ combinations l' k
      end
  end.

(** [list.sort(key=key, reverse=True)]: the stable sort by descending
    key; elements with equal keys keep their order. *)
Fixpoint insert_desc {A} (key : A → Q) (x : A) (l : list A) : list A :=
  match l with
  | [] => [x]
  | y :: l' =>
      if Qle_bool (key y) (key x) then x :: y :: l'
      else y :: insert_desc key x l'
  end.

Fixpoint sort_reverse {A} (key : A → Q) (l : list A) : list A :=
  match l with
  | [] => []
  | x :: l' => insert_desc key x (sort_reverse key l')
  end.

(** [f"{n:04d}"] for a natural number. *)
Definition format_04d (n : nat) : string :=
  let s := pretty n in
  String.concat "" (replicate (4 - String.length s) "0") +:+ s.

(** [f"{x:.2f}"]: sign, integer part and two decimals of [x] rounded to
    the nearest hundredth; a negative [x] keeps its sign when it rounds
    to zero. *)
Definition format_2f (x : Q) : string :=
  let n := round (Qabs x * 100) in
  let cents := Z.to_nat (n mod 100) in
  (if Qltb x 0 then "-" else "")
  +:+ pretty (n / 100)%Z +:+ "."
  +:+ (if (cents <? 10)%nat then "0" else "") +:+ pretty cents.

End Py.

(** ** Python floats

    A Python [float] is an IEEE 754 binary64 number. Where the outcome of
    a comparison or of a rounding decides what the code does, a float is
    modelled by its exact value, a rational, and an operation by the exact
    operation followed by rounding to the nearest binary64 value, ties to
    even, as IEEE 754 defines it. Comparisons, [abs] and negation are
    exact. Infinities, NaN, overflow and the sign of zero are not
    modelled: amounts and scores are finite. A whole number a column of
    integers holds is the float of the same value. Every division of
    the embedded code is reached with a divisor that is not 0. *)

Module Float.

(** [2^q] *)
Definition pow2 (q : Z) : Q :=
  if (0 <=? q)%Z then inject_Z (2 ^ q) else 1 # Z.to_pos (2 ^ (- q)).

(** The exponent [e] with [2^e <= a < 2^(e+1)], for a positive [a]. *)
Definition ilog2 (a : Q) : Z :=
  let e := (Z.log2 (Qnum a) - Z.log2 (Zpos (Qden a)))%Z in
  if Qle_bool (pow2 e) a then e else (e - 1)%Z.

(** Rounding to the nearest binary64 value, ties to even: 53 significant
    bits, and no bit below [2^-1074]. *)
Definition rnd (x : Q) : Q :=
  let x := Qred x in
  if Qeq_bool x 0 then 0
  else
    let a := Qabs x in
    let q := Z.max (ilog2 a - 52) (-1074) in
    let m := Py.round (a / pow2 q) in
    let r := Qred (inject_Z m * pow2 q) in
    if Py.Qltb x 0 then - r else r.

(** The float a decimal literal or a parsed number denotes. *)
Definition lit (x : Q) : Q := rnd x.

(** [float(n)] for an integer, as in [n / 100.0]. *)
Definition of_int (n : Z) : Q := rnd (inject_Z n).

Definition add (a b : Q) : Q := rnd (a + b).
Definition sub (a b : Q) : Q := rnd (a - b).
Definition mul (a b : Q) : Q := rnd (a * b).
Definition div (a b : Q) : Q := rnd (a / b).

(** [a / b] on two integers: the quotient, rounded once. *)
Definition div_int (a b : Z) : Q := rnd (inject_Z a / inject_Z b).

(** [sum(xs)]: left to right from 0, one rounded addition per element. *)
Definition sum (xs : list Q) : Q := foldl add 0 xs.

End Float.

(** ** Configuration ([config.py]) *)

Record config := {
  FUZZY_MATCH_THRESHOLD : Q;
  HIGH_CONFIDENCE_THRESHOLD : Q;
  KEYWORD_MIN_LENGTH : nat;
  BALANCE_TOLERANCE : Q;
  STOPWORDS : list string
}.

Definition Config : config := {|
  FUZZY_MATCH_THRESHOLD := 80 # 100;
  HIGH_CONFIDENCE_THRESHOLD := 90 # 100;
  KEYWORD_MIN_LENGTH := 3;
  BALANCE_TOLERANCE := 1 # 100;
  STOPWORDS :=
    ["to"; "from"; "for"; "the"; "and"; "or"; "in"; "at"; "by"; "invoice";
     "payment"; "receipt"; "transaction"; "bill"; "ref"]
|}.

(** ** Data model *)

(** The column [transaction_type] written by
    [FileHandler.process_transactions]. *)
Inductive txn_type := Expense | Revenue | Zero.

(** One row of the processed DataFrame. [original_index] is the row label;
    [match_group_id] and [match_confidence] are [None] until stamped. *)
Record transaction := {
  original_index : Z;
  amount : Q;
  description : string;
  transaction_type : txn_type;
  abs_amount : Q;
  match_status : string;
  match_group_id : option string;
  match_confidence : option Q
}.

(** A match dictionary. [revenue] is [None] when the key is missing or
    holds an empty value. *)
Record match_group := {
  match_type : string;
  confidence : Q;
  revenue : option transaction;
  expenses : list transaction;
  balance : Q
}.

(** ** BalanceCalculator ([modules/balance_calculator.py]) *)

Section BalanceCalculator.

Variable cfg : config.

Definition calculate_match_balance (m : match_group) : Q :=
  let revenue_amount := from_option amount 0 (revenue m) in
  let expense_total := Py.sum (amount <$> expenses m) in
  revenue_amount + expense_total.

Definition is_balanced (m : match_group) : bool :=
  let balance := calculate_match_balance m in
  Py.Qltb (Qabs balance) (BALANCE_TOLERANCE cfg).

Definition validate_match (m : match_group) : bool * string :=
  match revenue m with
  | None => (false, "No revenue transaction in match")
  | Some _ =>
      match expenses m with
      | [] => (false, "No expense transactions in match")
      | _ :: _ =>
          if negb (is_balanced m)
          then
            let balance := calculate_match_balance m in
            (false, "Match not balanced. Balance: " +:+ Py.format_2f balance)
          else (true, "Match is valid")
      end
  end.

End BalanceCalculator.

(** ** EntityMatcher ([modules/entity_matcher.py]) *)

#[global] Instance txn_type_eq_dec : EqDecision txn_type.
Proof. solve_decision. Defined.

(** An entry of [potential_expenses] in the Keyword and Fuzzy stages. The
    Keyword stage fills [shared_keywords], the Fuzzy stage [similarity]. *)
Record potential := {
  expense : transaction;
  shared_keywords : option (gset string);
  similarity : option Q;
  keyword_score : Q
}.

(** An entry of the list returned by [find_potential_matches]. *)
Record review_candidate := {
  rc_expense : transaction;
  fuzzy_score : Q;
  rc_keyword_score : Q;
  amount_score : Q;
  combined_score : Q;
  rc_shared_keywords : gset string
}.

Record review_item := {
  ri_revenue : transaction;
  potential_expenses : list review_candidate;
  ri_status : string
}.

(** The three locals every stage threads through its loops. *)
Record stage_state := {
  matches : list match_group;
  matched_expense_ids : gset Z;
  matched_revenue_ids : gset Z
}.

Definition stage_init : stage_state :=
  {| matches := []; matched_expense_ids := ∅; matched_revenue_ids := ∅ |}.

(** The rows of [pool] whose [original_index] is not in [ids]:
    [pool[~pool["original_index"].isin(ids)]]. *)
Definition drop_ids (ids : gset Z) (pool : list transaction)
  : list transaction :=
  filter (λ t, original_index t ∉ ids) pool.

Section EntityMatcher.

Variable cfg : config.
Variable token_sort_ratio : string → string → Z.

Definition stopwords : gset string := list_to_set (STOPWORDS cfg).

Definition extract_keywords (text : string) : gset string :=
  let text := Py.lower text in
  let text := Py.sub_nonword_space text in
  let words := Py.split text in
  list_to_set
    (filter (λ word, (word ∉ stopwords)
                     ∧ (KEYWORD_MIN_LENGTH cfg <= String.length word)%nat)
            words).

Definition calculate_similarity (text1 text2 : string) : Q :=
  let score := token_sort_ratio text1 text2 in
  inject_Z score / 100.

(** *** Exact stage *)

Definition exact_group (revenue expense : transaction) : match_group :=
  {| match_type := "exact";
     confidence := 1;
     revenue := Some revenue;
     expenses := [expense];
     balance := abs_amount revenue - abs_amount expense |}.

(** The inner [for] of [exact_match]: [continue] on a consumed row,
    [break] after the first hit. *)
Fixpoint exact_match_scan (revenue : transaction)
    (expenses : list transaction) (st : stage_state) : stage_state :=
  match expenses with
  | [] => st
  | expense :: rest =>
      if bool_decide (original_index expense ∈ matched_expense_ids st)
      then exact_match_scan revenue rest st
      else
        let revenue_amount := abs_amount revenue in
        let revenue_desc := Py.strip (Py.lower (description revenue)) in
        let expense_amount := abs_amount expense in
        let expense_desc := Py.strip (Py.lower (description expense)) in
        if Py.Qltb (Qabs (expense_amount - revenue_amount))
                   (BALANCE_TOLERANCE cfg)
           && String.eqb expense_desc revenue_desc
        then
          {| matches := matches st ++ [exact_group revenue expense];
             matched_expense_ids :=
               matched_expense_ids st ∪ {[original_index expense]};
             matched_revenue_ids :=
               matched_revenue_ids st ∪ {[original_index revenue]} |}
        else exact_match_scan revenue rest st
  end.

Definition exact_match (expenses revenues : list transaction)
  : list match_group * list transaction * list transaction :=
  let st :=
    foldl (λ st revenue, exact_match_scan revenue expenses st)
          stage_init revenues in
  (matches st,
   drop_ids (matched_expense_ids st) expenses,
   drop_ids (matched_revenue_ids st) revenues).

(** *** Ranked bounded search *)

(** The first loop of [_find_best_expense_combination]. *)
Fixpoint find_single (revenue : transaction) (pes : list potential)
  : option match_group :=
  match pes with
  | [] => None
  | pot_exp :: rest =>
      let revenue_amount := abs_amount revenue in
      let e := expense pot_exp in
      if Py.Qltb (Qabs (abs_amount e - revenue_amount))
                 (BALANCE_TOLERANCE cfg)
      then Some {| match_type := "fuzzy_single";
                   confidence := keyword_score pot_exp;
                   revenue := Some revenue;
                   expenses := [e];
                   balance := revenue_amount - abs_amount e |}
      else find_single revenue rest
  end.

(** The body of the nested loops, for one [combo]. *)
Definition combo_group (revenue : transaction) (combo_size : nat)
    (combo : list potential) : option match_group :=
  let revenue_amount := abs_amount revenue in
  let total_expense := Py.sum ((λ pe, abs_amount (expense pe)) <$> combo) in
  if Py.Qltb (Qabs (total_expense - revenue_amount)) (BALANCE_TOLERANCE cfg)
  then
    let avg_confidence :=
      Py.sum (keyword_score <$> combo)
      / inject_Z (Z.of_nat (length combo)) in
    Some {| match_type := "fuzzy_multiple_" +:+ pretty combo_size;
            confidence := avg_confidence;
            revenue := Some revenue;
            expenses := expense <$> combo;
            balance := revenue_amount - total_expense |}
  else None.

(** [for combo in itertools.combinations(...)] *)
Fixpoint find_combo (revenue : transaction) (combo_size : nat)
    (combos : list (list potential)) : option match_group :=
  match combos with
  | [] => None
  | combo :: rest =>
      match combo_group revenue combo_size combo with
      | Some g => Some g
      | None => find_combo revenue combo_size rest
      end
  end.

(** [for combo_size in range(...)] *)
Fixpoint find_sizes (revenue : transaction) (top : list potential)
    (sizes : list nat) : option match_group :=
  match sizes with
  | [] => None
  | combo_size :: rest =>
      match find_combo revenue combo_size
              (Py.combinations top combo_size) with
      | Some g => Some g
      | None => find_sizes revenue top rest
      end
  end.

Definition _find_best_expense_combination (revenue : transaction)
    (potential_expenses : list potential) : option match_group :=
  let potential_expenses :=
    Py.sort_reverse keyword_score potential_expenses in
  match find_single revenue potential_expenses with
  | Some g => Some g
  | None =>
      find_sizes revenue (take 10 potential_expenses)
        (Py.range 2 (min 6 (length potential_expenses + 1)))
  end.

(** What both later stages do with a solve: append the group, record the
    ids of its expenses and of the revenue. *)
Definition commit (st : stage_state) (revenue : transaction)
    (best_match : match_group) : stage_state :=
  {| matches := matches st ++ [best_match];
     matched_expense_ids :=
       foldl (λ ids exp, ids ∪ {[original_index exp]})
             (matched_expense_ids st) (expenses best_match);
     matched_revenue_ids :=
       matched_revenue_ids st ∪ {[original_index revenue]} |}.

Definition solve_and_commit (st : stage_state) (revenue : transaction)
    (potential_expenses : list potential) : stage_state :=
  match potential_expenses with
  | [] => st
  | _ :: _ =>
      match _find_best_expense_combination revenue potential_expenses with
      | Some best_match => commit st revenue best_match
      | None => st
      end
  end.

(** *** Keyword stage *)

Definition overlap_score (revenue_keywords expense_keywords : gset string)
  : Q :=
  let shared_keywords := revenue_keywords ∩ expense_keywords in
  inject_Z (Z.of_nat (size shared_keywords))
  / inject_Z (Z.of_nat (max (size revenue_keywords) (size expense_keywords))).

(** The inner [for] of [keyword_match]. *)
Fixpoint keyword_candidates (revenue_keywords : gset string)
    (min_keywords : nat) (expenses : list transaction)
    (matched : gset Z) : list potential :=
  match expenses with
  | [] => []
  | e :: rest =>
      if bool_decide (original_index e ∈ matched)
      then keyword_candidates revenue_keywords min_keywords rest matched
      else
        let expense_keywords := extract_keywords (description e) in
        let shared := revenue_keywords ∩ expense_keywords in
        if (min_keywords <=? size shared)%nat
        then {| expense := e;
                shared_keywords := Some shared;
                similarity := None;
                keyword_score :=
                  overlap_score revenue_keywords expense_keywords |}
             :: keyword_candidates revenue_keywords min_keywords rest matched
        else keyword_candidates revenue_keywords min_keywords rest matched
  end.

Definition keyword_match_step (min_keywords : nat)
    (expenses : list transaction) (st : stage_state)
    (revenue : transaction) : stage_state :=
  let revenue_keywords := extract_keywords (description revenue) in
  if (size revenue_keywords <? min_keywords)%nat then st
  else
    solve_and_commit st revenue
      (keyword_candidates revenue_keywords min_keywords expenses
         (matched_expense_ids st)).

Definition keyword_match_with (min_keywords : nat)
    (expenses revenues : list transaction)
  : list match_group * list transaction * list transaction :=
  let st := foldl (keyword_match_step min_keywords expenses)
                  stage_init revenues in
  (matches st,
   drop_ids (matched_expense_ids st) expenses,
   drop_ids (matched_revenue_ids st) revenues).

(** [keyword_match] with the default [min_keywords=2]. *)
Definition keyword_match := keyword_match_with 2.

(** *** Fuzzy stage *)

Fixpoint fuzzy_candidates (revenue_desc : string)
    (expenses : list transaction) (matched : gset Z) : list potential :=
  match expenses with
  | [] => []
  | e :: rest =>
      if bool_decide (original_index e ∈ matched)
      then fuzzy_candidates revenue_desc rest matched
      else
        let sim := calculate_similarity revenue_desc (description e) in
        if Qle_bool (FUZZY_MATCH_THRESHOLD cfg) sim
        then {| expense := e;
                shared_keywords := None;
                similarity := Some sim;
                keyword_score := sim |}
             :: fuzzy_candidates revenue_desc rest matched
        else fuzzy_candidates revenue_desc rest matched
  end.

Definition fuzzy_match_step (expenses : list transaction)
    (st : stage_state) (revenue : transaction) : stage_state :=
  solve_and_commit st revenue
    (fuzzy_candidates (description revenue) expenses
       (matched_expense_ids st)).

Definition fuzzy_match (expenses revenues : list transaction)
  : list match_group * list transaction * list transaction :=
  let st := foldl (fuzzy_match_step expenses) stage_init revenues in
  (matches st,
   drop_ids (matched_expense_ids st) expenses,
   drop_ids (matched_revenue_ids st) revenues).

(** *** Review ranker *)

(** [max(a, b)]: the first of the largest. *)
Definition py_max (a b : Q) : Q := if Py.Qltb a b then b else a.

(** The loop body of [find_potential_matches]. *)
Definition review_score (revenue e : transaction) : review_candidate :=
  let revenue_desc := description revenue in
  let revenue_amount := abs_amount revenue in
  let revenue_keywords := extract_keywords revenue_desc in
  let expense_desc := description e in
  let expense_keywords := extract_keywords expense_desc in
  let fuzzy := calculate_similarity revenue_desc expense_desc in
  let kw :=
    if (0 <? size revenue_keywords)%nat && (0 <? size expense_keywords)%nat
    then overlap_score revenue_keywords expense_keywords
    else 0 in
  let amount_diff := Qabs (abs_amount e - revenue_amount) in
  let amt :=
    if Py.Qltb 0 revenue_amount
    then py_max 0 (1 - amount_diff / revenue_amount)
    else 0 in
  {| rc_expense := e;
     fuzzy_score := fuzzy;
     rc_keyword_score := kw;
     amount_score := amt;
     combined_score := fuzzy * (4 # 10) + kw * (4 # 10) + amt * (2 # 10);
     rc_shared_keywords := revenue_keywords ∩ expense_keywords |}.

Definition find_potential_matches_top (top_n : nat)
    (revenue : transaction) (expenses : list transaction)
  : list review_candidate :=
  let potential_matches := review_score revenue <$> expenses in
  take top_n (Py.sort_reverse combined_score potential_matches).

(** [find_potential_matches] with the default [top_n=5]. *)
Definition find_potential_matches := find_potential_matches_top 5.

Definition generate_review_items
    (unmatched_revenues unmatched_expenses : list transaction)
  : list review_item :=
  (λ revenue,
     {| ri_revenue := revenue;
        potential_expenses :=
          find_potential_matches revenue unmatched_expenses;
        ri_status := "pending_review" |}) <$> unmatched_revenues.

(** *** The cascade *)

Definition auto_match_all (df : list transaction)
  : list match_group * list transaction * list transaction :=
  let expenses := filter (λ t, transaction_type t = Expense) df in
  let revenues := filter (λ t, transaction_type t = Revenue) df in
  let '(exact_matches, expenses, revenues) :=
    exact_match expenses revenues in
  let all_matches := [] ++ exact_matches in
  let '(keyword_matches, expenses, revenues) :=
    keyword_match expenses revenues in
  let all_matches := all_matches ++ keyword_matches in
  let '(fuzzy_matches, expenses, revenues) :=
    fuzzy_match expenses revenues in
  let all_matches := all_matches ++ fuzzy_matches in
  (all_matches, expenses, revenues).

End EntityMatcher.

(** ** Exact subset sum ([BalanceCalculator.find_expense_combinations_dp]) *)

(** A call either returns or raises the named exception. *)
Inductive outcome (A : Type) :=
| Returns (a : A)
| Raises (exc : string).
Arguments Returns {A} a.
Arguments Raises {A} exc.

(** [dp[i][j]] read and written on the table of booleans. The code only
    reads and writes cells inside the table. *)
Definition dp_get (dp : list (list bool)) (i j : nat) : bool :=
  default false (dp !! i ≫= (.!! j)).

Definition dp_set (dp : list (list bool)) (i j : nat) (b : bool)
  : list (list bool) :=
  alter (<[j := b]>) i dp.

(** One pass of the body of the inner filling loop, for cell [(i, j)]. *)
Definition fill_cell (expense_cents : list Z) (i : nat)
    (dp : list (list bool)) (j : nat) : list (list bool) :=
  let dp := dp_set dp i j (dp_get dp (i - 1) j) in
  let c := default 0%Z (expense_cents !! (i - 1)%nat) in
  if (c <=? Z.of_nat j)%Z
  then dp_set dp i j
         (dp_get dp i j || dp_get dp (i - 1) (Z.to_nat (Z.of_nat j - c)))
  else dp.

(** The [while i > 0 and j > 0] loop; [i] decreases at every turn. *)
Fixpoint backtrack (dp : list (list bool)) (expenses : list transaction)
    (expense_cents : list Z) (i : nat) (j : Z) (result : list transaction)
  : list transaction :=
  match i with
  | O => result
  | S i' =>
      if (0 <? j)%Z
      then
        if dp_get dp i' (Z.to_nat j)
        then backtrack dp expenses expense_cents i' j result
        else
          backtrack dp expenses expense_cents i'
            (j - default 0%Z (expense_cents !! i'))%Z
            (result ++ option_list (expenses !! i'))
      else result
  end.

(** [int(round(x * 100))]: the product is a float. *)
Definition to_cents (x : Q) : Z := Py.round (Float.mul x 100).

Definition find_expense_combinations_dp (target_amount : Q)
    (expenses : list transaction) : outcome (option (list transaction)) :=
  let target_cents := to_cents target_amount in
  let expense_cents := (λ exp, to_cents (Qabs (amount exp))) <$> expenses in
  let n := length expenses in
  let width := Z.to_nat (target_cents + 1) in
  let dp := replicate (n + 1) (replicate width false) in
  if (target_cents <? 0)%Z then Raises "IndexError"
  else
    let dp := foldl (λ dp i, dp_set dp i 0 true) dp (Py.range 0 (n + 1)) in
    let dp :=
      foldl (λ dp i, foldl (fill_cell expense_cents i) dp (Py.range 0 width))
            dp (Py.range 1 (n + 1)) in
    if negb (dp_get dp n (Z.to_nat target_cents)) then Returns None
    else
      let result := backtrack dp expenses expense_cents n target_cents [] in
      Returns (match result with [] => None | _ :: _ => Some result end).

(** ** Stamping ([BalanceCalculator.assign_match_groups]) *)

Definition calculate_match_group_id (match_index : nat) : string :=
  "MG_" +:+ Py.format_04d match_index.

(** The three [df_copy.at[idx, ...] = ...] writes, when [idx] labels a
    row. *)
Definition stamp (idx : Z) (match_group_id : string) (confidence : Q)
    (df : list transaction) : list transaction :=
  (λ row,
     if bool_decide (original_index row = idx)
     then {| original_index := original_index row;
             amount := amount row;
             description := description row;
             transaction_type := transaction_type row;
             abs_amount := abs_amount row;
             match_status := "matched";
             match_group_id := Some match_group_id;
             match_confidence := Some confidence |}
     else row) <$> df.

Definition assign_match_groups (df : list transaction)
    (matches : list match_group) : list transaction :=
  foldl
    (λ df_copy '(idx, m),
       let match_group_id := calculate_match_group_id idx in
       let confidence := confidence m in
       let df_copy :=
         match revenue m with
         | Some revenue =>
             stamp (original_index revenue) match_group_id confidence df_copy
         | None => df_copy
         end in
       foldl (λ df_copy exp,
                stamp (original_index exp) match_group_id confidence df_copy)
             df_copy (expenses m))
    df (imap pair matches).

(** ** Manual confirmation (route [/confirm_match] of [app.py]) *)

(** The session entries the route reads and writes. The session keeps
    them as JSON text; reading an entry gives back what was stored. *)
Record session := {
  s_matches : list match_group;
  s_review_items : list review_item;
  s_updated_df : list transaction;
  s_unmatched_expenses : list transaction;
  s_unmatched_revenues : list transaction
}.

(** The JSON body of the request. *)
Record match_request := {
  revenue_index : option Z;
  expense_indices : list Z
}.

(** The JSON answer and its HTTP status. *)
Record response := {
  status_code : nat;
  success : bool;
  message : string;
  remaining_reviews : option nat
}.

Definition failure (code : nat) (msg : string) : response :=
  {| status_code := code; success := false; message := msg;
     remaining_reviews := None |}.

Section App.

Variable cfg : config.
Variable token_sort_ratio : string → string → Z.

(** The manual group built from the rows found in the pools. *)
Definition manual_match (revenue : transaction)
    (selected_expenses : list transaction) : match_group :=
  {| match_type := "manual";
     confidence := 1;
     revenue := Some revenue;
     expenses := selected_expenses;
     balance := amount revenue + Py.sum (amount <$> selected_expenses) |}.

Definition confirm_match (st : session) (data : match_request)
  : session * response :=
  match revenue_index data, expense_indices data with
  | None, _ | Some Z0, _ | _, [] => (st, failure 400 "Invalid match data")
  | Some revenue_index, expense_indices =>
      let matches := s_matches st in
      let unmatched_expenses := s_unmatched_expenses st in
      let unmatched_revenues := s_unmatched_revenues st in
      match filter (λ t, original_index t = revenue_index)
              unmatched_revenues with
      | [] => (st, failure 500 "single positional indexer is out-of-bounds")
      | revenue :: _ =>
          let selected_expenses :=
            filter (λ t, original_index t ∈ expense_indices)
                   unmatched_expenses in
          let new_match := manual_match revenue selected_expenses in
          let '(is_valid, message) := validate_match cfg new_match in
          if negb is_valid
          then (st, failure 400 ("Invalid match: " +:+ message))
          else
            let matches := matches ++ [new_match] in
            let updated_df :=
              assign_match_groups (s_updated_df st) matches in
            let unmatched_expenses :=
              filter (λ t, original_index t ∉ expense_indices)
                     unmatched_expenses in
            let unmatched_revenues :=
              filter (λ t, original_index t ≠ revenue_index)
                     unmatched_revenues in
            let review_items :=
              generate_review_items cfg token_sort_ratio
                unmatched_revenues unmatched_expenses in
            ({| s_matches := matches;
                s_review_items := review_items;
                s_updated_df := updated_df;
                s_unmatched_expenses := unmatched_expenses;
                s_unmatched_revenues := unmatched_revenues |},
             {| status_code := 200;
                success := true;
                message := "Match confirmed successfully";
                remaining_reviews := Some (length review_items) |})
      end
  end.

End App.

(** ** The stages as the specification words them *)

#[global] Instance Qlt_decision (a b : Q) : Decision (a < b) :=
  match Qlt_le_dec a b with
  | left H => left H
  | right H => right (Qle_not_lt _ _ H)
  end.

Section StagesInWords.

Variable cfg : config.

(** "whose [abs_amount] differs from the revenue's by less than tolerance
    and whose lower-cased, trimmed description string is identical to the
    revenue's" *)
Definition exact_pair (revenue e : transaction) : Prop :=
  Qabs (abs_amount e - abs_amount revenue) < BALANCE_TOLERANCE cfg
  ∧ Py.strip (Py.lower (description e))
    = Py.strip (Py.lower (description revenue)).

#[global] Instance exact_pair_dec revenue e : Decision (exact_pair revenue e).
Proof. unfold exact_pair. apply _. Defined.

End StagesInWords.

#[global] Instance Qeq_decision (a b : Q) : Decision (a == b) := Qeq_dec a b.

#[global] Instance Qle_decision (a b : Q) : Decision (a <= b) :=
  match Qlt_le_dec b a with
  | left H => right (Qlt_not_le _ _ H)
  | right H => left H
  end.

Section SolverInWords.

Variable cfg : config.

(** "whose absolute amount is within tolerance of the target" *)
Definition single_within (target : Q) (pe : potential) : Prop :=
  Qabs (abs_amount (expense pe) - target) < BALANCE_TOLERANCE cfg.

(** "whose total absolute value is within tolerance of target" *)
Definition total_within (target : Q) (combo : list potential) : Prop :=
  Qabs (Py.sum ((λ pe, abs_amount (expense pe)) <$> combo) - target)
  < BALANCE_TOLERANCE cfg.

#[global] Instance single_within_dec target pe :
  Decision (single_within target pe).
Proof. unfold single_within. apply _. Defined.

#[global] Instance total_within_dec target combo :
  Decision (total_within target combo).
Proof. unfold total_within. apply _. Defined.

(** "First check every single candidate for a tolerance match. If none
    matches, restrict to the top 10 ranked candidates and enumerate
    combinations of increasing size from 2 up to 5; return the first
    combination (in generation order) whose total absolute value is
    within tolerance of target. No match found: no solution."
    [ranked] is the candidate list in ranking order; the answer is the
    chosen candidates. *)
Definition ranked_search (target : Q) (ranked : list potential)
  : option (list potential) :=
  match list_find (single_within target) ranked with
  | Some (_, pe) => Some [pe]
  | None =>
      snd <$> list_find (total_within target)
                (concat (Py.combinations (take 10 ranked) <$> [2; 3; 4; 5]%nat))
  end.

(** "Confidence of an accepted combination = mean of member quality
    scores." *)
Definition mean (xs : list Q) : Q :=
  foldr Qplus 0 xs / inject_Z (Z.of_nat (length xs)).

End SolverInWords.

(** The transactions a group refers to: its revenue and its expenses. *)
Definition group_rows (g : match_group) : list transaction :=
  option_list (revenue g) ++ expenses g.

(** The transactions referred to by a list of groups. *)
Definition referenced (groups : list match_group) : list transaction :=
  groups ≫= group_rows.

(** "the transactions referenced by the stage's produced groups and the
    transactions in the stage's remaining pools are disjoint and together
    equal the stage's input pools": the groups and pools [out] a stage (or
    the cascade so far) hands back split the rows [pool_in]. *)
Definition partitions (pool_in : list transaction)
    (out : list match_group * list transaction * list transaction) : Prop :=
  referenced out.1.1 ++ out.1.2 ++ out.2 ≡ₚ pool_in
  ∧ ∀ t, t ∈ referenced out.1.1 →
         original_index t ∉ original_index <$> (out.1.2 ++ out.2).

(** ** Subset sums in words *)

Definition total (cs : list Z) : Z := foldr Z.add 0%Z cs.

(** "some subset of the candidates' amounts, converted to integer cents,
    sums exactly to" [j]: a selection of entries of [cs], kept in order. *)
Definition reachable (cs : list Z) (j : Z) : Prop :=
  ∃ s, s `sublist_of` cs ∧ total s = j.

(** The cents of one candidate, as the solver computes them. *)
Definition expense_cents (exp : transaction) : Z :=
  to_cents (Qabs (amount exp)).

(** A table of [n + 1] rows of [width] cells. *)
Definition table_shape (n width : nat) (dp : list (list bool)) : Prop :=
  length dp = S n ∧ Forall (λ row, length row = width) dp.

(** The value the filling loop leaves in cell [(i, j)], read off the row
    above: reachable without candidate [i - 1], or with it. *)
Definition cell_value (expense_cents : list Z) (dp : list (list bool))
    (i j : nat) : bool :=
  let c := default 0%Z (expense_cents !! (i - 1)%nat) in
  dp_get dp (i - 1) j
  || (if (c <=? Z.of_nat j)%Z
      then dp_get dp (i - 1) (Z.to_nat (Z.of_nat j - c))
      else false).

(** The positions at which [backtrack] takes a candidate, in the order it
    takes them. They are computed from the table and the cents alone. *)
Fixpoint backtrack_positions (dp : list (list bool)) (expense_cents : list Z)
    (i : nat) (j : Z) : list nat :=
  match i with
  | O => []
  | S i' =>
      if (0 <? j)%Z
      then
        if dp_get dp i' (Z.to_nat j)
        then backtrack_positions dp expense_cents i' j
        else
          i' :: backtrack_positions dp expense_cents i'
                  (j - default 0%Z (expense_cents !! i'))%Z
      else []
  end.

(** Two answers of the solver that pick the same positions of their
    candidate lists. *)
Definition same_selection (es es' : list transaction)
    (r r' : outcome (option (list transaction))) : Prop :=
  match r, r' with
  | Returns None, Returns None => True
  | Returns (Some l), Returns (Some l') =>
      ∃ positions : list nat,
        l = omap (λ p, es !! p) positions
        ∧ l' = omap (λ p, es' !! p) positions
  | Raises exc, Raises exc' => exc = exc'
  | _, _ => False
  end.

(** ** Sample data: the scenarios of the specification *)

(** A row as [FileHandler.process_transactions] writes it. *)
Definition row (idx : Z) (amt : Q) (desc : string) : transaction :=
  {| original_index := idx;
     amount := amt;
     description := Py.strip desc;
     transaction_type :=
       if Py.Qltb amt 0 then Expense
       else if Py.Qltb 0 amt then Revenue else Zero;
     abs_amount := Qabs amt;
     match_status := "unmatched";
     match_group_id := None;
     match_confidence := None |}.

Definition scenario_A_revenue : transaction := row 0 100 "Acme Invoice 123".
Definition scenario_A_expense : transaction :=
  row 1 (-100) "acme invoice 123".

Definition scenario_B_revenue : transaction :=
  row 2 250 "Consulting fee Acme Corp".
Definition scenario_B_expense_A : transaction :=
  row 3 (-150) "Acme Corp payment A".
Definition scenario_B_expense_B : transaction :=
  row 4 (-100) "Acme Corp payment B".

(** A similarity that finds nothing alike, to run the stages that do not
    depend on it. *)
Definition no_similarity (text1 text2 : string) : Z := 0.

(** The group Scenario B expects from the Keyword stage. *)
Definition scenario_B_group : match_group :=
  {| match_type := "fuzzy_multiple_2";
     confidence := 16 # 32;
     revenue := Some scenario_B_revenue;
     expenses := [scenario_B_expense_A; scenario_B_expense_B];
     balance := 0 |}.

(** Candidates of 0.02 and 0.03 for a target of 0.05. *)
Definition two_cents : transaction :=
  row 5 (Float.lit (- (2 # 100))) "stamp".
Definition three_cents : transaction :=
  row 6 (Float.lit (- (3 # 100))) "envelope".

(** A target below half a cent, and one candidate of 5.00. *)
Definition tiny_target : Q := Float.lit (4 # 1000).
Definition five_units : transaction := row 7 (-5) "fee".

(** Scenario D: a revenue of 100.00 and two expenses that total 99.98,
    all still unmatched, and the request to confirm them together. *)
Definition scenario_D_revenue : transaction := row 10 100 "Invoice X".
Definition scenario_D_expense_1 : transaction := row 11 (-60) "Part one".
Definition scenario_D_expense_2 : transaction :=
  row 12 (- (3998 # 100)) "Part two".

Definition scenario_D_session : session :=
  {| s_matches := [];
     s_review_items := [];
     s_updated_df :=
       [scenario_D_revenue; scenario_D_expense_1; scenario_D_expense_2];
     s_unmatched_expenses := [scenario_D_expense_1; scenario_D_expense_2];
     s_unmatched_revenues := [scenario_D_revenue] |}.

Definition scenario_D_request : match_request :=
  {| revenue_index := Some 10%Z; expense_indices := [11; 12]%Z |}.

(** The rows of Scenario A, unmatched, and the request to confirm them:
    the revenue sits at original position 0. *)
Definition position_0_session : session :=
  {| s_matches := [];
     s_review_items := [];
     s_updated_df := [scenario_A_revenue; scenario_A_expense];
     s_unmatched_expenses := [scenario_A_expense];
     s_unmatched_revenues := [scenario_A_revenue] |}.

Definition position_0_request : match_request :=
  {| revenue_index := Some 0%Z; expense_indices := [1%Z] |}.

(** The same revenue at original position 9, and the request to confirm
    it with the expense of Scenario A. *)
Definition position_9_revenue : transaction := row 9 100 "Acme Invoice 123".

Definition position_9_session : session :=
  {| s_matches := [];
     s_review_items := [];
     s_updated_df := [position_9_revenue; scenario_A_expense];
     s_unmatched_expenses := [scenario_A_expense];
     s_unmatched_revenues := [position_9_revenue] |}.

Definition position_9_request : match_request :=
  {| revenue_index := Some 9%Z; expense_indices := [1%Z] |}.

(** The rows of Scenarios A and B as one table. *)
Definition scenarios_df : list transaction :=
  [scenario_A_revenue; scenario_A_expense; scenario_B_revenue;
   scenario_B_expense_A; scenario_B_expense_B].

(** ** BalanceCalculator: combinations, validation of a list, aggregate *)

(** An entry of [balance_discrepancies]. *)
Record discrepancy := {
  d_match : match_group;
  d_balance : Q;
  d_revenue_amount : Q;
  d_expense_total : Q
}.

(** The dictionary [calculate_total_balance] returns. *)
Record balance_stats := {
  total_matches : nat;
  balanced_matches : nat;
  unbalanced_matches : nat;
  total_revenue : Q;
  total_expenses : Q;
  net_balance : Q;
  balance_discrepancies : list discrepancy
}.

(** A suggestion of [suggest_expense_combination]. Only approximate
    suggestions carry [difference]. *)
Record suggestion := {
  sg_expenses : list transaction;
  total_amount : Q;
  sg_balance : Q;
  sg_match_type : string;
  score : Q;
  difference : option Q
}.

(** The dictionary [group_by_match_status] returns. *)
Record status_groups := {
  sg_matched : list transaction;
  sg_unmatched : list transaction;
  sg_pending : list transaction
}.

Section BalanceCalculatorMore.

Variable cfg : config.

(** [sum(abs(exp.get("amount", 0)) for exp in combo)] *)
Definition combo_sum (combo : list transaction) : Q :=
  Py.sum ((λ exp, Qabs (amount exp)) <$> combo).

Definition find_expense_combinations (target_amount : Q)
    (expenses : list transaction) (max_combo_size : nat)
  : list (list transaction) :=
  foldl
    (λ matching_combinations size,
       foldl
         (λ matching_combinations combo,
            if Py.Qltb (Qabs (combo_sum combo - target_amount))
                       (BALANCE_TOLERANCE cfg)
            then matching_combinations ++ [combo]
            else matching_combinations)
         matching_combinations (Py.combinations expenses size))
    [] (Py.range 1 (min (max_combo_size + 1) (length expenses + 1))).

(** [validate_all_matches]. An invalid match is returned with the message
    written under its key [validation_error]. *)
Definition validate_all_matches (matches : list match_group)
  : list match_group * list (match_group * string) :=
  foldl
    (λ '(valid_matches, invalid_matches) m,
       let '(is_valid, message) := validate_match cfg m in
       if is_valid
       then (valid_matches ++ [m], invalid_matches)
       else (valid_matches, invalid_matches ++ [(m, message)]))
    ([], []) matches.

(** The body of the [for] of [calculate_total_balance]. *)
Definition total_balance_step (stats : balance_stats) (m : match_group)
  : balance_stats :=
  let revenue_amount := Qabs (from_option amount 0 (revenue m)) in
  let expense_total := combo_sum (expenses m) in
  let balance := calculate_match_balance m in
  let balanced := is_balanced cfg m in
  {| total_matches := total_matches stats;
     balanced_matches :=
       if balanced then (balanced_matches stats + 1)%nat
       else balanced_matches stats;
     unbalanced_matches :=
       if balanced then unbalanced_matches stats
       else (unbalanced_matches stats + 1)%nat;
     total_revenue := total_revenue stats + revenue_amount;
     total_expenses := total_expenses stats + expense_total;
     net_balance := net_balance stats;
     balance_discrepancies :=
       if balanced then balance_discrepancies stats
       else balance_discrepancies stats
            ++ [{| d_match := m;
                   d_balance := balance;
                   d_revenue_amount := revenue_amount;
                   d_expense_total := expense_total |}] |}.

Definition calculate_total_balance (matches : list match_group)
  : balance_stats :=
  let stats :=
    foldl total_balance_step
      {| total_matches := length matches;
         balanced_matches := 0;
         unbalanced_matches := 0;
         total_revenue := 0;
         total_expenses := 0;
         net_balance := 0;
         balance_discrepancies := [] |}
      matches in
  {| total_matches := total_matches stats;
     balanced_matches := balanced_matches stats;
     unbalanced_matches := unbalanced_matches stats;
     total_revenue := total_revenue stats;
     total_expenses := total_expenses stats;
     net_balance := total_revenue stats - total_expenses stats;
     balance_discrepancies := balance_discrepancies stats |}.

(** The entry [_find_close_combinations] appends for one [combo]. *)
Definition close_suggestion (target_amount : Q) (combo : list transaction)
  : suggestion :=
  let combo_sum := combo_sum combo in
  let difference := Qabs (combo_sum - target_amount) in
  let proximity_score := py_max 0 (1 - difference / target_amount) in
  {| sg_expenses := combo;
     total_amount := combo_sum;
     sg_balance := target_amount - combo_sum;
     sg_match_type := "approximate";
     score := proximity_score;
     difference := Some difference |}.

Definition _find_close_combinations (target_amount : Q)
    (expenses : list transaction) (top_n : nat) : list suggestion :=
  let max_expenses := min 10 (length expenses) in
  let close_matches :=
    foldl
      (λ close_matches size,
         foldl
           (λ close_matches combo,
              let difference := Qabs (combo_sum combo - target_amount) in
              if Py.Qltb difference (target_amount * (1 # 10))
              then close_matches ++ [close_suggestion target_amount combo]
              else close_matches)
           close_matches
           (Py.combinations (take max_expenses expenses) size))
      [] (Py.range 1 (min 6 (max_expenses + 1))) in
  take top_n (Py.sort_reverse score close_matches).

(** The entry [suggest_expense_combination] appends for an exact [combo]. *)
Definition exact_suggestion (revenue_amount : Q) (combo : list transaction)
  : suggestion :=
  let combo_sum := combo_sum combo in
  {| sg_expenses := combo;
     total_amount := combo_sum;
     sg_balance := revenue_amount - combo_sum;
     sg_match_type := "exact";
     score := 1;
     difference := None |}.

Definition suggest_expense_combination_top (top_n : nat) (revenue_amount : Q)
    (available_expenses : list transaction) : list suggestion :=
  let exact_combinations :=
    find_expense_combinations revenue_amount available_expenses 5 in
  let suggestions :=
    exact_suggestion revenue_amount <$> take top_n exact_combinations in
  if (length suggestions <? top_n)%nat
  then suggestions
       ++ _find_close_combinations revenue_amount available_expenses
            (top_n - length suggestions)
  else suggestions.

(** [suggest_expense_combination] with the default [top_n=3]. *)
Definition suggest_expense_combination := suggest_expense_combination_top 3.

Definition group_by_match_status (df : list transaction) : status_groups :=
  {| sg_matched := filter (λ t, match_status t = "matched") df;
     sg_unmatched := filter (λ t, match_status t = "unmatched") df;
     sg_pending := filter (λ t, match_status t = "pending_review") df |}.

End BalanceCalculatorMore.

(** ** FileHandler ([modules/file_handler.py]) *)

(** A row of the uploaded table, seen through the two selected columns:
    its label, the amount cell after [pd.to_numeric(..., errors="coerce")]
    ([None] for a cell that is not a number) and the description cell
    after [astype(str)]. *)
Record raw_row := {
  label : Z;
  amount_cell : option Q;
  description_cell : string
}.

(** The processed row of a raw row with amount [a]. *)
Definition processed_row (r : raw_row) (a : Q) : transaction :=
  {| original_index := label r;
     amount := a;
     description := Py.strip (description_cell r);
     transaction_type :=
       if Py.Qltb a 0 then Expense
       else if Py.Qltb 0 a then Revenue else Zero;
     abs_amount := Qabs a;
     match_status := "unmatched";
     match_group_id := None;
     match_confidence := None |}.

Definition process_transactions (columns : list string)
    (rows : list raw_row) (amount_column description_column : string)
  : bool * string * option (list transaction) :=
  if negb (bool_decide (amount_column ∈ columns))
  then (false, "Amount column '" +:+ amount_column +:+ "' not found", None)
  else if negb (bool_decide (description_column ∈ columns))
  then (false,
        "Description column '" +:+ description_column +:+ "' not found",
        None)
  else
    let processed_df :=
      omap (λ r, processed_row r <$> amount_cell r) rows in
    let processed_df :=
      filter (λ t, transaction_type t ≠ Zero) processed_df in
    let expense_count :=
      length (filter (λ t, transaction_type t = Expense) processed_df) in
    let revenue_count :=
      length (filter (λ t, transaction_type t = Revenue) processed_df) in
    let message :=
      "Processed " +:+ pretty (length processed_df) +:+ " transactions ("
      +:+ pretty expense_count +:+ " expenses, "
      +:+ pretty revenue_count +:+ " revenues)" in
    (true, message, Some processed_df).

(** The dictionary [get_summary_statistics] returns. *)
Record summary := {
  total_transactions : nat;
  expense_count : nat;
  revenue_count : nat;
  total_expense_amount : Q;
  total_revenue_amount : Q;
  summary_net_balance : Q;
  matched_count : nat;
  unmatched_count : nat
}.

Definition get_summary_statistics (df : list transaction) : summary :=
  let expenses := filter (λ t, transaction_type t = Expense) df in
  let revenues := filter (λ t, transaction_type t = Revenue) df in
  {| total_transactions := length df;
     expense_count := length expenses;
     revenue_count := length revenues;
     total_expense_amount := Qabs (Py.sum (amount <$> expenses));
     total_revenue_amount := Py.sum (amount <$> revenues);
     summary_net_balance := Py.sum (amount <$> df);
     matched_count := length (filter (λ t, match_status t = "matched") df);
     unmatched_count :=
       length (filter (λ t, match_status t = "unmatched") df) |}.

(** ** Automatic matching (route [/auto_match] of [app.py]) *)

(** The JSON answer of the route: a failure with its HTTP status, or the
    counts and statistics of a run. *)
Inductive auto_match_answer :=
| AutoMatchFailed (code : nat) (msg : string)
| AutoMatched (matched review : nat) (s : summary) (b : balance_stats).

Section AutoMatch.

Variable cfg : config.
Variable token_sort_ratio : string → string → Z.

(** [processed_df] is the session entry [processed_df_json], [None] when
    it is missing. The session written is [None] when nothing is stored.
    The answer of a run is the dictionary the route hands to [jsonify];
    the session is written before, and stays written when [jsonify]
    cannot serialise the dictionary and the route answers 500 instead. *)
Definition auto_match (processed_df : option (list transaction))
  : option session * auto_match_answer :=
  match processed_df with
  | None => (None, AutoMatchFailed 400 "No processed data found")
  | Some processed_df =>
      let '(matches, unmatched_expenses, unmatched_revenues) :=
        auto_match_all cfg token_sort_ratio processed_df in
      let '(valid_matches, invalid_matches) :=
        validate_all_matches cfg matches in
      let updated_df := assign_match_groups processed_df valid_matches in
      let review_items :=
        generate_review_items cfg token_sort_ratio
          unmatched_revenues unmatched_expenses in
      let summary := get_summary_statistics updated_df in
      let balance_stats := calculate_total_balance cfg valid_matches in
      (Some {| s_matches := valid_matches;
               s_review_items := review_items;
               s_updated_df := updated_df;
               s_unmatched_expenses := unmatched_expenses;
               s_unmatched_revenues := unmatched_revenues |},
       AutoMatched (length valid_matches) (length review_items)
         summary balance_stats)
  end.

End AutoMatch.

(** ** Well-formed tables, in words *)

(** A row as [process_transactions] leaves it: the absolute amount is that
    of the amount, and the type follows the sign. *)
Definition well_formed_row (t : transaction) : Prop :=
  abs_amount t == Qabs (amount t)
  ∧ match transaction_type t with
    | Expense => amount t < 0
    | Revenue => 0 < amount t
    | Zero => amount t == 0
    end.

(** The test every stage applies before it commits a group for the
    revenue [rv]: the absolute amounts of the expenses total the
    revenue's within tolerance. *)
Definition abs_balanced (cfg : config) (rv : transaction) (g : match_group)
  : Prop :=
  revenue g = Some rv
  ∧ expenses g ≠ []
  ∧ Qabs (Py.sum (abs_amount <$> expenses g) - abs_amount rv)
    < BALANCE_TOLERANCE cfg.

(** "combinations that sum to target amount": the absolute amounts of
    [combo] total [target] within tolerance. *)
Definition within_tolerance (cfg : config) (target : Q)
    (combo : list transaction) : Prop :=
  Qabs (combo_sum combo - target) < BALANCE_TOLERANCE cfg.

(** "reasonably close (within 10%)" *)
Definition within_ten_percent (target : Q) (combo : list transaction)
  : Prop :=
  Qabs (combo_sum combo - target) < target * (1 # 10).

(** A match passes [validate_match]. *)
Definition valid (cfg : config) (m : match_group) : Prop :=
  (validate_match cfg m).1 = true.

#[global] Instance valid_dec cfg m : Decision (valid cfg m).
Proof. unfold valid. apply _. Defined.

#[global] Instance within_tolerance_dec cfg target combo :
  Decision (within_tolerance cfg target combo).
Proof. unfold within_tolerance. apply _. Defined.

#[global] Instance within_ten_percent_dec target combo :
  Decision (within_ten_percent target combo).
Proof. unfold within_ten_percent. apply _. Defined.

(** The discrepancy [calculate_total_balance] records for [m]. *)
Definition discrepancy_of (m : match_group) : discrepancy :=
  {| d_match := m;
     d_balance := calculate_match_balance m;
     d_revenue_amount := Qabs (from_option amount 0 (revenue m));
     d_expense_total := combo_sum (expenses m) |}.

(** ** Stamping, in words *)

(** The ids a group refers to: of its revenue and of its expenses. *)
Definition group_ids (m : match_group) : list Z :=
  original_index <$> group_rows m.

(** A row marked as matched with a group id and a confidence. *)
Definition mark (match_group_id : string) (confidence : Q)
    (row : transaction) : transaction :=
  {| original_index := original_index row;
     amount := amount row;
     description := description row;
     transaction_type := transaction_type row;
     abs_amount := abs_amount row;
     match_status := "matched";
     match_group_id := Some match_group_id;
     match_confidence := Some confidence |}.

(** The last group of the list that refers to the row id [i], with its
    position in the list. *)
Definition last_group_of (ms : list match_group) (i : Z)
  : option (nat * match_group) :=
  last (filter (λ p, i ∈ group_ids p.2) (imap pair ms)).

(** A row as the groups [ms] leave it: marked by the last group that
    refers to its id, untouched when there is none. *)
Definition stamped_by (ms : list match_group) (row : transaction)
  : transaction :=
  match last_group_of ms (original_index row) with
  | Some (k, m) => mark (calculate_match_group_id k) (confidence m) row
  | None => row
  end.

(** Two rows with the same data columns. *)
Definition same_data (r1 r2 : transaction) : Prop :=
  original_index r1 = original_index r2
  ∧ amount r1 = amount r2
  ∧ description r1 = description r2
  ∧ transaction_type r1 = transaction_type r2
  ∧ abs_amount r1 = abs_amount r2.

(** ** Keywords, in words *)

(** A lower-case letter, a digit or the underscore. *)
Definition keyword_char (c : ascii) : bool :=
  let n := nat_of_ascii c in
  ((48 <=? n)%nat && (n <=? 57)%nat) || ((97 <=? n)%nat && (n <=? 122)%nat)
  || (n =? 95)%nat.

(** Every character of [s] passes [P]. *)
Fixpoint all_chars (P : ascii → bool) (s : string) : bool :=
  match s with
  | EmptyString => true
  | String c s' => P c && all_chars P s'
  end.

(** ** Sessions, in words *)

(** The sessions a table [df] leads to: the one [/auto_match] stores, and
    those any [/confirm_match] request leaves. *)
Inductive session_reachable (cfg : config)
    (token_sort_ratio : string → string → Z) (df : list transaction)
  : session → Prop :=
| reach_auto_match st answer :
    auto_match cfg token_sort_ratio (Some df) = (Some st, answer) →
    session_reachable cfg token_sort_ratio df st
| reach_confirm_match st data :
    session_reachable cfg token_sort_ratio df st →
    session_reachable cfg token_sort_ratio df
      (confirm_match cfg token_sort_ratio st data).1.

(** A table as [process_transactions] hands it over: rows told apart by
    their label, typed by the sign of their amount, none of amount zero,
    all unmatched. *)
Definition processed_table (df : list transaction) : Prop :=
  NoDup (original_index <$> df)
  ∧ Forall well_formed_row df
  ∧ Forall (λ t, transaction_type t ≠ Zero) df
  ∧ Forall (λ t, match_status t = "unmatched") df.

(** ** Sample data for the further properties *)

(** The group the Exact stage makes of Scenario A. *)
Definition scenario_A_group : match_group :=
  exact_group scenario_A_revenue scenario_A_expense.




(** An upload of four rows: an expense, a revenue, a row of amount zero
    and a row whose amount is not a number. *)
Definition upload_columns : list string := ["Date"; "Amount"; "Memo"].

Definition upload_rows : list raw_row :=
  [ {| label := 0; amount_cell := Some (-100);
       description_cell := " acme invoice 123 " |};
    {| label := 1; amount_cell := Some 100;
       description_cell := "Acme Invoice 123" |};
    {| label := 2; amount_cell := Some 0; description_cell := "void" |};
    {| label := 3; amount_cell := None; description_cell := "total" |} ].

(** The rows of Scenarios A and B with a revenue and an expense that no
    stage pairs, and the request to confirm these two together. *)
Definition refund : transaction := row 13 70 "Refund alpha".
Definition charge : transaction := row 14 (-70) "Charge beta".

Definition review_df : list transaction := scenarios_df ++ [refund; charge].

Definition review_request : match_request :=
  {| revenue_index := Some 13%Z; expense_indices := [14%Z] |}.

(** The session [/auto_match] stores for [review_df], and the session
    the request leaves. *)
Definition review_session_0 : session :=
  default scenario_D_session
    (auto_match Config no_similarity (Some review_df)).1.

Definition review_session_1 : session :=
  (confirm_match Config no_similarity review_session_0 review_request).1.


(** ** The kinds of groups, in words *)

(** "kind [keyword] (or renamed to reflect group size)": the name
    [keyword], alone or within a name that also tells the size. *)
Definition keyword_kind (kind : string) : Prop :=
  is_Some (String.index 0 "keyword" kind).

(** A text of 7-bit characters only, as [str.isascii] tests it. *)
Definition isascii (text : string) : bool :=
  all_chars (λ c, (nat_of_ascii c <? 128)%nat) text.

(** ** The tolerance tests, the scores and the solvers in binary64 *)

(** The functions whose answer depends on a comparison of floats, on a
    rounded score or on a printed residual, once more, with every
    operation rounded as Python rounds it.

    [sum(...)] is the built-in. It adds from the left and rounds every
    partial sum ([Float.sum]); from CPython 3.12 on, a sum of plain
    floats also carries the rounding errors along and adds them at the
    end, which can change the last bit of a sum of three or more. The
    functions below take the sum as the parameter [fsum]. The examples
    run them with [Float.sum]: on at most two floats both ways of
    summing give the same double. *)

Module F64.

(** [config.py], its constants as floats. *)
Definition Config : config := {|
  FUZZY_MATCH_THRESHOLD := Float.lit (80 # 100);
  HIGH_CONFIDENCE_THRESHOLD := Float.lit (90 # 100);
  KEYWORD_MIN_LENGTH := 3;
  BALANCE_TOLERANCE := Float.lit (1 # 100);
  STOPWORDS :=
    ["to"; "from"; "for"; "the"; "and"; "or"; "in"; "at"; "by"; "invoice";
     "payment"; "receipt"; "transaction"; "bill"; "ref"]
|}.

(** A row as [FileHandler.process_transactions] writes it, for the amount
    the text [amt] of the cell parses to. *)
Definition row (idx : Z) (amt : Q) (desc : string) : transaction :=
  {| original_index := idx;
     amount := Float.lit amt;
     description := Py.strip desc;
     transaction_type :=
       if Py.Qltb (Float.lit amt) 0 then Expense
       else if Py.Qltb 0 (Float.lit amt) then Revenue else Zero;
     abs_amount := Qabs (Float.lit amt);
     match_status := "unmatched";
     match_group_id := None;
     match_confidence := None |}.

Section BalanceCalculator.

Variable fsum : list Q → Q.
Variable cfg : config.

Definition calculate_match_balance (m : match_group) : Q :=
  let revenue_amount := from_option amount 0 (revenue m) in
  let expense_total := fsum (amount <$> expenses m) in
  Float.add revenue_amount expense_total.

Definition is_balanced (m : match_group) : bool :=
  let balance := calculate_match_balance m in
  Py.Qltb (Qabs balance) (BALANCE_TOLERANCE cfg).

Definition validate_match (m : match_group) : bool * string :=
  match revenue m with
  | None => (false, "No revenue transaction in match")
  | Some _ =>
      match expenses m with
      | [] => (false, "No expense transactions in match")
      | _ :: _ =>
          if negb (is_balanced m)
          then
            let balance := calculate_match_balance m in
            (false, "Match not balanced. Balance: " +:+ Py.format_2f balance)
          else (true, "Match is valid")
      end
  end.

(** [sum(abs(exp.get("amount", 0)) for exp in combo)] *)
Definition combo_sum (combo : list transaction) : Q :=
  fsum ((λ exp, Qabs (amount exp)) <$> combo).

Definition find_expense_combinations (target_amount : Q)
    (expenses : list transaction) (max_combo_size : nat)
  : list (list transaction) :=
  foldl
    (λ matching_combinations size,
       foldl
         (λ matching_combinations combo,
            if Py.Qltb (Qabs (Float.sub (combo_sum combo) target_amount))
                       (BALANCE_TOLERANCE cfg)
            then matching_combinations ++ [combo]
            else matching_combinations)
         matching_combinations (Py.combinations expenses size))
    [] (Py.range 1 (min (max_combo_size + 1) (length expenses + 1))).

(** The entry [_find_close_combinations] appends for one [combo]. *)
Definition close_suggestion (target_amount : Q) (combo : list transaction)
  : suggestion :=
  let combo_sum := combo_sum combo in
  let difference := Qabs (Float.sub combo_sum target_amount) in
  let proximity_score :=
    py_max 0 (Float.sub 1 (Float.div difference target_amount)) in
  {| sg_expenses := combo;
     total_amount := combo_sum;
     sg_balance := Float.sub target_amount combo_sum;
     sg_match_type := "approximate";
     score := proximity_score;
     difference := Some difference |}.

Definition _find_close_combinations (target_amount : Q)
    (expenses : list transaction) (top_n : nat) : list suggestion :=
  let max_expenses := min 10 (length expenses) in
  let close_matches :=
    foldl
      (λ close_matches size,
         foldl
           (λ close_matches combo,
              let difference :=
                Qabs (Float.sub (combo_sum combo) target_amount) in
              if Py.Qltb difference
                   (Float.mul target_amount (Float.lit (1 # 10)))
              then close_matches ++ [close_suggestion target_amount combo]
              else close_matches)
           close_matches
           (Py.combinations (take max_expenses expenses) size))
      [] (Py.range 1 (min 6 (max_expenses + 1))) in
  take top_n (Py.sort_reverse score close_matches).

End BalanceCalculator.

Section EntityMatcher.

Variable fsum : list Q → Q.
Variable cfg : config.
Variable token_sort_ratio : string → string → Z.

(** [score / 100.0] *)
Definition calculate_similarity (text1 text2 : string) : Q :=
  let score := token_sort_ratio text1 text2 in
  Float.div (Float.of_int score) 100.

(** *** Exact stage *)

Definition exact_group (revenue expense : transaction) : match_group :=
  {| match_type := "exact";
     confidence := 1;
     revenue := Some revenue;
     expenses := [expense];
     balance := Float.sub (abs_amount revenue) (abs_amount expense) |}.

(** The inner [for] of [exact_match]: [continue] on a consumed row,
    [break] after the first hit. *)
Fixpoint exact_match_scan (revenue : transaction)
    (expenses : list transaction) (st : stage_state) : stage_state :=
  match expenses with
  | [] => st
  | expense :: rest =>
      if bool_decide (original_index expense ∈ matched_expense_ids st)
      then exact_match_scan revenue rest st
      else
        let revenue_amount := abs_amount revenue in
        let revenue_desc := Py.strip (Py.lower (description revenue)) in
        let expense_amount := abs_amount expense in
        let expense_desc := Py.strip (Py.lower (description expense)) in
        if Py.Qltb (Qabs (Float.sub expense_amount revenue_amount))
                   (BALANCE_TOLERANCE cfg)
           && String.eqb expense_desc revenue_desc
        then
          {| matches := matches st ++ [exact_group revenue expense];
             matched_expense_ids :=
               matched_expense_ids st ∪ {[original_index expense]};
             matched_revenue_ids :=
               matched_revenue_ids st ∪ {[original_index revenue]} |}
        else exact_match_scan revenue rest st
  end.

Definition exact_match (expenses revenues : list transaction)
  : list match_group * list transaction * list transaction :=
  let st :=
    foldl (λ st revenue, exact_match_scan revenue expenses st)
          stage_init revenues in
  (matches st,
   drop_ids (matched_expense_ids st) expenses,
   drop_ids (matched_revenue_ids st) revenues).

(** *** Ranked bounded search *)

(** The first loop of [_find_best_expense_combination]. *)
Fixpoint find_single (revenue : transaction) (pes : list potential)
  : option match_group :=
  match pes with
  | [] => None
  | pot_exp :: rest =>
      let revenue_amount := abs_amount revenue in
      let e := expense pot_exp in
      if Py.Qltb (Qabs (Float.sub (abs_amount e) revenue_amount))
                 (BALANCE_TOLERANCE cfg)
      then Some {| match_type := "fuzzy_single";
                   confidence := keyword_score pot_exp;
                   revenue := Some revenue;
                   expenses := [e];
                   balance := Float.sub revenue_amount (abs_amount e) |}
      else find_single revenue rest
  end.

(** [sum(pe["keyword_score"] for pe in combo) / len(combo)] *)
Definition mean_score (combo : list potential) : Q :=
  Float.div (fsum (keyword_score <$> combo))
            (Float.of_int (Z.of_nat (length combo))).

(** The body of the nested loops, for one [combo]. *)
Definition combo_group (revenue : transaction) (combo_size : nat)
    (combo : list potential) : option match_group :=
  let revenue_amount := abs_amount revenue in
  let total_expense := fsum ((λ pe, abs_amount (expense pe)) <$> combo) in
  if Py.Qltb (Qabs (Float.sub total_expense revenue_amount))
             (BALANCE_TOLERANCE cfg)
  then
    let avg_confidence := mean_score combo in
    Some {| match_type := "fuzzy_multiple_" +:+ pretty combo_size;
            confidence := avg_confidence;
            revenue := Some revenue;
            expenses := expense <$> combo;
            balance := Float.sub revenue_amount total_expense |}
  else None.

(** [for combo in itertools.combinations(...)] *)
Fixpoint find_combo (revenue : transaction) (combo_size : nat)
    (combos : list (list potential)) : option match_group :=
  match combos with
  | [] => None
  | combo :: rest =>
      match combo_group revenue combo_size combo with
      | Some g => Some g
      | None => find_combo revenue combo_size rest
      end
  end.

(** [for combo_size in range(...)] *)
Fixpoint find_sizes (revenue : transaction) (top : list potential)
    (sizes : list nat) : option match_group :=
  match sizes with
  | [] => None
  | combo_size :: rest =>
      match find_combo revenue combo_size
              (Py.combinations top combo_size) with
      | Some g => Some g
      | None => find_sizes revenue top rest
      end
  end.

Definition _find_best_expense_combination (revenue : transaction)
    (potential_expenses : list potential) : option match_group :=
  let potential_expenses :=
    Py.sort_reverse keyword_score potential_expenses in
  match find_single revenue potential_expenses with
  | Some g => Some g
  | None =>
      find_sizes revenue (take 10 potential_expenses)
        (Py.range 2 (min 6 (length potential_expenses + 1)))
  end.

(** *** Review ranker *)

(** [len(shared_keywords) / max(len(revenue_keywords),
    len(expense_keywords))] *)
Definition overlap_score (revenue_keywords expense_keywords : gset string)
  : Q :=
  let shared_keywords := revenue_keywords ∩ expense_keywords in
  Float.div_int (Z.of_nat (size shared_keywords))
    (Z.of_nat (max (size revenue_keywords) (size expense_keywords))).

(** [max(0, 1 - (amount_diff / revenue_amount)) if revenue_amount > 0
    else 0] *)
Definition amount_similarity (revenue_amount expense_amount : Q) : Q :=
  let amount_diff := Qabs (Float.sub expense_amount revenue_amount) in
  if Py.Qltb 0 revenue_amount
  then py_max 0 (Float.sub 1 (Float.div amount_diff revenue_amount))
  else 0.

(** [(fuzzy_score * 0.4) + (keyword_score * 0.4) + (amount_score * 0.2)] *)
Definition combine (fuzzy kw amt : Q) : Q :=
  Float.add
    (Float.add (Float.mul fuzzy (Float.lit (4 # 10)))
               (Float.mul kw (Float.lit (4 # 10))))
    (Float.mul amt (Float.lit (2 # 10))).

(** The loop body of [find_potential_matches]. *)
Definition review_score (revenue e : transaction) : review_candidate :=
  let revenue_desc := description revenue in
  let revenue_amount := abs_amount revenue in
  let revenue_keywords := extract_keywords cfg revenue_desc in
  let expense_desc := description e in
  let expense_keywords := extract_keywords cfg expense_desc in
  let fuzzy := calculate_similarity revenue_desc expense_desc in
  let kw :=
    if (0 <? size revenue_keywords)%nat && (0 <? size expense_keywords)%nat
    then overlap_score revenue_keywords expense_keywords
    else 0 in
  let amt := amount_similarity revenue_amount (abs_amount e) in
  {| rc_expense := e;
     fuzzy_score := fuzzy;
     rc_keyword_score := kw;
     amount_score := amt;
     combined_score := combine fuzzy kw amt;
     rc_shared_keywords := revenue_keywords ∩ expense_keywords |}.

Definition find_potential_matches_top (top_n : nat)
    (revenue : transaction) (expenses : list transaction)
  : list review_candidate :=
  let potential_matches := review_score revenue <$> expenses in
  take top_n (Py.sort_reverse combined_score potential_matches).

(** [find_potential_matches] with the default [top_n=5]. *)
Definition find_potential_matches := find_potential_matches_top 5.

End EntityMatcher.

(** *** The tests as the specification words them *)

Section InWords.

Variable fsum : list Q → Q.
Variable cfg : config.

(** "whose [abs_amount] differs from the revenue's by less than tolerance
    and whose lower-cased, trimmed description string is identical to the
    revenue's": the difference is the float the subtraction gives. *)
Definition exact_pair (revenue e : transaction) : Prop :=
  Qabs (Float.sub (abs_amount e) (abs_amount revenue)) < BALANCE_TOLERANCE cfg
  ∧ Py.strip (Py.lower (description e))
    = Py.strip (Py.lower (description revenue)).

#[global] Instance float_exact_pair_dec revenue e : Decision (exact_pair revenue e).
Proof. unfold exact_pair. apply _. Defined.

(** "for each revenue, in pool iteration order, scan unmatched expenses in
    order and take the first" that pairs with it: the list of pairs made,
    [consumed] being the ids of the expenses taken so far. *)
Fixpoint exact_pairs (revenues expenses : list transaction)
    (consumed : gset Z) : list (transaction * transaction) :=
  match revenues with
  | [] => []
  | revenue :: rest =>
      match list_find (λ e, (original_index e ∉ consumed)
                            ∧ exact_pair revenue e) expenses with
      | Some (_, e) =>
          (revenue, e)
          :: exact_pairs rest expenses (consumed ∪ {[original_index e]})
      | None => exact_pairs rest expenses consumed
      end
  end.

(** "whose absolute amount is within tolerance of the target" *)
Definition single_within (target : Q) (pe : potential) : Prop :=
  Qabs (Float.sub (abs_amount (expense pe)) target) < BALANCE_TOLERANCE cfg.

(** "whose total absolute value is within tolerance of target": the total
    is the float [sum] gives. *)
Definition total_within (target : Q) (combo : list potential) : Prop :=
  Qabs (Float.sub (fsum ((λ pe, abs_amount (expense pe)) <$> combo)) target)
  < BALANCE_TOLERANCE cfg.

#[global] Instance float_single_within_dec target pe :
  Decision (single_within target pe).
Proof. unfold single_within. apply _. Defined.

#[global] Instance float_total_within_dec target combo :
  Decision (total_within target combo).
Proof. unfold total_within. apply _. Defined.

(** "First check every single candidate for a tolerance match. If none
    matches, restrict to the top 10 ranked candidates and enumerate
    combinations of increasing size from 2 up to 5; return the first
    combination (in generation order) whose total absolute value is
    within tolerance of target. No match found: no solution."
    [ranked] is the candidate list in ranking order; the answer is the
    chosen candidates. *)
Definition ranked_search (target : Q) (ranked : list potential)
  : option (list potential) :=
  match list_find (single_within target) ranked with
  | Some (_, pe) => Some [pe]
  | None =>
      snd <$> list_find (total_within target)
                (concat (Py.combinations (take 10 ranked) <$> [2; 3; 4; 5]%nat))
  end.

(** "combinations that sum to target amount" *)
Definition within_tolerance (target : Q) (combo : list transaction) : Prop :=
  Qabs (Float.sub (combo_sum fsum combo) target) < BALANCE_TOLERANCE cfg.

#[global] Instance float_within_tolerance_dec target combo :
  Decision (within_tolerance target combo).
Proof. unfold within_tolerance. apply _. Defined.

(** "reasonably close (within 10%)" *)
Definition within_ten_percent (target : Q) (combo : list transaction)
  : Prop :=
  Qabs (Float.sub (combo_sum fsum combo) target)
  < Float.mul target (Float.lit (1 # 10)).

#[global] Instance float_within_ten_percent_dec target combo :
  Decision (within_ten_percent target combo).
Proof. unfold within_ten_percent. apply _. Defined.

End InWords.

End F64.

(** ** Amounts at the edge of a test *)

(** A group put together from rows, as the route does on confirmation. *)
Definition group_of_rows (rv : transaction) (es : list transaction)
  : match_group :=
  {| match_type := "manual";
     confidence := 1;
     revenue := Some rv;
     expenses := es;
     balance := Float.add (amount rv) (Float.sum (amount <$> es)) |}.

(** A revenue of 0.06 and an expense of 0.05: one cent apart on paper,
    a little less in floats. *)
Definition six_cents : transaction := F64.row 20 (6 # 100) "Courier".
Definition five_cents : transaction := F64.row 21 (- (5 # 100)) "Courier".

(** A revenue of 1.015 and an expense of 1.00. *)
Definition toll_revenue : transaction := F64.row 22 (1015 # 1000) "Toll".
Definition toll_expense : transaction := F64.row 23 (-1) "Toll".

(** A revenue of 50.00 and an expense of 50.01 under one description. *)
Definition fifty : transaction := F64.row 24 50 "Parking".
Definition fifty_and_a_cent : transaction :=
  F64.row 25 (- (5001 # 100)) "parking".

(** A candidate of the ranked search with its score. *)
Definition candidate (e : transaction) (s : Q) : potential :=
  {| expense := e;
     shared_keywords := None;
     similarity := Some (Float.lit s);
     keyword_score := Float.lit s |}.

(** A revenue of 100.00 and two expenses without keywords: one of token
    sort ratio 60 and a far amount, one of ratio 10 and the same amount.
    On paper both composites are 0.24. *)
Definition tie_revenue : transaction := F64.row 26 100 "rv".
Definition tie_far : transaction := F64.row 27 (-300) "c1".
Definition tie_near : transaction := F64.row 28 (-100) "c2".
Definition tie_ratio (text1 text2 : string) : Z :=
  if String.eqb text2 "c1" then 60%Z else 10%Z.

(** An expense of 2.70, for a target of 3.00. *)
Definition lunch : transaction := F64.row 29 (- (27 # 10)) "Lunch".

(** * Properties *)

(** ** Comparisons and rounding respect equality of rationals *)

(* Rational arithmetic stays folded under [simpl]. *)
#[local] Arguments Qabs : simpl never.
#[local] Arguments Qplus : simpl never.
#[local] Arguments Qminus : simpl never.
#[local] Arguments Qmult : simpl never.
#[local] Arguments Qdiv : simpl never.
#[local] Arguments Qopp : simpl never.

Lemma Qltb_lt a b : Py.Qltb a b = true ↔ a < b.
Proof.
  unfold Py.Qltb. rewrite negb_true_iff, <- not_true_iff_false, Qle_bool_iff.
  split; [apply Qnot_le_lt | apply Qlt_not_le].
Qed.

Lemma Qltb_ge a b : Py.Qltb a b = false ↔ b <= a.
Proof.
  unfold Py.Qltb. rewrite negb_false_iff. apply Qle_bool_iff.
Qed.

#[global] Instance Qltb_proper : Proper (Qeq ==> Qeq ==> eq) Py.Qltb.
Proof.
  intros a a' Ha b b' Hb. unfold Py.Qltb. f_equal. by apply Qleb_comp.
Qed.

#[global] Instance round_proper : Proper (Qeq ==> eq) Py.round.
Proof.
  intros x y Hxy. unfold Py.round.
  assert (Hf : Qfloor x = Qfloor y) by (by apply Qfloor_comp).
  rewrite <- Hf.
  assert (Hr : x - inject_Z (Qfloor x) == y - inject_Z (Qfloor x)).
  { by apply Qplus_comp. }
  by rewrite (Qltb_proper _ _ Hr _ _ (Qeq_refl (1 # 2))),
             (Qltb_proper _ _ (Qeq_refl (1 # 2)) _ _ Hr).
Qed.

#[global] Instance format_2f_proper : Proper (Qeq ==> eq) Py.format_2f.
Proof.
  intros x y Hxy. unfold Py.format_2f.
  assert (Hn : Py.round (Qabs x * 100) = Py.round (Qabs y * 100)).
  { apply round_proper. apply Qmult_comp; [by apply Qabs_wd | reflexivity]. }
  by rewrite Hn, (Qltb_proper _ _ Hxy _ _ (Qeq_refl 0)).
Qed.

(** ** Balance validation *)

Lemma is_balanced_true cfg m :
  is_balanced cfg m = true
  ↔ Qabs (calculate_match_balance m) < BALANCE_TOLERANCE cfg.
Proof. unfold is_balanced. apply Qltb_lt. Qed.

Lemma is_balanced_false cfg m :
  is_balanced cfg m = false
  ↔ ¬ Qabs (calculate_match_balance m) < BALANCE_TOLERANCE cfg.
Proof.
  rewrite <- is_balanced_true. destruct (is_balanced cfg m); naive_solver.
Qed.

(** ** Manual confirmation *)

Section ConfirmMatch.

Variable cfg : config.
Variable token_sort_ratio : string → string → Z.

#[local] Abbreviation confirm := (confirm_match cfg token_sort_ratio).

Lemma confirm_match_invalid_data st data :
  revenue_index data = None ∨ revenue_index data = Some 0%Z
  ∨ expense_indices data = [] →
  confirm st data = (st, failure 400 "Invalid match data").
Proof.
  unfold confirm_match.
  intros [-> | [-> | ->]]; [done | done |].
  by destruct (revenue_index data) as [[| p | p] |].
Qed.

Lemma confirm_match_no_revenue st rid eids :
  rid ≠ 0%Z → eids ≠ [] →
  filter (λ t, original_index t = rid) (s_unmatched_revenues st) = [] →
  confirm st {| revenue_index := Some rid; expense_indices := eids |}
  = (st, failure 500 "single positional indexer is out-of-bounds").
Proof.
  intros Hrid Heids Hnone. unfold confirm_match. simpl.
  destruct rid as [| p | p]; [done | |];
    (destruct eids as [| i eids]; [done |]); by rewrite Hnone.
Qed.

(** The route, once the request passed the input check and the revenue
    row was found. *)
Lemma confirm_match_found st rid eids revenue others :
  rid ≠ 0%Z → eids ≠ [] →
  filter (λ t, original_index t = rid) (s_unmatched_revenues st)
  = revenue :: others →
  let selected :=
    filter (λ t, original_index t ∈ eids) (s_unmatched_expenses st) in
  let g := manual_match revenue selected in
  let pool_e :=
    filter (λ t, original_index t ∉ eids) (s_unmatched_expenses st) in
  let pool_r :=
    filter (λ t, original_index t ≠ rid) (s_unmatched_revenues st) in
  let queue := generate_review_items cfg token_sort_ratio pool_r pool_e in
  confirm st {| revenue_index := Some rid; expense_indices := eids |}
  = if (validate_match cfg g).1
    then ({| s_matches := s_matches st ++ [g];
             s_review_items := queue;
             s_updated_df :=
               assign_match_groups (s_updated_df st) (s_matches st ++ [g]);
             s_unmatched_expenses := pool_e;
             s_unmatched_revenues := pool_r |},
          {| status_code := 200; success := true;
             message := "Match confirmed successfully";
             remaining_reviews := Some (length queue) |})
    else (st, failure 400 ("Invalid match: " +:+ (validate_match cfg g).2)).
Proof.
  intros Hrid Heids Hfound. unfold confirm_match. simpl.
  destruct rid as [| p | p]; [done | |];
    (destruct eids as [| i eids]; [done |]); rewrite Hfound;
    by destruct (validate_match cfg _) as [[|] msg].
Qed.

(** Whatever the request, an answer other than success leaves every
    session entry as it was. *)
Lemma confirm_match_failure_keeps_state st data :
  success (confirm st data).2 = false → (confirm st data).1 = st.
Proof.
  destruct (decide (revenue_index data = None ∨ revenue_index data = Some 0%Z
                    ∨ expense_indices data = [])) as [Hbad | Hok].
  { by rewrite confirm_match_invalid_data. }
  destruct data as [[rid |] eids]; simpl in Hok; [| naive_solver].
  assert (rid ≠ 0%Z) by naive_solver. assert (eids ≠ []) by naive_solver.
  destruct (filter (λ t, original_index t = rid) (s_unmatched_revenues st))
    as [| revenue others] eqn:Hf.
  { by rewrite confirm_match_no_revenue. }
  rewrite (confirm_match_found _ _ _ _ _ H H0 Hf).
  by destruct (validate_match cfg _).1.
Qed.

(** Scenario D: expenses totalling the revenue amount less 0.02 leave a
    residual of 0.02, which a tolerance of 0.01 rejects. *)
Lemma short_by_two_cents_unbalanced revenue selected :
  BALANCE_TOLERANCE cfg == 1 # 100 →
  selected ≠ [] →
  Py.sum (amount <$> selected) == - (amount revenue - (2 # 100)) →
  validate_match cfg (manual_match revenue selected)
  = (false, "Match not balanced. Balance: 0.02").
Proof.
  intros Htol Hne Hsum.
  assert (Hres : calculate_match_balance (manual_match revenue selected)
                 == 2 # 100).
  { unfold calculate_match_balance; simpl. rewrite Hsum. ring. }
  unfold validate_match; simpl.
  destruct selected as [| e es]; [done |].
  assert (Hb : is_balanced cfg (manual_match revenue (e :: es)) = false).
  { apply is_balanced_false. rewrite Hres, Htol. by vm_compute. }
  rewrite Hb; simpl.
  by rewrite (format_2f_proper _ _ Hres).
Qed.

(** C4. A manual confirmation is all or nothing. When the manual group
    built from the pools fails validation, the session (committed
    matches, review queue, stamped table, both unmatched pools) is
    unchanged and the validation reason is returned; this is so in
    particular when the chosen expenses total the revenue amount less
    0.02 under a tolerance of 0.01, and more generally for every answer
    other than success. When validation succeeds, the group of kind
    manual and confidence 1.0 is appended, the revenue and the chosen
    expenses leave the unmatched pools, and the review queue is
    recomputed from the new pools. *)
Theorem confirm_match_all_or_nothing st rid eids revenue others :
  rid ≠ 0%Z → eids ≠ [] →
  filter (λ t, original_index t = rid) (s_unmatched_revenues st)
  = revenue :: others →
  let data := {| revenue_index := Some rid; expense_indices := eids |} in
  let selected :=
    filter (λ t, original_index t ∈ eids) (s_unmatched_expenses st) in
  let g := manual_match revenue selected in
  (∀ reason, validate_match cfg g = (false, reason) →
     confirm st data = (st, failure 400 ("Invalid match: " +:+ reason)))
  ∧ (BALANCE_TOLERANCE cfg == 1 # 100 → selected ≠ [] →
     Py.sum (amount <$> selected) == - (amount revenue - (2 # 100)) →
     confirm st data
     = (st, failure 400 "Invalid match: Match not balanced. Balance: 0.02"))
  ∧ (∀ any, success (confirm st any).2 = false → (confirm st any).1 = st)
  ∧ (∀ msg, validate_match cfg g = (true, msg) →
     ∃ st',
       confirm st data
       = (st', {| status_code := 200; success := true;
                  message := "Match confirmed successfully";
                  remaining_reviews := Some (length (s_review_items st')) |})
       ∧ s_matches st' = s_matches st ++ [g]
       ∧ match_type g = "manual" ∧ confidence g = 1
       ∧ s_unmatched_expenses st'
         = filter (λ t, original_index t ∉ eids) (s_unmatched_expenses st)
       ∧ s_unmatched_revenues st'
         = filter (λ t, original_index t ≠ rid) (s_unmatched_revenues st)
       ∧ (revenue ∉ s_unmatched_revenues st')
       ∧ (∀ e, e ∈ selected → e ∉ s_unmatched_expenses st')
       ∧ s_review_items st'
         = generate_review_items cfg token_sort_ratio
             (s_unmatched_revenues st') (s_unmatched_expenses st')
       ∧ s_updated_df st'
         = assign_match_groups (s_updated_df st) (s_matches st')).
Proof.
  intros Hrid Heids Hfound data selected g.
  pose proof (confirm_match_found st rid eids revenue others
                Hrid Heids Hfound) as Hrun.
  cbv zeta in Hrun. subst data selected g.
  split; [| split; [| split]].
  - intros reason Hv. by rewrite Hrun, Hv.
  - intros Htol Hne Hsum.
    by rewrite Hrun, (short_by_two_cents_unbalanced _ _ Htol Hne Hsum).
  - apply confirm_match_failure_keeps_state.
  - intros msg Hv. rewrite Hrun, Hv; simpl.
    match goal with |- ∃ st', (?a, _) = _ ∧ _ => exists a end.
    split; [reflexivity |]; simpl.
    repeat split.
    + assert (Hin : revenue ∈ filter (λ t, original_index t = rid)
                               (s_unmatched_revenues st))
        by (rewrite Hfound; left).
      apply list_elem_of_filter in Hin as [Hid _].
      intros [Hne _]%list_elem_of_filter. done.
    + intros e [Hin _]%list_elem_of_filter [Hout _]%list_elem_of_filter.
      done.
Qed.

(** C10. A request whose revenue id is 0, or whose list of expense ids
    is empty, is answered as invalid input whatever the session holds, so
    before any pool is read or any group validated; hence every
    successful confirmation names a revenue whose original index is not
    0, and the row at original position 0 is never the revenue of a
    manual match. *)
Theorem confirm_match_rejects_index_zero st data :
  (revenue_index data = Some 0%Z ∨ expense_indices data = [] →
     confirm st data = (st, failure 400 "Invalid match data"))
  ∧ (success (confirm st data).2 = true →
     ∃ revenue,
       revenue ∈ s_unmatched_revenues st
       ∧ revenue_index data = Some (original_index revenue)
       ∧ original_index revenue ≠ 0%Z
       ∧ s_matches (confirm st data).1
         = s_matches st
           ++ [manual_match revenue
                 (filter (λ t, original_index t ∈ expense_indices data)
                         (s_unmatched_expenses st))]).
Proof.
  split.
  { intros [H | H]; apply confirm_match_invalid_data; auto. }
  destruct (decide (revenue_index data = None ∨ revenue_index data = Some 0%Z
                    ∨ expense_indices data = [])) as [Hbad | Hok].
  { by rewrite confirm_match_invalid_data. }
  destruct data as [[rid |] eids]; simpl in Hok; [| naive_solver].
  assert (Hrid : rid ≠ 0%Z) by naive_solver.
  assert (Heids : eids ≠ []) by naive_solver.
  destruct (filter (λ t, original_index t = rid) (s_unmatched_revenues st))
    as [| revenue others] eqn:Hf.
  { by rewrite confirm_match_no_revenue. }
  rewrite (confirm_match_found _ _ _ _ _ Hrid Heids Hf).
  destruct (validate_match cfg _).1; [| done]. simpl. intros _.
  assert (Hin : revenue ∈ filter (λ t, original_index t = rid)
                             (s_unmatched_revenues st))
    by (rewrite Hf; left).
  apply list_elem_of_filter in Hin as [Hid Hin].
  exists revenue. by rewrite Hid.
Qed.

End ConfirmMatch.

(** ** The Exact stage *)

Lemma drop_ids_empty pool : drop_ids ∅ pool = pool.
Proof.
  unfold drop_ids. induction pool as [| t pool IH]; [done |].
  rewrite filter_cons_True by set_solver. by rewrite IH.
Qed.

Section ExactStage.

Variable cfg : config.

#[local] Abbreviation scan := (exact_match_scan cfg).
#[local] Abbreviation run expenses :=
  (foldl (λ st revenue, exact_match_scan cfg revenue expenses st)).

Lemma exact_test_pair revenue e :
  Py.Qltb (Qabs (abs_amount e - abs_amount revenue)) (BALANCE_TOLERANCE cfg)
  && String.eqb (Py.strip (Py.lower (description e)))
                (Py.strip (Py.lower (description revenue))) = true
  ↔ exact_pair cfg revenue e.
Proof.
  unfold exact_pair.
  by rewrite andb_true_iff, Qltb_lt, String.eqb_eq.
Qed.

(** The inner loop finds the first expense that is not consumed and
    pairs with the revenue, and commits that pair. *)
Lemma exact_match_scan_find revenue expenses st :
  scan revenue expenses st
  = match list_find (λ e, (original_index e ∉ matched_expense_ids st)
                          ∧ exact_pair cfg revenue e) expenses with
    | Some (_, e) =>
        {| matches := matches st ++ [exact_group revenue e];
           matched_expense_ids :=
             matched_expense_ids st ∪ {[original_index e]};
           matched_revenue_ids :=
             matched_revenue_ids st ∪ {[original_index revenue]} |}
    | None => st
    end.
Proof.
  induction expenses as [| e rest IH]; [done |].
  cbn [exact_match_scan list_find].
  destruct (exact_test_pair revenue e) as [Hto Hfrom].
  case_bool_decide as Hin.
  - rewrite decide_False by tauto. rewrite IH.
    by destruct (list_find _ rest) as [[i e'] |].
  - destruct (decide (exact_pair cfg revenue e)) as [Hp | Hp].
    + rewrite decide_True by tauto. by rewrite (Hfrom Hp).
    + rewrite decide_False by tauto.
      destruct (Py.Qltb _ _ && _) eqn:Ht; [by destruct Hp; auto |].
      rewrite IH. by destruct (list_find _ rest) as [[i e'] |].
Qed.

Lemma exact_match_scan_miss revenue expenses st :
  (∀ e, e ∈ expenses → original_index e ∉ matched_expense_ids st →
        ¬ exact_pair cfg revenue e) →
  scan revenue expenses st = st.
Proof.
  intros Hno. rewrite exact_match_scan_find.
  destruct (list_find _ expenses) as [[i e] |] eqn:Hf; [| done].
  apply list_find_Some in Hf as (Hi & [Hfree Hp] & _).
  destruct (Hno e); eauto using list_elem_of_lookup_2.
Qed.

(** One revenue either ends up consumed, or nothing changed and no free
    expense pairs with it. *)
Lemma exact_match_scan_outcome revenue expenses st :
  original_index revenue ∈ matched_revenue_ids (scan revenue expenses st)
  ∨ (scan revenue expenses st = st
     ∧ ∀ e, e ∈ expenses → original_index e ∉ matched_expense_ids st →
            ¬ exact_pair cfg revenue e).
Proof.
  rewrite exact_match_scan_find.
  destruct (list_find _ expenses) as [[i e] |] eqn:Hf.
  - left. simpl. set_solver.
  - right. split; [done |]. intros e [i Hi]%list_elem_of_lookup Hfree Hp.
    eapply list_find_None in Hf. rewrite Forall_lookup in Hf.
    by apply (Hf i e Hi).
Qed.

Lemma exact_match_scan_grows revenue expenses st :
  matched_expense_ids st ⊆ matched_expense_ids (scan revenue expenses st)
  ∧ matched_revenue_ids st ⊆ matched_revenue_ids (scan revenue expenses st).
Proof.
  rewrite exact_match_scan_find.
  destruct (list_find _ expenses) as [[i e] |]; simpl; set_solver.
Qed.

Lemma exact_run_grows expenses revenues st :
  matched_expense_ids st ⊆ matched_expense_ids (run expenses st revenues)
  ∧ matched_revenue_ids st ⊆ matched_revenue_ids (run expenses st revenues).
Proof.
  revert st. induction revenues as [| r rs IH]; intros st; [done |].
  simpl.
  destruct (IH (scan r expenses st)) as [He Hr].
  destruct (exact_match_scan_grows r expenses st) as [He' Hr'].
  split; etransitivity; eassumption.
Qed.

(** After the stage, a revenue that is still free pairs with no expense
    that is still free. *)
Lemma exact_run_leaves_no_pair expenses revenues st revenue e :
  revenue ∈ revenues → e ∈ expenses →
  original_index revenue ∉ matched_revenue_ids (run expenses st revenues) →
  original_index e ∉ matched_expense_ids (run expenses st revenues) →
  ¬ exact_pair cfg revenue e.
Proof.
  revert st. induction revenues as [| r rs IH]; intros st Hr He Hrfree Hefree.
  { by apply elem_of_nil in Hr. }
  simpl in Hrfree, Hefree.
  apply elem_of_cons in Hr as [-> | Hr]; [| eapply IH; eassumption].
  destruct (exact_run_grows expenses rs (scan r expenses st)) as [Hge Hgr].
  destruct (exact_match_scan_outcome r expenses st) as [Hin | [Heq Hno]].
  - destruct Hrfree. by apply Hgr.
  - apply Hno; [done |]. intros Hx. apply Hefree, Hge. by rewrite Heq.
Qed.

Lemma exact_run_nothing_to_pair expenses revenues st :
  (∀ revenue e, revenue ∈ revenues → e ∈ expenses →
                ¬ exact_pair cfg revenue e) →
  run expenses st revenues = st.
Proof.
  intros Hno. induction revenues as [| r rs IH]; [done |].
  simpl. rewrite exact_match_scan_miss.
  - apply IH. intros ????. apply Hno; [by right | done].
  - intros e He _. apply Hno; [by left | done].
Qed.

(** C8. Running the Exact stage on the pools it left behind makes no new
    group and returns those pools as they are. *)
Theorem exact_match_idempotent pool_e pool_r :
  let left_e := (exact_match cfg pool_e pool_r).1.2 in
  let left_r := (exact_match cfg pool_e pool_r).2 in
  exact_match cfg left_e left_r = ([], left_e, left_r).
Proof.
  intros left_e left_r. unfold exact_match at 1.
  rewrite exact_run_nothing_to_pair.
  { simpl. by rewrite !drop_ids_empty. }
  subst left_e left_r. unfold exact_match. simpl.
  intros r e [Hr Hrin]%list_elem_of_filter [He Hein]%list_elem_of_filter.
  by eapply exact_run_leaves_no_pair.
Qed.

End ExactStage.

(** ** Python's stable descending sort *)

Section SortReverse.

Context {A : Type} (key : A → Q).

#[local] Abbreviation ranks_before := (λ a b : A, key b <= key a).
#[local] Abbreviation sort := (Py.sort_reverse key).
#[local] Abbreviation ins := (Py.insert_desc key).

Lemma insert_desc_Permutation x l : ins x l ≡ₚ x :: l.
Proof.
  induction l as [| y l IH]; [done |]. simpl.
  destruct (Qle_bool (key y) (key x)); [done |].
  rewrite IH. apply perm_swap.
Qed.

Lemma sort_reverse_Permutation l : sort l ≡ₚ l.
Proof.
  induction l as [| x l IH]; [done |]. simpl.
  by rewrite insert_desc_Permutation, IH.
Qed.

Lemma sort_reverse_length l : length (sort l) = length l.
Proof. apply Permutation_length, sort_reverse_Permutation. Qed.

Lemma insert_desc_sorted x l :
  StronglySorted ranks_before l → StronglySorted ranks_before (ins x l).
Proof.
  induction 1 as [| y l Hl IH Hy]; simpl.
  { repeat constructor. }
  destruct (Qle_bool (key y) (key x)) eqn:Hle.
  - apply Qle_bool_iff in Hle.
    constructor; [by constructor |].
    constructor; [done |].
    eapply Forall_impl; [exact Hy |]. intros z Hz. simpl in *.
    by apply Qle_trans with (key y).
  - constructor; [done |].
    rewrite insert_desc_Permutation. constructor; [| done].
    apply not_true_iff_false in Hle. rewrite Qle_bool_iff in Hle.
    apply Qlt_le_weak. by apply Qnot_le_lt.
Qed.

Lemma sort_reverse_sorted l : StronglySorted ranks_before (sort l).
Proof.
  induction l as [| x l IH]; simpl; [constructor |].
  by apply insert_desc_sorted.
Qed.

(** Stability: the elements of one key keep their input order. An
    insertion only overtakes elements of strictly larger key. *)
Lemma insert_desc_stable q x l :
  filter (λ a, key a == q) (ins x l) = filter (λ a, key a == q) (x :: l).
Proof.
  induction l as [| y l IH]; [done |]. simpl.
  destruct (Qle_bool (key y) (key x)) eqn:Hle; [done |].
  apply not_true_iff_false in Hle. rewrite Qle_bool_iff in Hle.
  apply Qnot_le_lt in Hle.
  rewrite (filter_cons _ y (ins x l)), IH, !filter_cons.
  destruct (decide (key y == q)) as [Hy | Hy],
           (decide (key x == q)) as [Hx | Hx]; try done.
  rewrite Hy, Hx in Hle. by apply Qlt_irrefl in Hle.
Qed.

Lemma sort_reverse_stable q l :
  filter (λ a, key a == q) (sort l) = filter (λ a, key a == q) l.
Proof.
  induction l as [| x l IH]; [done |]. simpl.
  by rewrite insert_desc_stable, !filter_cons, IH.
Qed.

End SortReverse.

(** ** [itertools.combinations] *)

Lemma combinations_sublist {A} (l c : list A) k :
  c ∈ Py.combinations l k → c `sublist_of` l ∧ length c = k.
Proof.
  revert c k. induction l as [| x l IH]; intros c [| k] Hc; simpl in Hc.
  - apply list_elem_of_singleton in Hc as ->. done.
  - by apply elem_of_nil in Hc.
  - apply list_elem_of_singleton in Hc as ->. split; [apply sublist_nil_l | done].
  - apply elem_of_app in Hc as [Hc | Hc].
    + apply list_elem_of_fmap in Hc as (c' & -> & Hc').
      destruct (IH _ _ Hc') as [Hs Hlen].
      split; [by apply sublist_skip | by simpl; f_equal].
    + destruct (IH _ _ Hc) as [Hs Hlen].
      split; [by apply sublist_cons | done].
Qed.

Lemma combinations_short {A} (l : list A) k :
  (length l < k)%nat → Py.combinations l k = [].
Proof.
  revert k. induction l as [| x l IH]; intros [| k] Hlt; simpl in *;
    [lia | done | lia |].
  rewrite !IH by lia. done.
Qed.

(** ** The ranked bounded search *)

Lemma list_find_app_snd {A} (P : A → Prop) `{!∀ x, Decision (P x)} l1 l2 :
  snd <$> list_find P (l1 ++ l2)
  = match snd <$> list_find P l1 with
    | Some x => Some x
    | None => snd <$> list_find P l2
    end.
Proof.
  induction l1 as [| x l1 IH]; simpl.
  { by destruct (list_find P l2). }
  destruct (decide (P x)); [done |].
  rewrite <- !option_fmap_compose.
  replace (snd ∘ prod_map S id) with (@snd nat A) by done.
  exact IH.
Qed.

Lemma sum_foldr (xs : list Q) : Py.sum xs == foldr Qplus 0 xs.
Proof.
  unfold Py.sum.
  assert (H : ∀ a, foldl Qplus a xs == a + foldr Qplus 0 xs).
  { induction xs as [| x xs IH]; intros a; simpl; [ring |].
    rewrite IH. ring. }
  rewrite H. ring.
Qed.

Section RankedSearch.

Variable cfg : config.

#[local] Abbreviation tol := (BALANCE_TOLERANCE cfg).

Lemma find_single_spec revenue pes :
  find_single cfg revenue pes
  = match snd <$> list_find (single_within cfg (abs_amount revenue)) pes with
    | Some pe =>
        Some {| match_type := "fuzzy_single";
                confidence := keyword_score pe;
                revenue := Some revenue;
                expenses := [expense pe];
                balance := abs_amount revenue - abs_amount (expense pe) |}
    | None => None
    end.
Proof.
  induction pes as [| pe pes IH]; [done |]. simpl.
  destruct (Py.Qltb _ tol) eqn:Ht.
  - apply Qltb_lt in Ht. by rewrite decide_True.
  - rewrite decide_False.
    2: { unfold single_within. rewrite <- Qltb_lt. congruence. }
    rewrite IH, <- option_fmap_compose.
    by destruct (list_find _ pes) as [[i pe'] |].
Qed.

Lemma find_combo_spec revenue k combos :
  find_combo cfg revenue k combos
  = match snd <$> list_find (total_within cfg (abs_amount revenue)) combos with
    | Some combo =>
        Some {| match_type := "fuzzy_multiple_" +:+ pretty k;
                confidence :=
                  Py.sum (keyword_score <$> combo)
                  / inject_Z (Z.of_nat (length combo));
                revenue := Some revenue;
                expenses := expense <$> combo;
                balance :=
                  abs_amount revenue
                  - Py.sum ((λ pe, abs_amount (expense pe)) <$> combo) |}
    | None => None
    end.
Proof.
  induction combos as [| combo combos IH]; [done |]. simpl.
  unfold combo_group at 1.
  destruct (Py.Qltb _ tol) eqn:Ht.
  - apply Qltb_lt in Ht. by rewrite decide_True.
  - rewrite decide_False.
    2: { unfold total_within. rewrite <- Qltb_lt. congruence. }
    rewrite IH, <- option_fmap_compose.
    by destruct (list_find _ combos) as [[i c'] |].
Qed.

Lemma find_sizes_spec revenue top sizes :
  find_sizes cfg revenue top sizes
  = match snd <$> list_find (total_within cfg (abs_amount revenue))
                    (concat (Py.combinations top <$> sizes)) with
    | Some combo =>
        Some {| match_type := "fuzzy_multiple_" +:+ pretty (length combo);
                confidence :=
                  Py.sum (keyword_score <$> combo)
                  / inject_Z (Z.of_nat (length combo));
                revenue := Some revenue;
                expenses := expense <$> combo;
                balance :=
                  abs_amount revenue
                  - Py.sum ((λ pe, abs_amount (expense pe)) <$> combo) |}
    | None => None
    end.
Proof.
  induction sizes as [| k sizes IH]; [done |].
  cbn [find_sizes fmap list_fmap concat].
  rewrite list_find_app_snd, find_combo_spec, IH.
  destruct (list_find _ (Py.combinations top k)) as [[i combo] |] eqn:Hf;
    [| done].
  simpl. apply list_find_Some in Hf as (Hi & _ & _).
  apply list_elem_of_lookup_2, combinations_sublist in Hi as [_ ->]. done.
Qed.

(** Sizes beyond the number of ranked candidates yield no combination. *)
Lemma find_sizes_beyond revenue top sizes extra :
  Forall (λ k, (length top < k)%nat) extra →
  find_sizes cfg revenue top (sizes ++ extra)
  = find_sizes cfg revenue top sizes.
Proof.
  intros Hextra. induction sizes as [| k sizes IH]; simpl.
  - induction Hextra as [| k extra Hk _ IH]; [done |]. simpl.
    by rewrite combinations_short.
  - by rewrite IH.
Qed.

Lemma find_sizes_range revenue (ranked : list potential) :
  find_sizes cfg revenue (take 10 ranked)
    (Py.range 2 (min 6 (length ranked + 1)))
  = find_sizes cfg revenue (take 10 ranked) [2; 3; 4; 5]%nat.
Proof.
  assert (Hlen : (length (take 10 ranked) <= length ranked)%nat)
    by (rewrite length_take; lia).
  destruct ranked as [| a [| b [| c [| d [| e rest]]]]];
    simpl length in *; unfold Py.range.
  - symmetry. apply (find_sizes_beyond _ _ [] [2; 3; 4; 5]%nat).
    repeat constructor; simpl; lia.
  - symmetry. apply (find_sizes_beyond _ _ [] [2; 3; 4; 5]%nat).
    repeat constructor; simpl; lia.
  - symmetry. apply (find_sizes_beyond _ _ [2]%nat [3; 4; 5]%nat).
    repeat constructor; simpl; lia.
  - symmetry. apply (find_sizes_beyond _ _ [2; 3]%nat [4; 5]%nat).
    repeat constructor; simpl; lia.
  - symmetry. apply (find_sizes_beyond _ _ [2; 3; 4]%nat [5]%nat).
    repeat constructor; simpl; lia.
  - replace (min 6 (S (S (S (S (S (length rest))))) + 1)) with 6%nat by lia.
    done.
Qed.

Lemma find_best_unfold revenue candidates :
  _find_best_expense_combination cfg revenue candidates
  = match ranked_search cfg (abs_amount revenue)
            (Py.sort_reverse keyword_score candidates) with
    | Some [pe] =>
        Some {| match_type := "fuzzy_single";
                confidence := keyword_score pe;
                revenue := Some revenue;
                expenses := [expense pe];
                balance := abs_amount revenue - abs_amount (expense pe) |}
    | Some combo =>
        Some {| match_type := "fuzzy_multiple_" +:+ pretty (length combo);
                confidence :=
                  Py.sum (keyword_score <$> combo)
                  / inject_Z (Z.of_nat (length combo));
                revenue := Some revenue;
                expenses := expense <$> combo;
                balance :=
                  abs_amount revenue
                  - Py.sum ((λ pe, abs_amount (expense pe)) <$> combo) |}
    | None => None
    end
  ∧ ∀ chosen,
      ranked_search cfg (abs_amount revenue)
        (Py.sort_reverse keyword_score candidates) = Some chosen →
      chosen `sublist_of` Py.sort_reverse keyword_score candidates
      ∧ (1 <= length chosen <= 5)%nat.
Proof.
  unfold _find_best_expense_combination, ranked_search.
  rewrite find_single_spec, find_sizes_range, find_sizes_spec.
  set (ranked := Py.sort_reverse keyword_score candidates).
  destruct (list_find (single_within cfg _) ranked) as [[i pe] |] eqn:Hs.
  { simpl. split; [done |]. intros chosen [= <-].
    apply list_find_Some in Hs as (Hi & _ & _).
    split; [| simpl; lia].
    apply list_elem_of_lookup_2 in Hi. by apply singleton_sublist_l. }
  simpl.
  destruct (list_find (total_within cfg _) _) as [[i combo] |] eqn:Hc;
    simpl; [| by split].
  apply list_find_Some in Hc as (Hi & _ & _).
  apply list_elem_of_lookup_2 in Hi.
  cbn [concat fmap list_fmap] in Hi. rewrite !elem_of_app in Hi.
  assert (Hk : combo `sublist_of` take 10 ranked
               ∧ (2 <= length combo <= 5)%nat).
  { destruct Hi as [Hi | [Hi | [Hi | [Hi | Hi]]]];
      [| | | | by apply elem_of_nil in Hi];
      apply combinations_sublist in Hi as [Hsub Hlen];
      (split; [done | lia]). }
  destruct Hk as [Hsub Hlen].
  split.
  - destruct combo as [| a [| b combo]]; simpl in Hlen; [lia | lia | done].
  - intros chosen [= <-]. split; [| lia].
    etransitivity; [exact Hsub | apply sublist_take].
Qed.

(** What a solve returns: the chosen candidates, ranked and at most
    five, their mean score as confidence, and a kind that names their
    number. *)
Lemma find_best_Some rv candidates g :
  _find_best_expense_combination cfg rv candidates = Some g →
  ∃ chosen,
    ranked_search cfg (abs_amount rv)
      (Py.sort_reverse keyword_score candidates) = Some chosen
    ∧ chosen `sublist_of` Py.sort_reverse keyword_score candidates
    ∧ revenue g = Some rv
    ∧ expenses g = expense <$> chosen
    ∧ confidence g == mean (keyword_score <$> chosen)
    ∧ (match_type g = "fuzzy_single" ∧ length chosen = 1%nat
       ∨ match_type g = "fuzzy_multiple_" +:+ pretty (length chosen)
         ∧ (2 <= length chosen <= 5)%nat).
Proof.
  destruct (find_best_unfold rv candidates) as [-> Hchosen].
  destruct (ranked_search cfg _ _) as [chosen |]; [| done].
  destruct (Hchosen chosen eq_refl) as [Hsub Hlen].
  intros Hg. exists chosen. split; [done |]. split; [done |].
  destruct chosen as [| a [| b chosen]]; simpl in Hlen; [lia | |];
    injection Hg as <-; cbn [confidence expenses revenue match_type].
  - repeat split; [| by left]. unfold mean. simpl.
    change (inject_Z 1) with 1. field.
  - repeat split; [| right; split; [done | simpl; lia]].
    unfold mean. rewrite sum_foldr. by rewrite length_fmap.
Qed.

End RankedSearch.

(** ** Candidates of the Keyword and Fuzzy stages *)

Section Candidates.

Variable cfg : config.
Variable token_sort_ratio : string → string → Z.

Lemma keyword_candidates_sublist rk k pool m :
  expense <$> keyword_candidates cfg rk k pool m `sublist_of` drop_ids m pool.
Proof.
  unfold drop_ids. induction pool as [| e pool IH]; [done |]. simpl.
  case_bool_decide as Hin.
  - by rewrite filter_cons_False by tauto.
  - rewrite filter_cons_True by done.
    destruct (k <=? _)%nat; simpl; [by apply sublist_skip |].
    by apply sublist_cons.
Qed.

Lemma keyword_candidates_score rk k pool m pe :
  pe ∈ keyword_candidates cfg rk k pool m →
  keyword_score pe
  = overlap_score rk (extract_keywords cfg (description (expense pe)))
  ∧ (k <= size (rk ∩ extract_keywords cfg (description (expense pe))))%nat.
Proof.
  induction pool as [| e pool IH]; simpl.
  { by intros ?%elem_of_nil. }
  case_bool_decide as Hin; [done |].
  destruct (k <=? _)%nat eqn:Hk; [| done].
  intros [-> | Hpe]%elem_of_cons; [| by apply IH].
  simpl. split; [done |]. by apply Nat.leb_le.
Qed.

Lemma fuzzy_candidates_sublist desc pool m :
  expense <$> fuzzy_candidates cfg token_sort_ratio desc pool m
  `sublist_of` drop_ids m pool.
Proof.
  unfold drop_ids. induction pool as [| e pool IH]; [done |]. simpl.
  case_bool_decide as Hin.
  - by rewrite filter_cons_False by tauto.
  - rewrite filter_cons_True by done.
    destruct (Qle_bool _ _); simpl; [by apply sublist_skip |].
    by apply sublist_cons.
Qed.

Lemma fuzzy_candidates_score desc pool m pe :
  pe ∈ fuzzy_candidates cfg token_sort_ratio desc pool m →
  keyword_score pe
  = calculate_similarity token_sort_ratio desc (description (expense pe))
  ∧ FUZZY_MATCH_THRESHOLD cfg <= keyword_score pe.
Proof.
  induction pool as [| e pool IH]; simpl.
  { by intros ?%elem_of_nil. }
  case_bool_decide as Hin; [done |].
  destruct (Qle_bool _ _) eqn:Hk; [| done].
  intros [-> | Hpe]%elem_of_cons; [| by apply IH].
  simpl. split; [done |]. by apply Qle_bool_iff.
Qed.

Lemma solve_and_commit_cases st rv cands :
  solve_and_commit cfg st rv cands = st
  ∨ ∃ g, _find_best_expense_combination cfg rv cands = Some g
         ∧ solve_and_commit cfg st rv cands = commit st rv g.
Proof.
  unfold solve_and_commit. destruct cands as [| pe cands]; [by left |].
  destruct (_find_best_expense_combination cfg rv _) as [g |]; eauto.
Qed.

(** The members of a solve are candidates, and keep the scores the
    candidates carry. *)
Lemma find_best_members rv cands g (score : transaction → Q) :
  (∀ pe, pe ∈ cands → keyword_score pe = score (expense pe)) →
  _find_best_expense_combination cfg rv cands = Some g →
  revenue g = Some rv
  ∧ expenses g ⊆+ expense <$> cands
  ∧ confidence g == mean (score <$> expenses g)
  ∧ (match_type g = "fuzzy_single" ∧ length (expenses g) = 1%nat
     ∨ match_type g = "fuzzy_multiple_" +:+ pretty (length (expenses g))
       ∧ (2 <= length (expenses g) <= 5)%nat).
Proof.
  intros Hscore (chosen & _ & Hsub & Hrv & He & Hconf & Hkind)%find_best_Some.
  assert (Hmset : chosen ⊆+ cands).
  { rewrite <- (sort_reverse_Permutation keyword_score cands).
    by apply sublist_submseteq. }
  split; [done |]. rewrite He, length_fmap.
  split; [by apply fmap_submseteq |]. split; [| done].
  rewrite Hconf, <- list_fmap_compose.
  replace (keyword_score <$> chosen) with (score ∘ expense <$> chosen);
    [done |].
  apply list_fmap_ext. intros i pe Hpe. simpl. symmetry.
  apply Hscore. eapply elem_of_submseteq; [| exact Hmset].
  by eapply list_elem_of_lookup_2.
Qed.

End Candidates.

(** ** The pools through a stage *)

Lemma filter_keep_all {A} (P : A → Prop) `{!∀ x, Decision (P x)} (l : list A) :
  Forall P l → filter P l = l.
Proof.
  induction 1 as [| x l Hx _ IH]; [done |].
  by rewrite filter_cons_True, IH.
Qed.

Lemma filter_drop_all {A} (P : A → Prop) `{!∀ x, Decision (P x)} (l : list A) :
  Forall (λ x, ¬ P x) l → filter P l = [].
Proof.
  induction 1 as [| x l Hx _ IH]; [done |].
  by rewrite filter_cons_False.
Qed.

Lemma filter_ext_in {A} (P Q : A → Prop) `{!∀ x, Decision (P x)}
    `{!∀ x, Decision (Q x)} (l : list A) :
  (∀ x, x ∈ l → P x ↔ Q x) → filter P l = filter Q l.
Proof.
  induction l as [| x l IH]; intros Hext; [done |].
  rewrite !filter_cons, IH by (intros; apply Hext; by right).
  destruct (decide (P x)) as [HP | HP], (decide (Q x)) as [HQ | HQ];
    try done; destruct (Hext x); try tauto; by left.
Qed.

Lemma drop_ids_sublist ids pool : drop_ids ids pool `sublist_of` pool.
Proof. apply sublist_filter. Qed.

Lemma NoDup_ids_sublist (s l : list transaction) :
  s `sublist_of` l → NoDup (original_index <$> l) →
  NoDup (original_index <$> s).
Proof.
  intros Hs Hl. eapply sublist_NoDup; [exact Hl |]. by apply fmap_sublist.
Qed.

(** Taking a selection [s] out of a pool with distinct ids, by id, leaves
    exactly the rest of the pool. *)
Lemma split_off (s l : list transaction) :
  NoDup (original_index <$> l) → s ⊆+ l →
  s ++ filter (λ t, original_index t ∉ original_index <$> s) l ≡ₚ l.
Proof.
  intros Hnd Hs. destruct (submseteq_Permutation _ _ Hs) as [k Hk].
  rewrite Hk in Hnd. rewrite fmap_app in Hnd.
  apply NoDup_app in Hnd as (_ & Hdisj & _).
  rewrite Hk, filter_app.
  rewrite (filter_drop_all _ s), (filter_keep_all _ k); [done | |].
  - apply Forall_forall. intros t Ht Hin.
    apply (Hdisj (original_index t)); [done |].
    by apply list_elem_of_fmap_2.
  - apply Forall_forall. intros t Ht Hout. apply Hout.
    by apply list_elem_of_fmap_2.
Qed.

Lemma commit_expense_ids st rv g i :
  i ∈ matched_expense_ids (commit st rv g)
  ↔ i ∈ matched_expense_ids st ∨ i ∈ original_index <$> expenses g.
Proof.
  unfold commit. simpl. generalize (matched_expense_ids st) as m.
  induction (expenses g) as [| e es IH]; intros m; simpl.
  - rewrite elem_of_nil. tauto.
  - rewrite IH, elem_of_union, elem_of_singleton, elem_of_cons. tauto.
Qed.

Lemma drop_ids_commit st rv g pool :
  drop_ids (matched_expense_ids (commit st rv g)) pool
  = filter (λ t, original_index t ∉ original_index <$> expenses g)
           (drop_ids (matched_expense_ids st) pool).
Proof.
  unfold drop_ids. induction pool as [| t pool IH]; [done |].
  rewrite !filter_cons.
  destruct (decide (original_index t ∉ matched_expense_ids (commit st rv g)))
    as [Hout | Hin]; rewrite commit_expense_ids in *.
  - rewrite decide_True by tauto. rewrite filter_cons_True by tauto.
    by rewrite IH.
  - destruct (decide (original_index t ∉ matched_expense_ids st)); [| done].
    rewrite filter_cons_False; [done |]. intros Hout. apply Hin.
    intros [? | ?]; tauto.
Qed.

Lemma referenced_split groups :
  referenced groups ≡ₚ omap revenue groups ++ (groups ≫= expenses).
Proof.
  unfold referenced. induction groups as [| g gs IH]; [done |].
  rewrite !bind_cons, IH. unfold group_rows. simpl.
  destruct (revenue g) as [r |]; simpl.
  - f_equiv. rewrite !app_assoc. f_equiv. apply Permutation_app_comm.
  - rewrite !app_assoc. f_equiv. apply Permutation_app_comm.
Qed.

Section Stage.

Variable pool_e : list transaction.
Variable step : stage_state → transaction → stage_state.

(** A stage handles one revenue by leaving the state alone or by
    committing a group for that revenue whose expenses are selected
    among the expenses not consumed yet. *)
Hypothesis step_cases : ∀ st rv,
  step st rv = st
  ∨ ∃ g, step st rv = commit st rv g
         ∧ revenue g = Some rv
         ∧ expenses g ⊆+ drop_ids (matched_expense_ids st) pool_e.

Hypothesis pool_e_ids : NoDup (original_index <$> pool_e).

Lemma stage_expenses pool_r st :
  (matches st ≫= expenses) ++ drop_ids (matched_expense_ids st) pool_e
  ≡ₚ pool_e →
  (matches (foldl step st pool_r) ≫= expenses)
  ++ drop_ids (matched_expense_ids (foldl step st pool_r)) pool_e
  ≡ₚ pool_e.
Proof.
  revert st. induction pool_r as [| rv pool_r IH]; intros st Hst; [done |].
  simpl. apply IH.
  destruct (step_cases st rv) as [-> | (g & -> & _ & Hsel)]; [done |].
  rewrite drop_ids_commit. simpl. rewrite bind_app, <- app_assoc.
  rewrite bind_cons. change ([] ≫= expenses) with (@nil transaction).
  rewrite app_nil_r.
  rewrite split_off; [done | | done].
  eapply NoDup_ids_sublist; [apply drop_ids_sublist | done].
Qed.

Lemma stage_revenues todo done st :
  NoDup (original_index <$> (done ++ todo)) →
  (∀ i, i ∈ matched_revenue_ids st → i ∈ original_index <$> done) →
  omap revenue (matches st)
  = filter (λ r, original_index r ∈ matched_revenue_ids st) done →
  omap revenue (matches (foldl step st todo))
  = filter (λ r, original_index r
                 ∈ matched_revenue_ids (foldl step st todo))
           (done ++ todo).
Proof.
  revert done st.
  induction todo as [| rv todo IH]; intros done st Hnd Hsub Hst.
  { simpl. by rewrite app_nil_r. }
  simpl. replace (done ++ rv :: todo) with ((done ++ [rv]) ++ todo)
    by (by rewrite <- app_assoc).
  replace (done ++ rv :: todo) with ((done ++ [rv]) ++ todo) in Hnd
    by (by rewrite <- app_assoc).
  assert (Hfresh : original_index rv ∉ original_index <$> done).
  { rewrite !fmap_app in Hnd.
    apply NoDup_app in Hnd as (Hnd & _ & _).
    apply NoDup_app in Hnd as (_ & Hdisj & _).
    intros Hin. apply (Hdisj _ Hin). simpl. left. }
  apply IH; [done | |].
  - intros i Hi. rewrite fmap_app, elem_of_app.
    destruct (step_cases st rv) as [Heq | (g & Heq & _ & _)];
      rewrite Heq in Hi; [by left; apply Hsub |].
    simpl in Hi. apply elem_of_union in Hi as [Hi | Hi];
      [by left; apply Hsub |].
    apply elem_of_singleton in Hi as ->. right. simpl. left.
  - rewrite filter_app.
    destruct (step_cases st rv) as [Heq | (g & Heq & Hrev & _)];
      rewrite Heq.
    + rewrite <- Hst, filter_cons_False, filter_nil, app_nil_r; [done |].
      intros Hin. by apply Hfresh, Hsub.
    + simpl. rewrite omap_app. simpl. rewrite Hrev. simpl.
      rewrite filter_cons_True by set_solver. rewrite filter_nil.
      f_equal. rewrite Hst. apply filter_ext_in. intros r Hr.
      rewrite elem_of_union, elem_of_singleton. split; [tauto |].
      intros [? | Heq']; [done |]. destruct Hfresh. rewrite <- Heq'.
      by apply list_elem_of_fmap_2.
Qed.

(** The groups made, the expenses left and the revenues left are the
    input pools, rearranged. *)
Lemma stage_partition pool_r :
  NoDup (original_index <$> pool_r) →
  referenced (matches (foldl step stage_init pool_r))
  ++ drop_ids (matched_expense_ids (foldl step stage_init pool_r)) pool_e
  ++ drop_ids (matched_revenue_ids (foldl step stage_init pool_r)) pool_r
  ≡ₚ pool_e ++ pool_r.
Proof.
  intros Hnd. set (st := foldl step stage_init pool_r).
  rewrite referenced_split.
  assert (He : (matches st ≫= expenses)
               ++ drop_ids (matched_expense_ids st) pool_e ≡ₚ pool_e).
  { apply stage_expenses. simpl. by rewrite drop_ids_empty. }
  assert (Hr : omap revenue (matches st)
               = filter (λ r, original_index r ∈ matched_revenue_ids st)
                        pool_r).
  { apply (stage_revenues pool_r [] stage_init); [done | | done].
    simpl. set_solver. }
  assert (Hc : filter (λ r, original_index r ∈ matched_revenue_ids st) pool_r
               ++ drop_ids (matched_revenue_ids st) pool_r ≡ₚ pool_r).
  { apply filter_app_complement. }
  rewrite Hr.
  etransitivity; [| apply Permutation_app; [exact He | exact Hc]].
  generalize (filter (λ r, original_index r ∈ matched_revenue_ids st) pool_r)
             (matches st ≫= expenses)
             (drop_ids (matched_expense_ids st) pool_e)
             (drop_ids (matched_revenue_ids st) pool_r).
  intros F M De Dr.
  rewrite (Permutation_app_comm F M), <- !app_assoc. f_equiv.
  rewrite !app_assoc. f_equiv. apply Permutation_app_comm.
Qed.

End Stage.

Lemma NoDup_submseteq_inv {A} (l k : list A) : l ⊆+ k → NoDup k → NoDup l.
Proof.
  intros (l2 & Hsub & Hperm)%submseteq_sublist_l Hk.
  eapply sublist_NoDup; [| exact Hsub]. by rewrite Hperm.
Qed.

(** A rearrangement of rows with distinct ids splits them. *)
Lemma partitions_of_Permutation pool_in out :
  NoDup (original_index <$> pool_in) →
  referenced out.1.1 ++ out.1.2 ++ out.2 ≡ₚ pool_in →
  partitions pool_in out
  ∧ NoDup (original_index <$> (out.1.2 ++ out.2)).
Proof.
  intros Hnd Hperm. rewrite <- Hperm, fmap_app in Hnd.
  apply NoDup_app in Hnd as (_ & Hdisj & Hleft).
  split; [split; [done |] | done].
  intros t Ht. apply Hdisj. by apply list_elem_of_fmap_2.
Qed.

Section Stages.

Variable cfg : config.
Variable token_sort_ratio : string → string → Z.

(** What a stage step does with one revenue [rv]: nothing, or the commit
    of a group [g] with [P rv g]. *)
Lemma stage_groups (P : transaction → match_group → Prop)
    (step : stage_state → transaction → stage_state) :
  (∀ st rv, step st rv = st
            ∨ ∃ g, step st rv = commit st rv g ∧ P rv g) →
  ∀ pool_r st g,
    g ∈ matches (foldl step st pool_r) →
    g ∈ matches st ∨ ∃ rv, rv ∈ pool_r ∧ P rv g.
Proof.
  intros Hstep pool_r.
  induction pool_r as [| rv pool_r IH]; intros st g Hg; [by left |].
  simpl in Hg. apply IH in Hg as [Hg | (rv' & Hin & HP)].
  - destruct (Hstep st rv) as [Heq | (g' & Heq & HP)]; rewrite Heq in Hg;
      [by left |].
    simpl in Hg. apply elem_of_app in Hg as [Hg | Hg]; [by left |].
    apply list_elem_of_singleton in Hg as ->. right. exists rv.
    split; [left | done].
  - right. exists rv'. split; [by right | done].
Qed.

Lemma exact_step_cases pool_e st rv :
  exact_match_scan cfg rv pool_e st = st
  ∨ ∃ g, exact_match_scan cfg rv pool_e st = commit st rv g
         ∧ revenue g = Some rv
         ∧ expenses g ⊆+ drop_ids (matched_expense_ids st) pool_e.
Proof.
  rewrite exact_match_scan_find.
  destruct (list_find _ pool_e) as [[i e] |] eqn:Hf; [| by left].
  right. exists (exact_group rv e). split; [done |]. split; [done |].
  apply list_find_Some in Hf as (Hi & [Hfree _] & _). simpl.
  apply singleton_submseteq_l, list_elem_of_filter.
  split; [done | by eapply list_elem_of_lookup_2].
Qed.

(** A commit of the Keyword stage: the expenses are free rows of the
    pool sharing enough keywords with the revenue, and the confidence is
    the mean of their overlap scores. *)
Lemma keyword_step_cases k pool_e st rv :
  keyword_match_step cfg k pool_e st rv = st
  ∨ ∃ g, keyword_match_step cfg k pool_e st rv = commit st rv g
         ∧ revenue g = Some rv
         ∧ expenses g ⊆+ drop_ids (matched_expense_ids st) pool_e
         ∧ confidence g
           == mean ((λ e, overlap_score
                            (extract_keywords cfg (description rv))
                            (extract_keywords cfg (description e)))
                      <$> expenses g)
         ∧ (match_type g = "fuzzy_single" ∧ length (expenses g) = 1%nat
            ∨ match_type g
              = "fuzzy_multiple_" +:+ pretty (length (expenses g))
              ∧ (2 <= length (expenses g) <= 5)%nat).
Proof.
  unfold keyword_match_step.
  destruct (size _ <? k)%nat; [by left |].
  destruct (solve_and_commit_cases cfg st rv
              (keyword_candidates cfg (extract_keywords cfg (description rv))
                 k pool_e (matched_expense_ids st)))
    as [-> | (g & Hg & ->)]; [by left |].
  right. exists g. split; [done |].
  apply (find_best_members cfg rv _ g
           (λ e, overlap_score (extract_keywords cfg (description rv))
                   (extract_keywords cfg (description e))))
    in Hg as (Hrv & Hsel & Hconf & Hkind).
  2: { intros pe Hpe. apply keyword_candidates_score in Hpe as [Hs _].
       exact Hs. }
  repeat split; try done.
  etransitivity; [exact Hsel |].
  apply sublist_submseteq, keyword_candidates_sublist.
Qed.

Lemma fuzzy_step_cases pool_e st rv :
  fuzzy_match_step cfg token_sort_ratio pool_e st rv = st
  ∨ ∃ g, fuzzy_match_step cfg token_sort_ratio pool_e st rv
         = commit st rv g
         ∧ revenue g = Some rv
         ∧ expenses g ⊆+ drop_ids (matched_expense_ids st) pool_e.
Proof.
  unfold fuzzy_match_step.
  destruct (solve_and_commit_cases cfg st rv
              (fuzzy_candidates cfg token_sort_ratio (description rv)
                 pool_e (matched_expense_ids st)))
    as [-> | (g & Hg & ->)]; [by left |].
  right. exists g. split; [done |].
  apply (find_best_members cfg rv _ g
           (λ e, calculate_similarity token_sort_ratio (description rv)
                   (description e)))
    in Hg as (Hrv & Hsel & _ & _).
  2: { intros pe Hpe. apply fuzzy_candidates_score in Hpe as [Hs _].
       exact Hs. }
  split; [done |].
  etransitivity; [exact Hsel |].
  apply sublist_submseteq, fuzzy_candidates_sublist.
Qed.

Lemma exact_match_partition pool_e pool_r :
  NoDup (original_index <$> (pool_e ++ pool_r)) →
  let out := exact_match cfg pool_e pool_r in
  referenced out.1.1 ++ out.1.2 ++ out.2 ≡ₚ pool_e ++ pool_r.
Proof.
  rewrite fmap_app. intros (He & _ & Hr)%NoDup_app.
  apply (stage_partition pool_e
           (λ st rv, exact_match_scan cfg rv pool_e st)); try done.
  intros st rv. apply exact_step_cases.
Qed.

Lemma keyword_match_partition pool_e pool_r :
  NoDup (original_index <$> (pool_e ++ pool_r)) →
  let out := keyword_match cfg pool_e pool_r in
  referenced out.1.1 ++ out.1.2 ++ out.2 ≡ₚ pool_e ++ pool_r.
Proof.
  rewrite fmap_app. intros (He & _ & Hr)%NoDup_app.
  apply (stage_partition pool_e (keyword_match_step cfg 2 pool_e));
    try done.
  intros st rv.
  destruct (keyword_step_cases 2 pool_e st rv)
    as [? | (g & ? & ? & ? & _)]; [by left |].
  right. by exists g.
Qed.

Lemma fuzzy_match_partition pool_e pool_r :
  NoDup (original_index <$> (pool_e ++ pool_r)) →
  let out := fuzzy_match cfg token_sort_ratio pool_e pool_r in
  referenced out.1.1 ++ out.1.2 ++ out.2 ≡ₚ pool_e ++ pool_r.
Proof.
  rewrite fmap_app. intros (He & _ & Hr)%NoDup_app.
  apply (stage_partition pool_e
           (fuzzy_match_step cfg token_sort_ratio pool_e)); try done.
  intros st rv. apply fuzzy_step_cases.
Qed.

Lemma split_by_type_submseteq (df : list transaction) :
  filter (λ t, transaction_type t = Expense) df
  ++ filter (λ t, transaction_type t = Revenue) df ⊆+ df.
Proof.
  induction df as [| t df IH]; [done |].
  rewrite !filter_cons.
  destruct (transaction_type t) eqn:Ht; simpl.
  - by apply submseteq_skip.
  - rewrite <- Permutation_middle. by apply submseteq_skip.
  - by apply submseteq_cons.
Qed.

(** C6, as amended. Every group the Keyword stage commits belongs to a
    revenue of the pool; its confidence is the arithmetic mean, over its
    expenses, of the keyword-overlap score (shared keywords over the
    larger of the two keyword counts) of the expense against that
    revenue; and its kind is the name that reflects its size, the one
    the Fuzzy stage uses too: fuzzy_single for one expense,
    fuzzy_multiple_n for n expenses, n from 2 to 5. *)
Theorem keyword_match_confidence pool_e pool_r g :
  g ∈ (keyword_match cfg pool_e pool_r).1.1 →
  ∃ rv,
    rv ∈ pool_r ∧ revenue g = Some rv
    ∧ (let rk := extract_keywords cfg (description rv) in
       let ranking_score e :=
         let ek := extract_keywords cfg (description e) in
         inject_Z (Z.of_nat (size (rk ∩ ek)))
         / inject_Z (Z.of_nat (max (size rk) (size ek))) in
       confidence g == mean (ranking_score <$> expenses g))
    ∧ (match_type g = "fuzzy_single" ∧ length (expenses g) = 1%nat
       ∨ match_type g = "fuzzy_multiple_" +:+ pretty (length (expenses g))
         ∧ (2 <= length (expenses g) <= 5)%nat).
Proof.
  unfold keyword_match, keyword_match_with. simpl. intros Hg.
  apply (stage_groups
           (λ rv g,
              revenue g = Some rv
              ∧ confidence g
                == mean ((λ e, overlap_score
                                 (extract_keywords cfg (description rv))
                                 (extract_keywords cfg (description e)))
                           <$> expenses g)
              ∧ (match_type g = "fuzzy_single"
                 ∧ length (expenses g) = 1%nat
                 ∨ match_type g
                   = "fuzzy_multiple_" +:+ pretty (length (expenses g))
                   ∧ (2 <= length (expenses g) <= 5)%nat)))
    in Hg as [Hg | (rv & Hin & Hrv & Hconf & Hkind)].
  - by apply elem_of_nil in Hg.
  - exists rv. done.
  - intros st rv.
    destruct (keyword_step_cases 2 pool_e st rv)
      as [? | (g' & ? & ? & _ & ? & ?)]; [by left |].
    right. by exists g'.
Qed.

(** C3. Each stage splits its input pools: the transactions its groups
    refer to and the transactions of the pools it leaves are disjoint
    and together are the input pools. Hence, through [auto_match_all],
    after every stage each transaction is either referred to by a group
    made so far or still in an unmatched pool, never both; the pools
    only shrink, and no transaction consumed by a stage is in the pools
    a later stage receives. Rows are told apart by their original
    index, which is distinct from row to row. *)
Theorem cascade_partitions_pools :
  (∀ pool_e pool_r,
     NoDup (original_index <$> (pool_e ++ pool_r)) →
     partitions (pool_e ++ pool_r) (exact_match cfg pool_e pool_r)
     ∧ partitions (pool_e ++ pool_r) (keyword_match cfg pool_e pool_r)
     ∧ partitions (pool_e ++ pool_r)
         (fuzzy_match cfg token_sort_ratio pool_e pool_r))
  ∧ (∀ df,
       NoDup (original_index <$> df) →
       let e0 := filter (λ t, transaction_type t = Expense) df in
       let r0 := filter (λ t, transaction_type t = Revenue) df in
       let s1 := exact_match cfg e0 r0 in
       let s2 := keyword_match cfg s1.1.2 s1.2 in
       let s3 := fuzzy_match cfg token_sort_ratio s2.1.2 s2.2 in
       auto_match_all cfg token_sort_ratio df
       = (s1.1.1 ++ s2.1.1 ++ s3.1.1, s3.1.2, s3.2)
       ∧ partitions (e0 ++ r0) s1
       ∧ partitions (e0 ++ r0) (s1.1.1 ++ s2.1.1, s2.1.2, s2.2)
       ∧ partitions (e0 ++ r0) (auto_match_all cfg token_sort_ratio df)
       ∧ s3.1.2 `sublist_of` s2.1.2 ∧ s2.1.2 `sublist_of` s1.1.2
       ∧ s1.1.2 `sublist_of` e0
       ∧ s3.2 `sublist_of` s2.2 ∧ s2.2 `sublist_of` s1.2
       ∧ s1.2 `sublist_of` r0).
Proof.
  split.
  { intros pool_e pool_r Hnd. split; [| split].
    - apply partitions_of_Permutation; [done |].
      by apply exact_match_partition.
    - apply partitions_of_Permutation; [done |].
      by apply keyword_match_partition.
    - apply partitions_of_Permutation; [done |].
      by apply fuzzy_match_partition. }
  intros df Hdf e0 r0 s1 s2 s3.
  assert (H0 : NoDup (original_index <$> (e0 ++ r0))).
  { eapply NoDup_submseteq_inv; [| exact Hdf].
    apply fmap_submseteq, split_by_type_submseteq. }
  assert (Hall : auto_match_all cfg token_sort_ratio df
                 = (s1.1.1 ++ s2.1.1 ++ s3.1.1, s3.1.2, s3.2)).
  { unfold auto_match_all. subst s3 s2 s1 e0 r0.
    destruct (exact_match cfg _ _) as [[m1 e1] r1]. cbn [fst snd].
    destruct (keyword_match cfg e1 r1) as [[m2 e2] r2]. cbn [fst snd].
    destruct (fuzzy_match cfg _ e2 r2) as [[m3 e3] r3]. simpl.
    by rewrite <- app_assoc. }
  pose proof (exact_match_partition e0 r0 H0) as P1. fold s1 in P1.
  cbv zeta in P1.
  destruct (partitions_of_Permutation _ s1 H0 P1) as [Q1 N1].
  pose proof (keyword_match_partition s1.1.2 s1.2 N1) as P2. fold s2 in P2.
  cbv zeta in P2.
  assert (C2 : referenced (s1.1.1 ++ s2.1.1) ++ s2.1.2 ++ s2.2 ≡ₚ e0 ++ r0).
  { unfold referenced in *. rewrite bind_app, <- app_assoc.
    by rewrite P2. }
  destruct (partitions_of_Permutation _ (s1.1.1 ++ s2.1.1, s2.1.2, s2.2)
              H0 C2) as [Q2 N2].
  cbn [fst snd] in N2.
  pose proof (fuzzy_match_partition s2.1.2 s2.2 N2) as P3. fold s3 in P3.
  cbv zeta in P3.
  assert (C3 : referenced (s1.1.1 ++ s2.1.1 ++ s3.1.1) ++ s3.1.2 ++ s3.2
               ≡ₚ e0 ++ r0).
  { replace (s1.1.1 ++ s2.1.1 ++ s3.1.1)
      with ((s1.1.1 ++ s2.1.1) ++ s3.1.1) by (by rewrite app_assoc).
    unfold referenced in *. rewrite bind_app, <- app_assoc.
    by rewrite P3. }
  destruct (partitions_of_Permutation _
              (s1.1.1 ++ s2.1.1 ++ s3.1.1, s3.1.2, s3.2) H0 C3)
    as [Q3 _].
  rewrite Hall.
  split; [done |]. split; [exact Q1 |]. split; [exact Q2 |].
  split; [exact Q3 |].
  repeat split; apply drop_ids_sublist.
Qed.

End Stages.

(** ** The review ranker *)

Lemma py_max_0 x : py_max 0 x == Qmax 0 x.
Proof.
  unfold py_max. destruct (Py.Qltb 0 x) eqn:Hx.
  - apply Qltb_lt in Hx. symmetry. apply Q.max_r. by apply Qlt_le_weak.
  - apply Qltb_ge in Hx. symmetry. by apply Q.max_l.
Qed.

Lemma size_pos_nonempty (X : gset string) : X ≠ ∅ → (0 < size X)%nat.
Proof.
  intros HX. destruct (decide (size X = 0%nat)) as [H0 | ?]; [| lia].
  apply size_empty_iff in H0. destruct HX. by apply leibniz_equiv.
Qed.


(** ** The reachability table of the exact subset-sum solver *)

Lemma dp_get_set_eq dp i j b row :
  dp !! i = Some row → (j < length row)%nat →
  dp_get (dp_set dp i j b) i j = b.
Proof.
  intros Hrow Hj. unfold dp_get, dp_set.
  rewrite list_lookup_alter_eq, Hrow. simpl.
  by rewrite list_lookup_insert_eq.
Qed.

Lemma dp_get_set_ne dp i j b i' j' :
  i' ≠ i ∨ j' ≠ j → dp_get (dp_set dp i j b) i' j' = dp_get dp i' j'.
Proof.
  intros Hne. unfold dp_get, dp_set.
  destruct (decide (i' = i)) as [-> | Hi].
  - rewrite list_lookup_alter_eq. destruct (dp !! i) as [row |]; [| done].
    simpl. rewrite list_lookup_insert_ne; [done |]. intros ->. by destruct Hne.
  - by rewrite list_lookup_alter_ne.
Qed.

Lemma dp_set_shape n width dp i j b :
  table_shape n width dp → table_shape n width (dp_set dp i j b).
Proof.
  intros [Hlen Hrows]. split.
  - unfold dp_set. by rewrite length_alter.
  - apply Forall_alter; [done |]. intros row _ Hrow.
    by rewrite length_insert.
Qed.

Lemma table_shape_row n width dp i :
  table_shape n width dp → (i <= n)%nat →
  ∃ row, dp !! i = Some row ∧ length row = width.
Proof.
  intros [Hlen Hrows] Hi.
  destruct (lookup_lt_is_Some_2 dp i) as [row Hrow]; [lia |].
  exists row. split; [done |].
  rewrite Forall_lookup in Hrows. by eapply Hrows.
Qed.

Lemma dp_get_set_same n width dp i j b :
  table_shape n width dp → (i <= n)%nat → (j < width)%nat →
  dp_get (dp_set dp i j b) i j = b.
Proof.
  intros Hshape Hi Hj.
  destruct (table_shape_row n width dp i Hshape Hi) as (row & Hrow & Hlen).
  eapply dp_get_set_eq; [done | lia].
Qed.

(** *** Sums reachable with one more candidate *)

Lemma total_app cs1 cs2 : total (cs1 ++ cs2) = (total cs1 + total cs2)%Z.
Proof.
  unfold total. induction cs1 as [| c cs1 IH]; simpl; [done |]. lia.
Qed.

Lemma total_nonneg cs : Forall (λ c, 0 <= c)%Z cs → (0 <= total cs)%Z.
Proof. unfold total. induction 1; simpl; lia. Qed.

Lemma reachable_nil j : reachable [] j ↔ j = 0%Z.
Proof.
  unfold reachable. split.
  - intros (s & ->%sublist_nil_r & <-). done.
  - intros ->. by exists [].
Qed.

Lemma reachable_snoc cs c j :
  Forall (λ c, 0 <= c)%Z cs →
  reachable (cs ++ [c]) j
  ↔ reachable cs j ∨ ((c <= j)%Z ∧ reachable cs (j - c)).
Proof.
  intros Hpos. unfold reachable. split.
  - intros (s & (s1 & s2 & -> & H1 & H2)%sublist_app_r & <-).
    rewrite total_app.
    inversion H2 as [| x l1 l2 H2' | x l1 l2 H2']; subst.
    + apply sublist_nil_r in H2' as ->. right.
      assert (0 <= total s1)%Z.
      { apply total_nonneg, Forall_forall. intros x Hx.
        rewrite Forall_forall in Hpos. apply Hpos.
        by eapply elem_of_sublist. }
      split; [unfold total in *; simpl; lia |].
      exists s1. split; [done |]. unfold total. simpl. lia.
    + apply sublist_nil_r in H2' as ->. left. exists s1.
      split; [done |]. unfold total. simpl. lia.
  - intros [(s & Hs & <-) | (Hc & s & Hs & Hj)].
    + exists s. split; [| done].
      rewrite <- (app_nil_r s). apply sublist_app; [done |].
      apply sublist_nil_l.
    + exists (s ++ [c]). split; [by apply sublist_app |].
      rewrite total_app. unfold total at 2. simpl. lia.
Qed.

(** The base case of the table: column 0 of every row is set. *)
Lemma base_column_spec n width dp0 m :
  table_shape n width dp0 → (m <= S n)%nat →
  table_shape n width (foldl (λ dp i, dp_set dp i 0 true) dp0 (seq 0 m))
  ∧ ∀ i j, (i <= n)%nat → (0 < width)%nat →
      dp_get (foldl (λ dp i, dp_set dp i 0 true) dp0 (seq 0 m)) i j
      = if decide ((i < m)%nat ∧ j = 0%nat) then true else dp_get dp0 i j.
Proof.
  intros Hshape. induction m as [| m IH]; intros Hm.
  { split; [done |]. intros i j _ _.
    rewrite decide_False by lia. done. }
  destruct IH as [IHs IHg]; [lia |].
  rewrite seq_S, foldl_snoc. simpl.
  split; [by apply dp_set_shape |].
  intros i j Hi Hw.
  destruct (decide (i = m ∧ j = 0%nat)) as [[-> ->] | Hne].
  - rewrite (dp_get_set_same n width) by (done || lia).
    rewrite decide_True; [done | lia].
  - rewrite dp_get_set_ne by lia. rewrite IHg by done.
    destruct (decide ((i < m)%nat ∧ j = 0%nat)),
             (decide ((i < S m)%nat ∧ j = 0%nat)); try done; lia.
Qed.

Section Table.

Variables (n width : nat) (ec : list Z).
Hypothesis ec_length : length ec = n.
Hypothesis ec_nonneg : Forall (λ c, 0 <= c)%Z ec.

#[local] Abbreviation shape := (table_shape n width).

Lemma fill_cell_spec dp i j :
  shape dp → (1 <= i <= n)%nat → (j < width)%nat →
  shape (fill_cell ec i dp j)
  ∧ dp_get (fill_cell ec i dp j) i j = cell_value ec dp i j
  ∧ ∀ i' j', i' ≠ i ∨ j' ≠ j →
      dp_get (fill_cell ec i dp j) i' j' = dp_get dp i' j'.
Proof.
  intros Hshape Hi Hj. unfold fill_cell, cell_value.
  set (c := default 0%Z (ec !! (i - 1)%nat)).
  set (dp1 := dp_set dp i j (dp_get dp (i - 1) j)).
  assert (Hs1 : shape dp1) by by apply dp_set_shape.
  assert (Hg1 : dp_get dp1 i j = dp_get dp (i - 1) j).
  { apply (dp_get_set_same n width); (done || lia). }
  assert (Hn1 : ∀ i' j', i' ≠ i ∨ j' ≠ j → dp_get dp1 i' j' = dp_get dp i' j').
  { intros. by apply dp_get_set_ne. }
  destruct (c <=? Z.of_nat j)%Z.
  - split; [by apply dp_set_shape |]. split.
    + rewrite (dp_get_set_same n width) by (done || lia).
      rewrite Hg1, Hn1 by lia. done.
    + intros i' j' Hne. rewrite dp_get_set_ne by done. by apply Hn1.
  - split; [done |]. split; [| done].
    by rewrite Hg1, orb_false_r.
Qed.

Lemma fill_row_spec dp i m :
  shape dp → (1 <= i <= n)%nat → (m <= width)%nat →
  shape (foldl (fill_cell ec i) dp (seq 0 m))
  ∧ (∀ j, (j < m)%nat →
       dp_get (foldl (fill_cell ec i) dp (seq 0 m)) i j = cell_value ec dp i j)
  ∧ ∀ i' j', i' ≠ i ∨ (m <= j')%nat →
      dp_get (foldl (fill_cell ec i) dp (seq 0 m)) i' j' = dp_get dp i' j'.
Proof.
  intros Hshape Hi. induction m as [| m IH]; intros Hm.
  { simpl. split; [done |]. split; [lia | done]. }
  destruct IH as (IHs & IHv & IHo); [lia |].
  rewrite seq_S, foldl_snoc. simpl.
  destruct (fill_cell_spec (foldl (fill_cell ec i) dp (seq 0 m)) i m)
    as (Hs & Hv & Ho); [done | done | lia |].
  split; [done |]. split.
  - intros j Hj. destruct (decide (j = m)) as [-> | Hne].
    + rewrite Hv. unfold cell_value. rewrite !IHo by lia. done.
    + rewrite Ho by lia. apply IHv. lia.
  - intros i' j' Hne. rewrite Ho by lia. apply IHo. lia.
Qed.

(** After the rows [1 .. k] are filled, the cell [(i, j)] of each row
    [i <= k] tells whether [j] is a sum of some of the first [i]
    candidates. *)
Lemma fill_table_spec dp1 k :
  shape dp1 →
  (∀ j, (j < width)%nat → dp_get dp1 0 j = true ↔ j = 0%nat) →
  (k <= n)%nat →
  shape (foldl (λ dp i, foldl (fill_cell ec i) dp (seq 0 width))
               dp1 (seq 1 k))
  ∧ ∀ i j, (i <= k)%nat → (j < width)%nat →
      dp_get (foldl (λ dp i, foldl (fill_cell ec i) dp (seq 0 width))
                    dp1 (seq 1 k)) i j = true
      ↔ reachable (take i ec) (Z.of_nat j).
Proof.
  intros Hshape Hrow0. induction k as [| k IH]; intros Hk.
  { simpl. split; [done |]. intros i j Hi Hj.
    assert (i = 0)%nat as -> by lia. rewrite take_0, reachable_nil.
    rewrite Hrow0 by done. lia. }
  destruct IH as [IHs IHg]; [lia |].
  rewrite seq_S, foldl_snoc. simpl.
  set (dp := foldl _ dp1 (seq 1 k)) in *.
  destruct (fill_row_spec dp (S k) width) as (Hs & Hv & Ho);
    [done | lia | done |].
  split; [done |]. intros i j Hi Hj.
  destruct (decide (i = S k)) as [-> | Hne].
  2: { rewrite Ho by lia. apply IHg; lia. }
  rewrite Hv by done. unfold cell_value.
  replace (S k - 1)%nat with k by lia.
  destruct (lookup_lt_is_Some_2 ec k) as [c Hc]; [lia |].
  rewrite Hc. simpl.
  rewrite (take_S_r _ _ _ Hc).
  assert (Hcpos : (0 <= c)%Z).
  { rewrite Forall_lookup in ec_nonneg. by eapply ec_nonneg. }
  rewrite reachable_snoc by by apply Forall_take.
  rewrite orb_true_iff, IHg by lia.
  destruct (c <=? Z.of_nat j)%Z eqn:Hle.
  - apply Z.leb_le in Hle. rewrite IHg by lia.
    rewrite Z2Nat.id by lia. tauto.
  - apply Z.leb_gt in Hle. split; [intros [? | ?]; [by left | done] |].
    intros [? | [? _]]; [by left | lia].
Qed.

End Table.

(** *** Cents are never negative *)

Lemma round_nonneg x : 0 <= x → (0 <= Py.round x)%Z.
Proof.
  intros Hx. unfold Py.round.
  assert (Hf : (0 <= Qfloor x)%Z).
  { change 0%Z with (Qfloor 0). by apply Qfloor_resp_le. }
  repeat match goal with |- context [if ?b then _ else _] => destruct b end;
    lia.
Qed.

Lemma pow2_pos q : 0 < Float.pow2 q.
Proof.
  unfold Float.pow2. destruct (0 <=? q)%Z eqn:Hq; [| done].
  apply Z.leb_le in Hq. change 0 with (inject_Z 0). rewrite <- Zlt_Qlt.
  by apply Z.pow_pos_nonneg.
Qed.

(** Rounding to the nearest double keeps the sign. *)
Lemma rnd_nonneg x : 0 <= x → 0 <= Float.rnd x.
Proof.
  intros Hx. unfold Float.rnd. cbv zeta.
  destruct (Qeq_bool (Qred x) 0); [apply Qle_refl |].
  assert (Hs : Py.Qltb (Qred x) 0 = false).
  { destruct (Py.Qltb (Qred x) 0) eqn:Hlt; [| done].
    apply Qltb_lt in Hlt. rewrite Qred_correct in Hlt.
    by destruct (Qlt_not_le _ _ Hlt). }
  rewrite Hs, Qred_correct.
  apply Qmult_le_0_compat; [| apply Qlt_le_weak, pow2_pos].
  change 0 with (inject_Z 0). rewrite <- Zle_Qle.
  apply round_nonneg.
  apply Qle_shift_div_l; [apply pow2_pos |].
  rewrite Qmult_0_l. apply Qabs_nonneg.
Qed.

Lemma expense_cents_nonneg exp : (0 <= expense_cents exp)%Z.
Proof.
  apply round_nonneg, rnd_nonneg.
  apply Qmult_le_0_compat; [apply Qabs_nonneg | done].
Qed.

Lemma to_cents_nonneg x : 0 < x → (0 <= to_cents x)%Z.
Proof.
  intros Hx. apply round_nonneg, rnd_nonneg.
  apply Qmult_le_0_compat; [by apply Qlt_le_weak | done].
Qed.

(** *** Backtracking *)

Lemma backtrack_by_positions dp es ec i j res :
  backtrack dp es ec i j res
  = res ++ omap (λ p, es !! p) (backtrack_positions dp ec i j).
Proof.
  revert j res. induction i as [| i IH]; intros j res; simpl.
  { by rewrite app_nil_r. }
  destruct (0 <? j)%Z; [| by rewrite app_nil_r].
  destruct (dp_get dp i (Z.to_nat j)); [by apply IH |].
  rewrite IH. simpl. rewrite <- app_assoc.
  by destruct (es !! i).
Qed.

Section Backtrack.

Variables (width : nat) (es : list transaction) (dp : list (list bool)).

#[local] Abbreviation ec := (expense_cents <$> es).

Hypothesis dp_reachable : ∀ i j,
  (i <= length es)%nat → (j < width)%nat →
  dp_get dp i j = true ↔ reachable (take i ec) (Z.of_nat j).

(** From a reachable cell, backtracking picks candidates among the
    first [i], last first, whose cents add up to [j]. *)
Lemma backtrack_sound i j res :
  (i <= length es)%nat → (0 <= j)%Z → (Z.to_nat j < width)%nat →
  reachable (take i ec) j →
  ∃ picks,
    backtrack dp es ec i j res = res ++ picks
    ∧ reverse picks `sublist_of` take i es
    ∧ total (expense_cents <$> picks) = j.
Proof.
  revert j res. induction i as [| i IH]; intros j res Hi Hj Hw Hreach.
  { exists []. simpl. rewrite app_nil_r.
    rewrite take_0 in Hreach. apply reachable_nil in Hreach as ->. done. }
  simpl. destruct (0 <? j)%Z eqn:Hpos.
  2: { apply Z.ltb_ge in Hpos. exists []. rewrite app_nil_r.
       repeat split; [apply sublist_nil_l | unfold total; simpl; lia]. }
  apply Z.ltb_lt in Hpos.
  destruct (lookup_lt_is_Some_2 es i) as [e He]; [lia |].
  assert (Hc : ec !! i = Some (expense_cents e))
    by by rewrite list_lookup_fmap, He.
  assert (Hstep : take i es `sublist_of` take (S i) es).
  { rewrite (take_S_r _ _ _ He). rewrite <- (app_nil_r (take i es)) at 1.
    apply sublist_app; [done | apply sublist_nil_l]. }
  destruct (dp_get dp i (Z.to_nat j)) eqn:Hcell.
  - apply dp_reachable in Hcell; [| lia | done].
    rewrite Z2Nat.id in Hcell by lia.
    destruct (IH j res) as (picks & Hrun & Hsub & Htot); [lia | done.. |].
    exists picks. split; [done |]. split; [| done].
    by etransitivity.
  - assert (Hnot : ¬ reachable (take i ec) j).
    { intros Hr. rewrite <- (Z2Nat.id j) in Hr by lia.
      apply dp_reachable in Hr; [congruence | lia | done]. }
    rewrite (take_S_r _ _ _ Hc) in Hreach.
    apply reachable_snoc in Hreach as [? | [Hle Hrest]]; [done | |].
    2: { apply Forall_take, Forall_fmap, Forall_true.
         intros x. apply expense_cents_nonneg. }
    rewrite Hc, He. simpl.
    pose proof (expense_cents_nonneg e) as Hcpos.
    destruct (IH (j - expense_cents e)%Z (res ++ [e]))
      as (picks & Hrun & Hsub & Htot); [lia | lia | lia | done |].
    exists (e :: picks). split; [by rewrite Hrun, <- app_assoc |].
    split.
    + rewrite reverse_cons, (take_S_r _ _ _ He).
      by apply sublist_app.
    + rewrite fmap_cons. unfold total in *. simpl. lia.
Qed.

End Backtrack.

Lemma backtrack_positions_lt dp ec i j :
  Forall (λ p, (p < i)%nat) (backtrack_positions dp ec i j).
Proof.
  revert j. induction i as [| i IH]; intros j; simpl; [constructor |].
  destruct (0 <? j)%Z; [| constructor].
  destruct (dp_get dp i (Z.to_nat j)).
  - eapply Forall_impl; [apply IH |]. simpl. lia.
  - constructor; [lia |]. eapply Forall_impl; [apply IH |]. simpl. lia.
Qed.

Lemma omap_lookup_length {A} (l : list A) positions :
  Forall (λ p, (p < length l)%nat) positions →
  length (omap (λ p, l !! p) positions) = length positions.
Proof.
  induction 1 as [| p ps Hp _ IH]; [done |]. simpl.
  destruct (lookup_lt_is_Some_2 l p Hp) as [x ->]. simpl. f_equal.
  exact IH.
Qed.

(** *** The solver *)

(** The solver, with its table named: the table is built from the target
    cents and the candidates' cents, and only the last step looks at the
    candidates themselves. *)
Lemma find_dp_unfold target_amount es :
  let target_cents := to_cents target_amount in
  let ec := expense_cents <$> es in
  let n := length ec in
  let width := Z.to_nat (target_cents + 1) in
  let dp :=
    foldl (λ dp i, foldl (fill_cell ec i) dp (seq 0 width))
      (foldl (λ dp i, dp_set dp i 0 true)
             (replicate (S n) (replicate width false)) (seq 0 (S n)))
      (seq 1 n) in
  find_expense_combinations_dp target_amount es
  = if (target_cents <? 0)%Z then Raises "IndexError"
    else if negb (dp_get dp n (Z.to_nat target_cents)) then Returns None
    else Returns
           match omap (λ p, es !! p)
                   (backtrack_positions dp ec n target_cents) with
           | [] => None
           | r => Some r
           end.
Proof.
  intros target_cents ec n width dp.
  unfold find_expense_combinations_dp. fold target_cents.
  destruct (target_cents <? 0)%Z; [done |].
  unfold Py.range. fold expense_cents. fold ec.
  assert (Hn : length es = n) by (subst n ec; by rewrite length_fmap).
  rewrite Hn.
  replace (n + 1 - 0)%nat with (S n) by lia.
  replace (n + 1 - 1)%nat with n by lia.
  replace (n + 1)%nat with (S n) by lia.
  replace (Z.to_nat (target_cents + 1) - 0)%nat with width by (subst width; lia).
  fold width. fold dp.
  destruct (dp_get dp n (Z.to_nat target_cents)); [| done]. simpl.
  rewrite backtrack_by_positions. simpl.
  by destruct (omap _ _).
Qed.

(** For a target of non-negative cents the table is sound and complete:
    cell [(i, j)] holds exactly when [j] is a sum of some of the first [i]
    candidates' cents. *)
Lemma dp_table_reachable target_cents (es : list transaction) :
  (0 <= target_cents)%Z →
  let ec := expense_cents <$> es in
  let n := length ec in
  let width := Z.to_nat (target_cents + 1) in
  ∀ i j, (i <= length es)%nat → (j < width)%nat →
    dp_get
      (foldl (λ dp i, foldl (fill_cell ec i) dp (seq 0 width))
         (foldl (λ dp i, dp_set dp i 0 true)
                (replicate (S n) (replicate width false)) (seq 0 (S n)))
         (seq 1 n)) i j = true
    ↔ reachable (take i ec) (Z.of_nat j).
Proof.
  intros HT ec n width.
  assert (Hn : length es = n) by (subst n ec; by rewrite length_fmap).
  assert (Hshape0 : table_shape n width (replicate (S n) (replicate width false))).
  { split; [by rewrite length_replicate |].
    apply Forall_replicate. by rewrite length_replicate. }
  destruct (base_column_spec n width _ (S n) Hshape0) as [Hshape1 Hbase];
    [lia |].
  assert (Hrow0 : ∀ j, (j < width)%nat →
            dp_get (foldl (λ dp i, dp_set dp i 0 true)
                      (replicate (S n) (replicate width false))
                      (seq 0 (S n))) 0 j = true ↔ j = 0%nat).
  { intros j Hj. rewrite Hbase by lia.
    destruct (decide ((0 < S n)%nat ∧ j = 0%nat)) as [[_ ->] | Hne];
      [done |].
    unfold dp_get. simpl. rewrite lookup_replicate_2 by done.
    split; [done | lia]. }
  assert (Hpos : Forall (λ c, 0 <= c)%Z ec).
  { apply Forall_fmap, Forall_true. intros x. apply expense_cents_nonneg. }
  destruct (fill_table_spec n width ec eq_refl Hpos _ n Hshape1 Hrow0)
    as [_ Hgood]; [done |].
  intros i j Hi Hj. apply Hgood; [lia | done].
Qed.

(** C2, as amended. The rounded cents of an amount are the float product
    of the amount and 100, rounded to the nearest integer. For a positive
    target whose rounded cents are at least 1: when some selection of the
    candidates' rounded cents adds up exactly to the target's rounded
    cents, the solver returns candidates (a selection of the list, last
    picked first) whose rounded cents add up to exactly that; when no
    selection does, it returns no solution. When the target's rounded
    cents are 0 it returns no solution. The answer is a function of the
    rounded cents: two calls with the same target cents and the same
    candidate cents pick the same positions. *)
Theorem find_expense_combinations_dp_exact target_amount es :
  0 < target_amount →
  let target_cents := to_cents target_amount in
  let cents := expense_cents <$> es in
  (target_cents = 0%Z →
     find_expense_combinations_dp target_amount es = Returns None)
  ∧ ((0 < target_cents)%Z → reachable cents target_cents →
     ∃ r, find_expense_combinations_dp target_amount es = Returns (Some r)
          ∧ reverse r `sublist_of` es
          ∧ total (expense_cents <$> r) = target_cents)
  ∧ (¬ reachable cents target_cents →
     find_expense_combinations_dp target_amount es = Returns None)
  ∧ (∀ target_amount' es',
       to_cents target_amount' = target_cents →
       expense_cents <$> es' = cents →
       same_selection es es'
         (find_expense_combinations_dp target_amount es)
         (find_expense_combinations_dp target_amount' es')).
Proof.
  intros Htarget target_cents cents.
  pose proof (to_cents_nonneg _ Htarget) as HT. fold target_cents in HT.
  pose proof (dp_table_reachable target_cents es HT) as Hgood.
  pose proof (find_dp_unfold target_amount es) as Hrun.
  cbv zeta in Hgood, Hrun. fold target_cents cents in Hgood, Hrun.
  set (n := length cents) in *.
  set (width := Z.to_nat (target_cents + 1)) in *.
  set (dp := foldl _ (foldl _ (replicate (S n) _) _) (seq 1 n)) in *.
  assert (Hn : length es = n) by (subst n cents; by rewrite length_fmap).
  assert (Hlt : (target_cents <? 0)%Z = false) by by apply Z.ltb_ge.
  assert (Hcell : dp_get dp n (Z.to_nat target_cents) = true
                  ↔ reachable cents target_cents).
  { rewrite Hgood by lia. rewrite Z2Nat.id by done.
    subst n. by rewrite firstn_all. }
  assert (Hback : ∀ r, backtrack dp es cents n target_cents [] = r →
            omap (λ p, es !! p) (backtrack_positions dp cents n target_cents)
            = r).
  { intros r <-. by rewrite backtrack_by_positions. }
  split; [| split; [| split]].
  - intros H0. rewrite Hrun, Hlt.
    destruct (dp_get dp n (Z.to_nat target_cents)); [| done]. simpl.
    rewrite H0. by destruct n.
  - intros Hpos Hreach. rewrite Hrun, Hlt.
    apply Hcell in Hreach as Hc. rewrite Hc. simpl.
    destruct (backtrack_sound width es dp) with
      (i := n) (j := target_cents) (res := @nil transaction)
      as (picks & Hpicks & Hsub & Htot); try done; try lia.
    { fold cents. rewrite take_ge by (subst n; lia). done. }
    rewrite take_ge in Hsub by lia.
    rewrite (Hback picks) by done.
    exists picks. split; [| done].
    destruct picks; [| done]. unfold total in Htot. simpl in Htot. lia.
  - intros Hno. rewrite Hrun, Hlt.
    assert (Hc : dp_get dp n (Z.to_nat target_cents) = false).
    { apply not_true_iff_false. intros Hc. by apply Hno, Hcell. }
    by rewrite Hc.
  - intros target_amount' es' HT' Hcents'.
    pose proof (find_dp_unfold target_amount' es') as Hrun'.
    cbv zeta in Hrun'. rewrite HT', Hcents' in Hrun'.
    fold n width dp in Hrun'. rewrite Hrun, Hrun', Hlt.
    destruct (dp_get dp n (Z.to_nat target_cents)); [| done]. simpl.
    pose proof (backtrack_positions_lt dp cents n target_cents) as Hps.
    assert (Hn' : length es' = n).
    { subst n. by rewrite <- Hcents', length_fmap. }
    pose proof (omap_lookup_length es _ ltac:(by rewrite Hn)) as Hl.
    pose proof (omap_lookup_length es' _ ltac:(by rewrite Hn')) as Hl'.
    destruct (omap (λ p, es !! p) _) as [| x l] eqn:Hr,
             (omap (λ p, es' !! p) _) as [| x' l'] eqn:Hr';
      simpl in *; try done; try congruence.
    exists (backtrack_positions dp cents n target_cents). done.
Qed.

(** ** The scenarios of the specification, run *)

Lemma find_expense_combinations_dp_exact_witness :
  let es := [two_cents; three_cents] in
  (0 < Float.lit (5 # 100)
   ∧ ∃ r, find_expense_combinations_dp (Float.lit (5 # 100)) es
          = Returns (Some r)
          ∧ reverse r `sublist_of` es
          ∧ total (expense_cents <$> r) = to_cents (Float.lit (5 # 100)))
  ∧ (0 < Float.lit (4 # 100)
     ∧ find_expense_combinations_dp (Float.lit (4 # 100)) es = Returns None).
Proof.
  intros es. split.
  - assert (Hpos : 0 < Float.lit (5 # 100)) by (by vm_compute).
    split; [exact Hpos |].
    destruct (find_expense_combinations_dp_exact (Float.lit (5 # 100)) es
                Hpos) as (_ & Hfound & _).
    apply Hfound.
    + vm_compute. reflexivity.
    + exists [2; 3]%Z. split; vm_compute; reflexivity.
  - assert (Hpos : 0 < Float.lit (4 # 100)) by (by vm_compute).
    split; [exact Hpos |].
    destruct (find_expense_combinations_dp_exact (Float.lit (4 # 100)) es
                Hpos) as (_ & _ & Hnone & _).
    apply Hnone. intros (s & Hs & Ht). vm_compute in Hs.
    repeat (apply sublist_cons_r in Hs as [Hs | (? & -> & Hs)]);
      apply sublist_nil_r in Hs as ->; vm_compute in Ht; discriminate Ht.
Defined.

(** A positive target below half a cent rounds to 0 cents. The empty
    selection adds up to 0, and no solution is returned. *)
Lemma find_expense_combinations_dp_zero_cents :
  ¬ (0 < tiny_target →
     reachable (expense_cents <$> [five_units]) (to_cents tiny_target) →
     ∃ r, find_expense_combinations_dp tiny_target [five_units]
          = Returns (Some r)
          ∧ total (expense_cents <$> r) = to_cents tiny_target).
Proof.
  intros Hclaim. destruct Hclaim as (r & Hr & _).
  - by vm_compute.
  - exists []. split; [apply sublist_nil_l | by vm_compute].
  - vm_compute in Hr. discriminate Hr.
Qed.

Lemma cascade_partitions_pools_witness :
  let pool_e := [scenario_A_expense; scenario_B_expense_A] in
  let pool_r := [scenario_A_revenue; scenario_B_revenue] in
  (NoDup (original_index <$> (pool_e ++ pool_r))
   ∧ partitions (pool_e ++ pool_r) (exact_match Config pool_e pool_r))
  ∧ (NoDup (original_index <$> scenarios_df)
     ∧ partitions
         (filter (λ t, transaction_type t = Expense) scenarios_df
          ++ filter (λ t, transaction_type t = Revenue) scenarios_df)
         (auto_match_all Config no_similarity scenarios_df)).
Proof.
  intros pool_e pool_r. split.
  - assert (Hids : NoDup (original_index <$> (pool_e ++ pool_r))).
    { apply (@bool_decide_unpack _ (NoDup_dec _)). vm_compute. exact I. }
    split; [exact Hids |].
    apply (proj1 (cascade_partitions_pools Config no_similarity)
             pool_e pool_r Hids).
  - assert (Hids : NoDup (original_index <$> scenarios_df)).
    { apply (@bool_decide_unpack _ (NoDup_dec _)). vm_compute. exact I. }
    split; [exact Hids |].
    apply (proj2 (cascade_partitions_pools Config no_similarity)
             scenarios_df Hids).
Defined.

Lemma confirm_match_all_or_nothing_witness :
  confirm_match Config no_similarity scenario_D_session scenario_D_request
  = (scenario_D_session,
     failure 400 "Invalid match: Match not balanced. Balance: 0.02")
  ∧ ∃ st',
      (confirm_match Config no_similarity position_9_session
         position_9_request).1 = st'
      ∧ s_matches st' = [manual_match position_9_revenue [scenario_A_expense]]
      ∧ s_unmatched_expenses st' = []
      ∧ s_unmatched_revenues st' = [].
Proof.
  split.
  - refine (proj1 (proj2 (confirm_match_all_or_nothing Config no_similarity
                            scenario_D_session 10 [11; 12]%Z
                            scenario_D_revenue [] _ _ _)) _ _ _).
    + done.
    + done.
    + by vm_compute.
    + by vm_compute.
    + by vm_compute.
    + by vm_compute.
  - destruct (proj2 (proj2 (proj2
               (confirm_match_all_or_nothing Config no_similarity
                  position_9_session 9 [1%Z] position_9_revenue []
                  ltac:(done) ltac:(done) ltac:(by vm_compute))))
               "Match is valid" ltac:(by vm_compute))
      as (st' & Hrun & Hm & _ & _ & He & Hr & _).
    exists st'. split; [unfold position_9_request; by rewrite Hrun |].
    split; [by rewrite Hm |]. split; [by rewrite He | by rewrite Hr].
Defined.

Lemma confirm_match_rejects_index_zero_witness :
  (scenario_A_revenue ∈ s_unmatched_revenues position_0_session
   ∧ original_index scenario_A_revenue = 0%Z
   ∧ confirm_match Config no_similarity position_0_session position_0_request
     = (position_0_session, failure 400 "Invalid match data"))
  ∧ ∃ revenue,
      revenue ∈ s_unmatched_revenues position_9_session
      ∧ revenue_index position_9_request = Some (original_index revenue)
      ∧ original_index revenue ≠ 0%Z
      ∧ s_matches (confirm_match Config no_similarity position_9_session
                     position_9_request).1
        = s_matches position_9_session
          ++ [manual_match revenue
                (filter (λ t, original_index t
                              ∈ expense_indices position_9_request)
                        (s_unmatched_expenses position_9_session))].
Proof.
  split.
  - split; [by left |]. split; [done |].
    apply (proj1 (confirm_match_rejects_index_zero Config no_similarity
                    position_0_session position_0_request)).
    by left.
  - apply (proj2 (confirm_match_rejects_index_zero Config no_similarity
                    position_9_session position_9_request)).
    by vm_compute.
Defined.

Lemma keyword_match_confidence_witness :
  ∃ rv,
    rv ∈ [scenario_B_revenue] ∧ revenue scenario_B_group = Some rv
    ∧ (let rk := extract_keywords Config (description rv) in
       let ranking_score e :=
         let ek := extract_keywords Config (description e) in
         inject_Z (Z.of_nat (size (rk ∩ ek)))
         / inject_Z (Z.of_nat (max (size rk) (size ek))) in
       confidence scenario_B_group
       == mean (ranking_score <$> expenses scenario_B_group))
    ∧ (match_type scenario_B_group = "fuzzy_single"
       ∧ length (expenses scenario_B_group) = 1%nat
       ∨ match_type scenario_B_group
         = "fuzzy_multiple_" +:+ pretty (length (expenses scenario_B_group))
         ∧ (2 <= length (expenses scenario_B_group) <= 5)%nat).
Proof.
  apply (keyword_match_confidence Config
           [scenario_B_expense_A; scenario_B_expense_B]
           [scenario_B_revenue] scenario_B_group).
  vm_compute. left.
Defined.

(** The Keyword stage names its groups as the Fuzzy stage does: the
    group of Scenario B is of kind fuzzy_multiple_2, and no group is of a
    kind named after the stage. *)
Lemma keyword_match_kind_not_keyword :
  ¬ (∀ g,
       g ∈ (keyword_match Config
              [scenario_B_expense_A; scenario_B_expense_B]
              [scenario_B_revenue]).1.1 →
       keyword_kind (match_type g)).
Proof.
  intros Hclaim.
  assert (Hg : scenario_B_group
               ∈ (keyword_match Config
                    [scenario_B_expense_A; scenario_B_expense_B]
                    [scenario_B_revenue]).1.1).
  { vm_compute. left. }
  apply Hclaim in Hg. destruct Hg as [position Hfound].
  vm_compute in Hfound. discriminate Hfound.
Qed.

(** Scenario B through the Keyword stage: one group of two expenses, of
    confidence 0.5, with residual 0. *)
Example scenario_B_keyword_stage :
  keyword_match Config [scenario_B_expense_A; scenario_B_expense_B]
    [scenario_B_revenue]
  = ([scenario_B_group], [], [])
  ∧ confidence scenario_B_group == 1 # 2
  ∧ calculate_match_balance scenario_B_group == 0.
Proof. split; [by vm_compute |]. split; by vm_compute. Qed.

(** Scenario D, validated on its own: the reason names the residual. *)
Example scenario_D_validation :
  validate_match Config
    (manual_match scenario_D_revenue
       [scenario_D_expense_1; scenario_D_expense_2])
  = (false, "Match not balanced. Balance: 0.02").
Proof. by vm_compute. Qed.

(** Had the revenue of Scenario A another position, the same request
    would be confirmed, and both rows stamped with the first group id. *)
Example position_9_confirmed :
  let out := confirm_match Config no_similarity position_9_session
               position_9_request in
  success out.2 = true
  ∧ remaining_reviews out.2 = Some 0%nat
  ∧ (match_group_id <$> s_updated_df out.1)
    = [Some "MG_0000"; Some "MG_0000"].
Proof. repeat split; by vm_compute. Qed.

Example dp_small :
  find_expense_combinations_dp (Float.lit (5 # 100)) [two_cents; three_cents]
  = Returns (Some [three_cents; two_cents]).
Proof. by vm_compute. Qed.

(** The cents are those of the float product: 0.575 x 100 is a float just
    below 57.5, so a target of 0.575 is 57 cents, and of candidates of
    0.58 and 0.57 the second is picked. *)
Example dp_half_cent :
  to_cents (Float.lit (575 # 1000)) = 57%Z
  ∧ find_expense_combinations_dp (Float.lit (575 # 1000))
      [F64.row 8 (- (58 # 100)) "pen"; F64.row 9 (- (57 # 100)) "ink"]
    = Returns (Some [F64.row 9 (- (57 # 100)) "ink"])
  ∧ find_expense_combinations_dp (Float.lit (575 # 1000))
      [F64.row 8 (- (58 # 100)) "pen"]
    = Returns None.
Proof. repeat split; by vm_compute. Qed.

Example format_2f_examples :
  Py.format_2f (2 # 100) = "0.02" ∧ Py.format_2f (- (12345 # 1000)) = "-12.34"
  ∧ Py.format_2f (- (1 # 1000)) = "-0.00" ∧ Py.format_04d 12 = "0012".
Proof. repeat split; by vm_compute. Qed.

Example text_examples :
  Py.split "  ab  c d " = ["ab"; "c"; "d"]
  ∧ Py.strip (Py.lower "  Acme Invoice 123 ") = "acme invoice 123"
  ∧ extract_keywords Config "Consulting fee: Acme Corp, invoice #12"
    = {["consulting"; "fee"; "acme"; "corp"]}
  ∧ Py.combinations [1; 2; 3]%nat 2 = [[1; 2]; [1; 3]; [2; 3]]%nat.
Proof. repeat split; by vm_compute. Qed.

(** * Further properties *)

(** ** Every automatic group is balanced *)

Lemma sum_singleton (x : Q) : Py.sum [x] == x.
Proof. unfold Py.sum. simpl. ring. Qed.

Lemma sum_cons (x : Q) xs : Py.sum (x :: xs) == x + Py.sum xs.
Proof. rewrite !sum_foldr. simpl. reflexivity. Qed.

Lemma sum_app (xs ys : list Q) : Py.sum (xs ++ ys) == Py.sum xs + Py.sum ys.
Proof.
  induction xs as [| x xs IH]; simpl.
  - unfold Py.sum at 2. simpl. ring.
  - rewrite !sum_cons, IH. ring.
Qed.

Lemma sum_fmap_opp {A} (f g : A → Q) (l : list A) :
  (∀ x, x ∈ l → f x == - g x) →
  Py.sum (f <$> l) == - Py.sum (g <$> l).
Proof.
  induction l as [| x l IH]; intros Hfg.
  - reflexivity.
  - rewrite !fmap_cons, !sum_cons, IH by (intros y Hy; apply Hfg; by right).
    rewrite Hfg by left. ring.
Qed.

Lemma sum_fmap_ext {A} (f g : A → Q) (l : list A) :
  (∀ x, x ∈ l → f x == g x) →
  Py.sum (f <$> l) == Py.sum (g <$> l).
Proof.
  induction l as [| x l IH]; intros Hfg.
  - reflexivity.
  - rewrite !fmap_cons, !sum_cons, IH by (intros y Hy; apply Hfg; by right).
    rewrite Hfg by left. reflexivity.
Qed.

Section Balanced.

Variable cfg : config.
Variable token_sort_ratio : string → string → Z.

Lemma ranked_search_within target ranked chosen :
  ranked_search cfg target ranked = Some chosen →
  total_within cfg target chosen.
Proof.
  unfold ranked_search.
  destruct (list_find (single_within cfg target) ranked)
    as [[i pe] |] eqn:Hs.
  - intros [= <-]. apply list_find_Some in Hs as (_ & Hw & _).
    unfold total_within, single_within in *. cbn [fmap list_fmap].
    by rewrite sum_singleton.
  - destruct (list_find (total_within cfg target) _) as [[i c] |] eqn:Hc;
      [| done].
    intros [= <-]. by apply list_find_Some in Hc as (_ & Hw & _).
Qed.

Lemma find_best_balanced rv cands g :
  _find_best_expense_combination cfg rv cands = Some g →
  abs_balanced cfg rv g.
Proof.
  intros (chosen & Hrs & _ & Hrv & He & _ & Hkind)%find_best_Some.
  apply ranked_search_within in Hrs.
  split; [done |]. split.
  - rewrite He. destruct chosen; [| done].
    simpl in Hkind. destruct Hkind as [[_ ?] | [_ ?]]; lia.
  - rewrite He, <- list_fmap_compose. exact Hrs.
Qed.

Lemma exact_step_balanced pool_e st rv :
  exact_match_scan cfg rv pool_e st = st
  ∨ ∃ g, exact_match_scan cfg rv pool_e st = commit st rv g
         ∧ abs_balanced cfg rv g
         ∧ expenses g ⊆+ pool_e.
Proof.
  rewrite exact_match_scan_find.
  destruct (list_find _ pool_e) as [[i e] |] eqn:Hf; [| by left].
  right. exists (exact_group rv e). split; [done |].
  apply list_find_Some in Hf as (Hi & [_ [Hw _]] & _).
  split.
  - split; [done |]. split; [done |]. simpl. by rewrite sum_singleton.
  - simpl. apply singleton_submseteq_l. by eapply list_elem_of_lookup_2.
Qed.

Lemma solve_and_commit_balanced st rv cands pool_e :
  expense <$> cands `sublist_of` pool_e →
  solve_and_commit cfg st rv cands = st
  ∨ ∃ g, solve_and_commit cfg st rv cands = commit st rv g
         ∧ abs_balanced cfg rv g
         ∧ expenses g ⊆+ pool_e.
Proof.
  intros Hsub.
  destruct (solve_and_commit_cases cfg st rv cands)
    as [-> | (g & Hg & ->)]; [by left |].
  right. exists g. split; [done |].
  split; [by eapply find_best_balanced |].
  apply find_best_Some in Hg as (chosen & _ & Hch & _ & -> & _).
  etransitivity; [| apply sublist_submseteq, Hsub].
  apply fmap_submseteq.
  rewrite <- (sort_reverse_Permutation keyword_score cands).
  by apply sublist_submseteq.
Qed.

Lemma keyword_step_balanced k pool_e st rv :
  keyword_match_step cfg k pool_e st rv = st
  ∨ ∃ g, keyword_match_step cfg k pool_e st rv = commit st rv g
         ∧ abs_balanced cfg rv g
         ∧ expenses g ⊆+ pool_e.
Proof.
  unfold keyword_match_step. destruct (size _ <? k)%nat; [by left |].
  apply solve_and_commit_balanced.
  etransitivity; [apply keyword_candidates_sublist | apply drop_ids_sublist].
Qed.

Lemma fuzzy_step_balanced pool_e st rv :
  fuzzy_match_step cfg token_sort_ratio pool_e st rv = st
  ∨ ∃ g, fuzzy_match_step cfg token_sort_ratio pool_e st rv = commit st rv g
         ∧ abs_balanced cfg rv g
         ∧ expenses g ⊆+ pool_e.
Proof.
  unfold fuzzy_match_step. apply solve_and_commit_balanced.
  etransitivity; [apply fuzzy_candidates_sublist | apply drop_ids_sublist].
Qed.

(** The groups of a stage whose steps commit balanced groups. *)
Lemma stage_groups_balanced step pool_e pool_r g :
  (∀ st rv, step st rv = st
            ∨ ∃ g, step st rv = commit st rv g
                   ∧ abs_balanced cfg rv g ∧ expenses g ⊆+ pool_e) →
  g ∈ matches (foldl step stage_init pool_r) →
  ∃ rv, rv ∈ pool_r ∧ abs_balanced cfg rv g ∧ expenses g ⊆+ pool_e.
Proof.
  intros Hstep Hg.
  apply (stage_groups (λ rv g, abs_balanced cfg rv g ∧ expenses g ⊆+ pool_e))
    in Hg as [Hg | Hg]; [by apply elem_of_nil in Hg | done | done].
Qed.

Lemma auto_match_all_stages df :
  let e0 := filter (λ t, transaction_type t = Expense) df in
  let r0 := filter (λ t, transaction_type t = Revenue) df in
  let s1 := exact_match cfg e0 r0 in
  let s2 := keyword_match cfg s1.1.2 s1.2 in
  let s3 := fuzzy_match cfg token_sort_ratio s2.1.2 s2.2 in
  auto_match_all cfg token_sort_ratio df
  = (s1.1.1 ++ s2.1.1 ++ s3.1.1, s3.1.2, s3.2).
Proof.
  intros e0 r0 s1 s2 s3.
  unfold auto_match_all. subst s3 s2 s1 e0 r0.
  destruct (exact_match cfg _ _) as [[m1 e1] r1]. cbn [fst snd].
  destruct (keyword_match cfg e1 r1) as [[m2 e2] r2]. cbn [fst snd].
  destruct (fuzzy_match cfg _ e2 r2) as [[m3 e3] r3]. simpl.
  by rewrite <- app_assoc.
Qed.

(** Every group of the cascade pairs a revenue row of the table with
    expense rows of the table, balanced on their absolute amounts. *)
Lemma auto_match_all_balanced df g :
  g ∈ (auto_match_all cfg token_sort_ratio df).1.1 →
  ∃ rv, rv ∈ filter (λ t, transaction_type t = Revenue) df
        ∧ abs_balanced cfg rv g
        ∧ expenses g ⊆+ filter (λ t, transaction_type t = Expense) df.
Proof.
  rewrite auto_match_all_stages. cbn [fst snd].
  set (e0 := filter (λ t, transaction_type t = Expense) df).
  set (r0 := filter (λ t, transaction_type t = Revenue) df).
  set (s1 := exact_match cfg e0 r0).
  set (s2 := keyword_match cfg s1.1.2 s1.2).
  set (s3 := fuzzy_match cfg token_sort_ratio s2.1.2 s2.2).
  assert (He1 : s1.1.2 `sublist_of` e0) by apply drop_ids_sublist.
  assert (Hr1 : s1.2 `sublist_of` r0) by apply drop_ids_sublist.
  assert (He2 : s2.1.2 `sublist_of` s1.1.2) by apply drop_ids_sublist.
  assert (Hr2 : s2.2 `sublist_of` s1.2) by apply drop_ids_sublist.
  rewrite !elem_of_app. intros [Hg | [Hg | Hg]].
  - apply (stage_groups_balanced
             (λ st rv, exact_match_scan cfg rv e0 st) e0 r0) in Hg;
      [done |].
    intros st rv. apply exact_step_balanced.
  - apply (stage_groups_balanced (keyword_match_step cfg 2 s1.1.2)
             s1.1.2 s1.2) in Hg as (rv & Hrv & Hb & Hsel);
      [| intros st rv; apply keyword_step_balanced].
    exists rv. split; [by eapply elem_of_sublist | split; [done |]].
    etransitivity; [exact Hsel | by apply sublist_submseteq].
  - apply (stage_groups_balanced
             (fuzzy_match_step cfg token_sort_ratio s2.1.2)
             s2.1.2 s2.2) in Hg as (rv & Hrv & Hb & Hsel);
      [| intros st rv; apply fuzzy_step_balanced].
    exists rv. split.
    { eapply elem_of_sublist; [| exact Hr1].
      by eapply elem_of_sublist. }
    split; [done |].
    etransitivity; [exact Hsel |]. apply sublist_submseteq.
    by etransitivity.
Qed.

(** On rows whose type follows the sign of the amount, balance on the
    absolute amounts is balance on the signed ones. *)
Lemma abs_balanced_valid rv g :
  abs_balanced cfg rv g →
  well_formed_row rv → transaction_type rv = Revenue →
  (∀ e, e ∈ expenses g → well_formed_row e ∧ transaction_type e = Expense) →
  validate_match cfg g = (true, "Match is valid").
Proof.
  intros (Hrv & Hne & Hbal) [Habs Hsign] Htype Hexp.
  unfold validate_match. rewrite Hrv.
  destruct (expenses g) as [| e es] eqn:He; [done |].
  assert (Hb : is_balanced cfg g = true); [| by rewrite Hb].
  apply is_balanced_true. unfold calculate_match_balance.
  rewrite Hrv, He. simpl from_option.
  rewrite Htype in Hsign.
  assert (Hr : amount rv == abs_amount rv).
  { rewrite Habs. symmetry. apply Qabs_pos. by apply Qlt_le_weak. }
  assert (Hs : Py.sum (amount <$> e :: es)
               == - Py.sum (abs_amount <$> e :: es)).
  { apply sum_fmap_opp. intros x Hx.
    destruct (Hexp x Hx) as [[Hxa Hxs] Hxt]. rewrite Hxt in Hxs.
    rewrite Hxa, Qabs_neg by (by apply Qlt_le_weak). ring. }
  rewrite Hr, Hs.
  eapply Qle_lt_trans; [| exact Hbal].
  rewrite <- (Qabs_opp (Py.sum _ - _)).
  apply Qle_lteq. right. apply Qabs_wd. ring.
Qed.

End Balanced.

(** ** Loops that collect the hits of a test *)

Lemma foldl_collect {A B} (P : A → Prop) `{!∀ x, Decision (P x)}
    (test : A → bool) (g : A → B) (l : list A) (acc : list B) :
  (∀ x, test x = true ↔ P x) →
  foldl (λ acc x, if test x then acc ++ [g x] else acc) acc l
  = acc ++ (g <$> filter P l).
Proof.
  intros Htest. revert acc.
  induction l as [| x l IH]; intros acc; simpl.
  - by rewrite app_nil_r.
  - rewrite IH, filter_cons. destruct (test x) eqn:Hx.
    + rewrite decide_True by (by apply Htest).
      by rewrite fmap_cons, <- app_assoc.
    + rewrite decide_False; [done |]. rewrite <- Htest. congruence.
Qed.

Lemma foldl_collect_nested {A B S} (P : A → Prop) `{!∀ x, Decision (P x)}
    (test : A → bool) (g : A → B) (F : S → list A) (sizes : list S)
    (acc : list B) :
  (∀ x, test x = true ↔ P x) →
  foldl (λ acc size,
           foldl (λ acc x, if test x then acc ++ [g x] else acc) acc (F size))
        acc sizes
  = acc ++ (g <$> filter P (concat (F <$> sizes))).
Proof.
  intros Htest. revert acc.
  induction sizes as [| s sizes IH]; intros acc; simpl.
  - by rewrite app_nil_r.
  - rewrite IH, (foldl_collect P) by done.
    by rewrite filter_app, fmap_app, app_assoc.
Qed.

(** Every selection of [k] entries of [l], kept in order, is a
    combination. *)
Lemma combinations_complete {A} (l c : list A) :
  c `sublist_of` l → c ∈ Py.combinations l (length c).
Proof.
  induction 1 as [| x c l Hsub IH | x c l Hsub IH]; simpl.
  - apply list_elem_of_singleton. done.
  - apply elem_of_app. left. by apply list_elem_of_fmap_2.
  - destruct c as [| y c]; simpl in *.
    + destruct l; simpl; apply list_elem_of_here.
    + apply elem_of_app. by right.
Qed.

Lemma combinations_iff {A} (l c : list A) k :
  c ∈ Py.combinations l k ↔ c `sublist_of` l ∧ length c = k.
Proof.
  split; [apply combinations_sublist |].
  intros [Hsub <-]. by apply combinations_complete.
Qed.

Lemma elem_of_range a b k : k ∈ Py.range a b ↔ (a <= k < b)%nat.
Proof. unfold Py.range. rewrite elem_of_seq. lia. Qed.

Lemma elem_of_concat {A} (x : A) (ls : list (list A)) :
  x ∈ concat ls ↔ ∃ l, x ∈ l ∧ l ∈ ls.
Proof.
  induction ls as [| l ls IH]; simpl.
  - split; [by intros ?%elem_of_nil |].
    by intros (l & _ & ?%elem_of_nil).
  - rewrite elem_of_app, IH. split.
    + intros [Hx | (l' & Hx & Hl')]; [exists l | exists l'];
        (split; [done |]); [left | by right].
    + intros (l' & Hx & [-> | Hl']%elem_of_cons); [by left |].
      right. by exists l'.
Qed.

(** Membership in an enumeration by sizes. *)
Lemma elem_of_combinations_sizes {A} (l c : list A) sizes :
  c ∈ concat (Py.combinations l <$> sizes)
  ↔ c `sublist_of` l ∧ length c ∈ sizes.
Proof.
  rewrite elem_of_concat. split.
  - intros (cs & Hc & Hcs). apply list_elem_of_fmap in Hcs as (k & -> & Hk).
    apply combinations_sublist in Hc as [Hsub <-]. done.
  - intros [Hsub Hk]. exists (Py.combinations l (length c)).
    split; [by apply combinations_complete | by apply list_elem_of_fmap_2].
Qed.

Section BalanceMore.

Variable cfg : config.

#[local] Abbreviation tol := (BALANCE_TOLERANCE cfg).

(** *** [find_expense_combinations] *)

Lemma find_expense_combinations_filter target es k :
  find_expense_combinations cfg target es k
  = filter (within_tolerance cfg target)
      (concat (Py.combinations es
                 <$> Py.range 1 (min (k + 1) (length es + 1)))).
Proof.
  unfold find_expense_combinations.
  etransitivity.
  - apply (foldl_collect_nested (within_tolerance cfg target)
             (λ combo, Py.Qltb (Qabs (combo_sum combo - target)) tol) id).
    intros combo. apply Qltb_lt.
  - by rewrite list_fmap_id.
Qed.

Lemma StronglySorted_sublist {A} (R : relation A) (l1 l2 : list A) :
  l1 `sublist_of` l2 → StronglySorted R l2 → StronglySorted R l1.
Proof.
  induction 1 as [| x l1 l2 Hsub IH | x l1 l2 Hsub IH]; intros Hs.
  - constructor.
  - apply StronglySorted_inv in Hs as [Hs Hall]. constructor; [by apply IH |].
    apply Forall_forall. intros y Hy.
    rewrite Forall_forall in Hall. apply Hall.
    by eapply elem_of_sublist.
  - apply StronglySorted_inv in Hs as [Hs _]. by apply IH.
Qed.

Lemma StronglySorted_const {A} (R : relation A) (l : list A) :
  (∀ x y, x ∈ l → y ∈ l → R x y) → StronglySorted R l.
Proof.
  induction l as [| x l IH]; intros HR; constructor.
  - apply IH. intros y z Hy Hz. apply HR; by right.
  - apply Forall_forall. intros y Hy. apply HR; [left | by right].
Qed.

(** An enumeration by increasing sizes lists smaller selections first. *)
Lemma combinations_sizes_sorted {A} (l : list A) a n :
  StronglySorted (λ c1 c2 : list A, (length c1 <= length c2)%nat)
    (concat (Py.combinations l <$> seq a n)).
Proof.
  revert a. induction n as [| n IH]; intros a; simpl; [constructor |].
  apply StronglySorted_app_2; [| | apply IH].
  - intros c1 c2 [_ H1]%combinations_sublist
      [_ H2]%elem_of_combinations_sizes.
    apply elem_of_seq in H2. lia.
  - apply StronglySorted_const.
    intros c1 c2 [_ H1]%combinations_sublist [_ H2]%combinations_sublist.
    lia.
Qed.

(** X10. The combinations found come smaller ones first, and there is
    none when there is no expense or when [max_combo_size] is 0. *)
Theorem find_expense_combinations_order target es k :
  StronglySorted (λ c1 c2 : list transaction, (length c1 <= length c2)%nat)
    (find_expense_combinations cfg target es k)
  ∧ find_expense_combinations cfg target [] k = []
  ∧ find_expense_combinations cfg target es 0 = [].
Proof.
  split; [| split].
  - rewrite find_expense_combinations_filter.
    eapply StronglySorted_sublist; [apply sublist_filter |].
    apply combinations_sizes_sorted.
  - rewrite find_expense_combinations_filter. simpl.
    by replace (min (k + 1) 1) with 1%nat by lia.
  - rewrite find_expense_combinations_filter.
    by replace (min (0 + 1) (length es + 1)) with 1%nat by lia.
Qed.

(** *** [validate_all_matches] *)

Lemma validate_all_matches_fold ms valid_matches invalid_matches :
  foldl
    (λ '(valid_matches, invalid_matches) m,
       let '(is_valid, message) := validate_match cfg m in
       if is_valid
       then (valid_matches ++ [m], invalid_matches)
       else (valid_matches, invalid_matches ++ [(m, message)]))
    (valid_matches, invalid_matches) ms
  = (valid_matches ++ filter (valid cfg) ms,
     invalid_matches
     ++ ((λ m, (m, (validate_match cfg m).2))
           <$> filter (λ m, ¬ valid cfg m) ms)).
Proof.
  revert valid_matches invalid_matches.
  induction ms as [| m ms IH]; intros vs ivs; simpl.
  - by rewrite !app_nil_r.
  - rewrite !filter_cons.
    destruct (decide (valid cfg m)) as [Hv | Hv].
    + rewrite decide_False by tauto. unfold valid in Hv.
      destruct (validate_match cfg m) as [b msg] eqn:Hm.
      simpl in Hv. subst b. by rewrite IH, <- app_assoc.
    + rewrite decide_True by done. unfold valid in Hv.
      destruct (validate_match cfg m) as [[] msg] eqn:Hm; [done |].
      by rewrite IH, fmap_cons, Hm, <- app_assoc.
Qed.

Lemma validate_all_matches_filter ms :
  validate_all_matches cfg ms
  = (filter (valid cfg) ms,
     (λ m, (m, (validate_match cfg m).2))
       <$> filter (λ m, ¬ valid cfg m) ms).
Proof. unfold validate_all_matches. by rewrite validate_all_matches_fold. Qed.

Lemma validate_all_matches_all_valid ms :
  Forall (valid cfg) ms → validate_all_matches cfg ms = (ms, []).
Proof.
  intros Hall. rewrite validate_all_matches_filter.
  rewrite filter_keep_all by done.
  rewrite filter_drop_all; [done |].
  eapply Forall_impl; [exact Hall |]. tauto.
Qed.

(** X11. [validate_all_matches] splits the list: the valid matches are
    those that pass [validate_match], the invalid ones those that fail
    it, both in the order of the list, and each invalid one carries the
    message of its failure. *)
Theorem validate_all_matches_split ms :
  let valid_matches := (validate_all_matches cfg ms).1 in
  let invalid_matches := (validate_all_matches cfg ms).2 in
  valid_matches = filter (λ m, (validate_match cfg m).1 = true) ms
  ∧ invalid_matches.*1 = filter (λ m, (validate_match cfg m).1 ≠ true) ms
  ∧ Forall (λ p, validate_match cfg p.1 = (false, p.2)) invalid_matches
  ∧ valid_matches ++ invalid_matches.*1 ≡ₚ ms.
Proof.
  rewrite validate_all_matches_filter. cbn [fst snd].
  rewrite <- list_fmap_compose.
  assert (Hfst : (fst ∘ (λ m, (m, (validate_match cfg m).2))
                    <$> filter (λ m, ¬ valid cfg m) ms)
                 = filter (λ m, ¬ valid cfg m) ms)
    by apply list_fmap_id.
  rewrite Hfst.
  split; [done |]. split; [done |]. split.
  - apply Forall_fmap, Forall_forall.
    intros m [Hm _]%list_elem_of_filter. simpl. unfold valid in Hm.
    destruct (validate_match cfg m) as [[] msg]; simpl in *; [done | done].
  - apply filter_app_complement.
Qed.

(** X12. Validating the valid matches again keeps them all: none of them
    is reported invalid. *)
Theorem validate_all_matches_again ms :
  validate_all_matches cfg (validate_all_matches cfg ms).1
  = ((validate_all_matches cfg ms).1, []).
Proof.
  apply validate_all_matches_all_valid.
  rewrite validate_all_matches_filter. cbn [fst].
  apply Forall_forall. by intros m [Hm _]%list_elem_of_filter.
Qed.

(** *** [calculate_total_balance] *)

Lemma total_balance_fold ms stats :
  let out := foldl (total_balance_step cfg) stats ms in
  total_matches out = total_matches stats
  ∧ balanced_matches out
    = (balanced_matches stats
       + length (filter (λ m, is_balanced cfg m = true) ms))%nat
  ∧ unbalanced_matches out
    = (unbalanced_matches stats
       + length (filter (λ m, is_balanced cfg m ≠ true) ms))%nat
  ∧ total_revenue out
    == total_revenue stats
       + Py.sum ((λ m, Qabs (from_option amount 0 (revenue m))) <$> ms)
  ∧ total_expenses out
    == total_expenses stats + Py.sum ((λ m, combo_sum (expenses m)) <$> ms)
  ∧ balance_discrepancies out
    = balance_discrepancies stats
      ++ (discrepancy_of <$> filter (λ m, is_balanced cfg m ≠ true) ms).
Proof.
  revert stats. induction ms as [| m ms IH]; intros stats.
  - simpl. rewrite !Nat.add_0_r, app_nil_r.
    repeat split; unfold Py.sum; simpl; ring.
  - cbn [foldl]. destruct (IH (total_balance_step cfg stats m))
      as (H1 & H2 & H3 & H4 & H5 & H6).
    cbv zeta. rewrite H1, H2, H3, H4, H5, H6. clear.
    rewrite !filter_cons, !fmap_cons, !sum_cons.
    unfold total_balance_step. cbn [total_matches balanced_matches
      unbalanced_matches total_revenue total_expenses balance_discrepancies].
    destruct (is_balanced cfg m) eqn:Hb.
    + rewrite decide_True, decide_False by congruence. simpl length.
      repeat split; try lia; ring.
    + rewrite decide_False, decide_True by congruence. simpl length.
      rewrite fmap_cons, <- app_assoc.
      repeat split; try lia; ring.
Qed.

Lemma calculate_total_balance_fields ms :
  let stats := calculate_total_balance cfg ms in
  total_matches stats = length ms
  ∧ balanced_matches stats
    = length (filter (λ m, is_balanced cfg m = true) ms)
  ∧ unbalanced_matches stats
    = length (filter (λ m, is_balanced cfg m ≠ true) ms)
  ∧ total_revenue stats
    == Py.sum ((λ m, Qabs (from_option amount 0 (revenue m))) <$> ms)
  ∧ total_expenses stats
    == Py.sum ((λ m, combo_sum (expenses m)) <$> ms)
  ∧ net_balance stats = total_revenue stats - total_expenses stats
  ∧ balance_discrepancies stats
    = discrepancy_of <$> filter (λ m, is_balanced cfg m ≠ true) ms.
Proof.
  unfold calculate_total_balance. cbv zeta.
  cbn [total_matches balanced_matches unbalanced_matches total_revenue
       total_expenses net_balance balance_discrepancies].
  match goal with
  | |- context [foldl _ ?s ms] =>
      destruct (total_balance_fold ms s) as (H1 & H2 & H3 & H4 & H5 & H6)
  end.
  cbv zeta in *. rewrite H1, H2, H3, H6.
  cbn [total_matches balanced_matches unbalanced_matches total_revenue
       total_expenses net_balance balance_discrepancies] in *.
  split; [done |]. split; [done |]. split; [done |].
  split; [rewrite H4; ring |]. split; [rewrite H5; ring |]. done.
Qed.

(** X13. The statistics of [calculate_total_balance] add up: every match
    is counted once, as balanced or as unbalanced; the discrepancies are
    the unbalanced matches, in the order of the list, each with its
    balance, which is not within the tolerance; and the net balance is
    the revenue total less the expense total. *)
Theorem calculate_total_balance_counts ms :
  let stats := calculate_total_balance cfg ms in
  total_matches stats = length ms
  ∧ (balanced_matches stats + unbalanced_matches stats)%nat = length ms
  ∧ length (balance_discrepancies stats) = unbalanced_matches stats
  ∧ d_match <$> balance_discrepancies stats
    = filter (λ m, is_balanced cfg m = false) ms
  ∧ Forall (λ d, d_balance d = calculate_match_balance (d_match d)
                 ∧ ¬ Qabs (d_balance d) < tol)
      (balance_discrepancies stats)
  ∧ net_balance stats = total_revenue stats - total_expenses stats.
Proof.
  destruct (calculate_total_balance_fields ms)
    as (H1 & H2 & H3 & _ & _ & H6 & H7).
  cbv zeta in *. rewrite H1, H2, H3, H6, H7. clear.
  split; [done |]. split.
  { induction ms as [| m ms IH]; [done |]. rewrite !filter_cons.
    destruct (decide (is_balanced cfg m = true)) as [Hb | Hb].
    - rewrite decide_False by tauto. simpl. lia.
    - rewrite decide_True by done. simpl. lia. }
  split; [by rewrite length_fmap |]. split.
  { rewrite <- list_fmap_compose.
    etransitivity; [apply list_fmap_id |].
    apply filter_ext_in. intros m _. by destruct (is_balanced cfg m). }
  split; [| done].
  apply Forall_fmap, Forall_forall.
  intros m [Hm _]%list_elem_of_filter. simpl. split; [done |].
  apply is_balanced_false. by destruct (is_balanced cfg m).
Qed.

Lemma valid_is_balanced m : valid cfg m → is_balanced cfg m = true.
Proof.
  unfold valid, validate_match.
  destruct (revenue m); [| done]. destruct (expenses m); [done |].
  by destruct (is_balanced cfg m).
Qed.

(** X14. Matches that pass [validate_match] are all counted as balanced:
    no unbalanced match and no discrepancy is reported for them. *)
Theorem calculate_total_balance_of_valid ms :
  Forall (λ m, (validate_match cfg m).1 = true) ms →
  let stats := calculate_total_balance cfg ms in
  balanced_matches stats = length ms
  ∧ unbalanced_matches stats = 0%nat
  ∧ balance_discrepancies stats = [].
Proof.
  intros Hall.
  destruct (calculate_total_balance_fields ms)
    as (_ & H2 & H3 & _ & _ & _ & H7).
  cbv zeta in *. rewrite H2, H3, H7.
  rewrite filter_keep_all, filter_drop_all; [done | |].
  - eapply Forall_impl; [exact Hall |]. intros m Hm Hb.
    apply Hb. by apply valid_is_balanced.
  - eapply Forall_impl; [exact Hall |]. intros m Hm.
    by apply valid_is_balanced.
Qed.

(** *** [_find_close_combinations] and [suggest_expense_combination] *)

Lemma take_min_length {A} (l : list A) n :
  take (min n (length l)) l = take n l.
Proof.
  destruct (decide (n <= length l)%nat) as [Hle | Hgt].
  - by replace (min n (length l)) with n by lia.
  - replace (min n (length l)) with (length l) by lia.
    rewrite firstn_all. symmetry. apply take_ge. lia.
Qed.

Lemma find_close_combinations_unfold target es n :
  _find_close_combinations target es n
  = take n
      (Py.sort_reverse score
         (close_suggestion target
            <$> filter (within_ten_percent target)
                  (concat (Py.combinations (take 10 es)
                             <$> Py.range 1 (min 6 (min 10 (length es) + 1)))))).
Proof.
  unfold _find_close_combinations. cbv zeta.
  rewrite take_min_length. f_equal. f_equal.
  apply (foldl_collect_nested (within_ten_percent target)
           (λ combo, Py.Qltb (Qabs (combo_sum combo - target))
                       (target * (1 # 10)))
           (close_suggestion target) (Py.combinations (take 10 es))
           (Py.range 1 (min 6 (min 10 (length es) + 1))) []).
  intros combo. apply Qltb_lt.
Qed.

(** Within ten percent of the target, the target is positive and the
    proximity score is above 0.9. *)
Lemma close_suggestion_score target combo :
  within_ten_percent target combo →
  0 < target
  ∧ score (close_suggestion target combo)
    = 1 - Qabs (combo_sum combo - target) / target
  ∧ 9 # 10 < score (close_suggestion target combo)
  ∧ score (close_suggestion target combo) <= 1.
Proof.
  unfold within_ten_percent, close_suggestion. cbn [score].
  set (d := Qabs (combo_sum combo - target)). intros Hw.
  assert (Hd : 0 <= d) by apply Qabs_nonneg.
  assert (Ht : 0 < target) by lra.
  assert (Hq1 : d / target < 1 # 10).
  { apply Qlt_shift_div_r; [done |]. lra. }
  assert (Hq0 : 0 <= d / target).
  { apply Qle_shift_div_l; [done |]. lra. }
  split; [done |].
  assert (Hs : py_max 0 (1 - d / target) = 1 - d / target).
  { unfold py_max.
    assert (Hpos : Py.Qltb 0 (1 - d / target) = true)
      by (apply Qltb_lt; lra).
    by rewrite Hpos. }
  rewrite Hs. split; [done |]. split; lra.
Qed.

Lemma find_close_combinations_member target es n s :
  s ∈ _find_close_combinations target es n →
  ∃ combo,
    s = close_suggestion target combo
    ∧ combo `sublist_of` take 10 es
    ∧ (1 <= length combo <= 5)%nat
    ∧ within_ten_percent target combo.
Proof.
  rewrite find_close_combinations_unfold.
  intros (i & Hi & _)%elem_of_take. apply list_elem_of_lookup_2 in Hi.
  rewrite sort_reverse_Permutation in Hi.
  apply list_elem_of_fmap in Hi as (combo & -> & Hc).
  apply list_elem_of_filter in Hc as [Hw Hc].
  apply elem_of_combinations_sizes in Hc as [Hsub Hlen].
  apply elem_of_range in Hlen.
  exists combo. split; [done |]. split; [done |]. split; [lia | done].
Qed.

Lemma find_close_combinations_sorted target es n :
  StronglySorted (λ a b, score b <= score a)
    (_find_close_combinations target es n).
Proof.
  rewrite find_close_combinations_unfold.
  eapply StronglySorted_sublist; [apply sublist_take |].
  apply (sort_reverse_sorted score).
Qed.

Lemma find_close_combinations_length target es n :
  (length (_find_close_combinations target es n) <= n)%nat.
Proof. rewrite find_close_combinations_unfold, length_take. lia. Qed.

(** X16. The approximate suggestions are at most [top_n], sorted by
    descending score, and there is none for a target that is not
    positive. *)
Theorem find_close_combinations_ranked target es n :
  (length (_find_close_combinations target es n) <= n)%nat
  ∧ StronglySorted (λ a b, score b <= score a)
      (_find_close_combinations target es n)
  ∧ (target <= 0 → _find_close_combinations target es n = []).
Proof.
  split; [apply find_close_combinations_length |].
  split; [apply find_close_combinations_sorted |].
  intros Ht.
  destruct (_find_close_combinations target es n) as [| s l] eqn:Hl;
    [done |].
  assert (Hs : s ∈ _find_close_combinations target es n)
    by (rewrite Hl; left).
  apply find_close_combinations_member in Hs as (combo & _ & _ & _ & Hw).
  apply close_suggestion_score in Hw as [Hpos _]. lra.
Qed.

(** X17. [suggest_expense_combination] returns at most [top_n]
    suggestions, sorted by descending score: first exact ones, of score
    1, for the first [top_n] combinations [find_expense_combinations]
    finds among at most five expenses, each with the total of its
    absolute amounts and the revenue amount less that total as balance;
    then, when there is room left, approximate ones, of score at most
    1. *)
Theorem suggest_expense_combination_ranked n revenue_amount es :
  let suggestions := suggest_expense_combination_top cfg n revenue_amount es in
  (length suggestions <= n)%nat
  ∧ StronglySorted (λ a b, score b <= score a) suggestions
  ∧ ∃ exact close,
      suggestions = exact ++ close
      ∧ sg_expenses <$> exact
        = take n (find_expense_combinations cfg revenue_amount es 5)
      ∧ Forall (λ s, sg_match_type s = "exact" ∧ score s = 1
                     ∧ total_amount s
                       = Py.sum ((λ exp, Qabs (amount exp)) <$> sg_expenses s)
                     ∧ sg_balance s = revenue_amount - total_amount s) exact
      ∧ Forall (λ s, sg_match_type s = "approximate" ∧ score s <= 1) close
      ∧ (close ≠ [] → (length exact < n)%nat).
Proof.
  unfold suggest_expense_combination_top. cbv zeta.
  set (exact := exact_suggestion revenue_amount
                  <$> take n (find_expense_combinations cfg revenue_amount
                                es 5)).
  set (close := _find_close_combinations revenue_amount es
                  (n - length exact)).
  assert (Hlen : (length exact <= n)%nat).
  { subst exact. rewrite length_fmap, length_take. lia. }
  assert (Hexact : Forall (λ s, sg_match_type s = "exact" ∧ score s = 1
                                ∧ total_amount s
                                  = Py.sum ((λ exp, Qabs (amount exp))
                                              <$> sg_expenses s)
                                ∧ sg_balance s
                                  = revenue_amount - total_amount s) exact).
  { subst exact. apply Forall_fmap, Forall_forall. by intros combo _. }
  assert (Hclose : Forall (λ s, sg_match_type s = "approximate"
                                ∧ score s <= 1) close).
  { apply Forall_forall. intros s Hs.
    apply find_close_combinations_member in Hs as (combo & -> & _ & _ & Hw).
    apply close_suggestion_score in Hw as (_ & _ & _ & H1). done. }
  assert (Hsorted : StronglySorted (λ a b, score b <= score a)
                      (exact ++ close)).
  { apply StronglySorted_app_2.
    - intros a b Ha Hb. rewrite Forall_forall in Hexact, Hclose.
      destruct (Hexact a Ha) as (_ & -> & _).
      by destruct (Hclose b Hb).
    - apply StronglySorted_const. intros a b Ha Hb.
      rewrite Forall_forall in Hexact.
      destruct (Hexact a Ha) as (_ & -> & _).
      destruct (Hexact b Hb) as (_ & -> & _). apply Qle_refl.
    - apply find_close_combinations_sorted. }
  assert (Hmap : sg_expenses <$> exact
                 = take n (find_expense_combinations cfg revenue_amount es 5)).
  { subst exact. rewrite <- list_fmap_compose. apply list_fmap_id. }
  destruct (length exact <? n)%nat eqn:Hroom.
  - apply Nat.ltb_lt in Hroom.
    split.
    { rewrite length_app.
      pose proof (find_close_combinations_length revenue_amount es
                    (n - length exact)). fold close in H. lia. }
    split; [done |]. exists exact, close. done.
  - split; [done |]. split.
    { rewrite <- (app_nil_r exact).
      apply StronglySorted_app_2; [by intros a b _ ?%elem_of_nil | |].
      - by apply StronglySorted_app_1_l in Hsorted.
      - constructor. }
    exists exact, []. rewrite app_nil_r. done.
Qed.



End BalanceMore.

(** ** The groups of the automatic stages *)

Lemma length_pos_Q {A} (xs : list A) :
  xs ≠ [] → 0 < inject_Z (Z.of_nat (length xs)).
Proof.
  intros Hne. destruct xs; [done |]. change 0 with (inject_Z 0).
  rewrite <- Zlt_Qlt. simpl. lia.
Qed.


Lemma mean_le (hi : Q) (xs : list Q) :
  xs ≠ [] → Forall (λ x, x <= hi) xs → mean xs <= hi.
Proof.
  intros Hne Hall. unfold mean.
  apply Qle_shift_div_r; [by apply length_pos_Q |]. clear Hne.
  induction Hall as [| x xs Hlo _ IH].
  - simpl. apply Qle_lteq. right. ring.
  - cbn [foldr length]. rewrite Nat2Z.inj_succ, <- Z.add_1_r.
    rewrite inject_Z_plus. change (inject_Z 1) with 1. lra.
Qed.

Lemma mean_pos (xs : list Q) :
  xs ≠ [] → Forall (λ x, 0 < x) xs → 0 < mean xs.
Proof.
  intros Hne Hall. unfold mean.
  apply Qlt_shift_div_l; [by apply length_pos_Q |].
  destruct Hall as [| x xs Hx Hall]; [done |]. clear Hne.
  assert (Hrest : 0 <= foldr Qplus 0 xs).
  { induction Hall as [| y ys Hy _ IH]; simpl; [apply Qle_refl | lra]. }
  simpl. lra.
Qed.

Section Groups.

Variable cfg : config.
Variable token_sort_ratio : string → string → Z.

#[local] Abbreviation tol := (BALANCE_TOLERANCE cfg).

(** A property of the candidates' expenses holds of the members of a
    solve. *)
Lemma find_best_member_prop (P : transaction → Prop) rv cands g :
  (∀ pe, pe ∈ cands → P (expense pe)) →
  _find_best_expense_combination cfg rv cands = Some g →
  ∀ e, e ∈ expenses g → P e.
Proof.
  intros HP (chosen & _ & Hsub & _ & -> & _)%find_best_Some e He.
  apply list_elem_of_fmap in He as (pe & -> & Hpe). apply HP.
  rewrite <- (sort_reverse_Permutation keyword_score cands).
  by eapply elem_of_sublist.
Qed.

(** X1. Every group of [auto_match_all] pairs a revenue row of the
    table, of type revenue, with at least one expense row of the table,
    its expenses being rows of type expense, each taken from the table
    at most once in the group. *)
Theorem auto_match_all_groups_rows df g :
  g ∈ (auto_match_all cfg token_sort_ratio df).1.1 →
  ∃ rv,
    revenue g = Some rv
    ∧ rv ∈ df ∧ transaction_type rv = Revenue
    ∧ expenses g ≠ []
    ∧ expenses g ⊆+ df
    ∧ Forall (λ e, transaction_type e = Expense) (expenses g).
Proof.
  intros (rv & Hrv & (Hrev & Hne & Hbal) & Hsel)%auto_match_all_balanced.
  apply list_elem_of_filter in Hrv as [Htype Hin].
  exists rv. split; [done |]. split; [done |]. split; [done |].
  split; [done |]. split.
  { etransitivity; [exact Hsel |]. apply sublist_submseteq, sublist_filter. }
  apply Forall_forall. intros e He.
  eapply elem_of_submseteq in He; [| exact Hsel].
  by apply list_elem_of_filter in He as [? _].
Qed.

(** X2. On a table whose rows have the type of the sign of their amount
    and the absolute amount of their amount, as [process_transactions]
    writes them, every group of [auto_match_all] passes
    [validate_match]. *)
Theorem auto_match_all_groups_valid df g :
  Forall well_formed_row df →
  g ∈ (auto_match_all cfg token_sort_ratio df).1.1 →
  validate_match cfg g = (true, "Match is valid").
Proof.
  intros Hdf (rv & Hrv & Hbal & Hsel)%auto_match_all_balanced.
  rewrite Forall_forall in Hdf.
  apply list_elem_of_filter in Hrv as [Htype Hin].
  apply (abs_balanced_valid cfg rv g); [done | by apply Hdf | done |].
  intros e He. eapply elem_of_submseteq in He; [| exact Hsel].
  apply list_elem_of_filter in He as [? ?]. split; [by apply Hdf | done].
Qed.



Lemma overlap_score_bounds (rk ek : gset string) :
  (1 <= size (rk ∩ ek))%nat →
  0 < overlap_score rk ek ∧ overlap_score rk ek <= 1.
Proof.
  intros Hshared. unfold overlap_score.
  assert (Hle : (size (rk ∩ ek) <= max (size rk) (size ek))%nat).
  { etransitivity; [apply subseteq_size, intersection_subseteq_l |]. lia. }
  set (s := size (rk ∩ ek)) in *. set (m := max (size rk) (size ek)) in *.
  assert (Hm : 0 < inject_Z (Z.of_nat m)).
  { change 0 with (inject_Z 0). rewrite <- Zlt_Qlt. lia. }
  assert (Hs : 0 < inject_Z (Z.of_nat s)).
  { change 0 with (inject_Z 0). rewrite <- Zlt_Qlt. lia. }
  assert (Hsm : inject_Z (Z.of_nat s) <= inject_Z (Z.of_nat m)).
  { rewrite <- Zle_Qle. lia. }
  split.
  - apply Qlt_shift_div_l; [done |]. lra.
  - apply Qle_shift_div_r; [done |]. lra.
Qed.

Lemma keyword_step_members k pool_e st rv :
  keyword_match_step cfg k pool_e st rv = st
  ∨ ∃ g, keyword_match_step cfg k pool_e st rv = commit st rv g
         ∧ (revenue g = Some rv
            ∧ expenses g ≠ []
            ∧ (∀ e, e ∈ expenses g →
                 e ∈ pool_e
                 ∧ (k <= size (extract_keywords cfg (description rv)
                               ∩ extract_keywords cfg (description e)))%nat)
            ∧ confidence g
              == mean ((λ e, overlap_score
                               (extract_keywords cfg (description rv))
                               (extract_keywords cfg (description e)))
                         <$> expenses g)).
Proof.
  unfold keyword_match_step. destruct (size _ <? k)%nat; [by left |].
  set (rk := extract_keywords cfg (description rv)).
  set (cands := keyword_candidates cfg rk k pool_e (matched_expense_ids st)).
  destruct (solve_and_commit_cases cfg st rv cands)
    as [-> | (g & Hg & ->)]; [by left |].
  right. exists g. split; [done |].
  pose proof (find_best_balanced cfg rv cands g Hg) as (_ & Hne & _).
  pose proof (find_best_member_prop
                (λ e, e ∈ pool_e
                      ∧ (k <= size (rk ∩ extract_keywords cfg
                                           (description e)))%nat)
                rv cands g) as Hmem.
  apply (find_best_members cfg rv _ g
           (λ e, overlap_score rk (extract_keywords cfg (description e))))
    in Hg as Hg'.
  2: { intros pe Hpe. apply keyword_candidates_score in Hpe as [Hs _].
       exact Hs. }
  destruct Hg' as (Hrv & _ & Hconf & _).
  split; [done |]. split; [done |]. split; [| done].
  apply Hmem; [| done]. intros pe Hpe. split.
  - eapply elem_of_sublist; [| apply drop_ids_sublist].
    eapply elem_of_sublist; [| apply keyword_candidates_sublist].
    by apply list_elem_of_fmap_2.
  - by apply keyword_candidates_score in Hpe as [_ Hk].
Qed.

(** X4. In every group of the Keyword stage each expense is a row of
    the pool that shares at least two keywords with the revenue of the
    group, so the overlap scores divide by a count of at least two; and
    the confidence of the group is positive and at most 1. *)
Theorem keyword_match_confidence_bounds pool_e pool_r g :
  g ∈ (keyword_match cfg pool_e pool_r).1.1 →
  ∃ rv,
    rv ∈ pool_r ∧ revenue g = Some rv
    ∧ (let rk := extract_keywords cfg (description rv) in
       ∀ e, e ∈ expenses g →
         let ek := extract_keywords cfg (description e) in
         e ∈ pool_e
         ∧ (2 <= size (rk ∩ ek))%nat
         ∧ (2 <= max (size rk) (size ek))%nat)
    ∧ 0 < confidence g ∧ confidence g <= 1.
Proof.
  unfold keyword_match, keyword_match_with. simpl. intros Hg.
  apply (stage_groups
           (λ rv g,
              revenue g = Some rv
              ∧ expenses g ≠ []
              ∧ (∀ e, e ∈ expenses g →
                   e ∈ pool_e
                   ∧ (2 <= size (extract_keywords cfg (description rv)
                                 ∩ extract_keywords cfg (description e)))%nat)
              ∧ confidence g
                == mean ((λ e, overlap_score
                                 (extract_keywords cfg (description rv))
                                 (extract_keywords cfg (description e)))
                           <$> expenses g)))
    in Hg as [Hg | (rv & Hin & Hrv & Hne & Hmem & Hconf)].
  - by apply elem_of_nil in Hg.
  - exists rv. split; [done |]. split; [done |]. split.
    { cbv zeta. intros e He. destruct (Hmem e He) as [Hpool Hshared].
      split; [done |]. split; [done |].
      etransitivity; [exact Hshared |].
      etransitivity; [apply subseteq_size, intersection_subseteq_l |]. lia. }
    rewrite Hconf. split.
    + apply mean_pos; [by destruct (expenses g) |].
      apply Forall_fmap, Forall_forall. intros e He. simpl.
      apply overlap_score_bounds. destruct (Hmem e He) as [_ ?]. lia.
    + apply mean_le; [by destruct (expenses g) |].
      apply Forall_fmap, Forall_forall. intros e He. simpl.
      apply overlap_score_bounds. destruct (Hmem e He) as [_ ?]. lia.
  - intros st rv. apply keyword_step_members.
Qed.

End Groups.

(** ** Stamping the table *)

Lemma stamp_mark idx id c df :
  stamp idx id c df
  = (λ row, if bool_decide (original_index row = idx)
            then mark id c row else row) <$> df.
Proof. done. Qed.

Lemma mark_mark id c id' c' row :
  mark id c (mark id' c' row) = mark id c row.
Proof. done. Qed.

(** The writes for the expenses of a group. *)
Lemma stamp_expenses id c (es : list transaction) df :
  foldl (λ df_copy exp, stamp (original_index exp) id c df_copy) df es
  = (λ row, if bool_decide (original_index row ∈ original_index <$> es)
            then mark id c row else row) <$> df.
Proof.
  revert df. induction es as [| e es IH]; intros df.
  - simpl. symmetry. etransitivity; [| apply list_fmap_id].
    by apply list_fmap_ext.
  - cbn [foldl]. rewrite IH, stamp_mark, <- list_fmap_compose.
    apply list_fmap_ext. intros i row _. simpl.
    destruct (decide (original_index row = original_index e)) as [He | He].
    + rewrite (bool_decide_eq_true_2 _ He). simpl.
      rewrite (bool_decide_eq_true_2 (_ ∈ _ :: _))
        by (rewrite He; left).
      by destruct (bool_decide _).
    + rewrite (bool_decide_eq_false_2 _ He).
      destruct (decide (original_index row ∈ original_index <$> es))
        as [Hes | Hes].
      * rewrite !bool_decide_eq_true_2; [done | by right | done].
      * rewrite !bool_decide_eq_false_2; [done | | done].
        by intros [? | ?]%elem_of_cons.
Qed.

(** The writes for one group: the rows it refers to are marked. *)
Lemma stamp_group k m df :
  foldl (λ df_copy exp,
           stamp (original_index exp) (calculate_match_group_id k)
             (confidence m) df_copy)
    match revenue m with
    | Some revenue =>
        stamp (original_index revenue) (calculate_match_group_id k)
          (confidence m) df
    | None => df
    end (expenses m)
  = (λ row, if bool_decide (original_index row ∈ group_ids m)
            then mark (calculate_match_group_id k) (confidence m) row
            else row) <$> df.
Proof.
  rewrite stamp_expenses. unfold group_ids, group_rows.
  destruct (revenue m) as [r |]; simpl; [| done].
  rewrite stamp_mark, <- list_fmap_compose.
  apply list_fmap_ext. intros i row _. simpl.
  destruct (decide (original_index row = original_index r)) as [Hr | Hr].
  - rewrite (bool_decide_eq_true_2 _ Hr). simpl.
    rewrite (bool_decide_eq_true_2 (_ ∈ _ :: _)) by (rewrite Hr; left).
    by destruct (bool_decide _).
  - rewrite (bool_decide_eq_false_2 _ Hr).
    destruct (decide (original_index row ∈ original_index <$> expenses m))
      as [Hes | Hes].
    + rewrite !bool_decide_eq_true_2; [done | by right | done].
    + rewrite !bool_decide_eq_false_2; [done | | done].
      by intros [? | ?]%elem_of_cons.
Qed.

Lemma assign_match_groups_snoc df ms m :
  assign_match_groups df (ms ++ [m])
  = (λ row, if bool_decide (original_index row ∈ group_ids m)
            then mark (calculate_match_group_id (length ms)) (confidence m)
                   row
            else row) <$> assign_match_groups df ms.
Proof.
  unfold assign_match_groups. rewrite imap_app, foldl_app. simpl.
  rewrite Nat.add_0_r. apply stamp_group.
Qed.

Lemma last_group_of_snoc ms m i :
  last_group_of (ms ++ [m]) i
  = if bool_decide (i ∈ group_ids m) then Some (length ms, m)
    else last_group_of ms i.
Proof.
  unfold last_group_of. rewrite imap_app, filter_app. simpl.
  rewrite Nat.add_0_r, filter_cons, filter_nil. simpl.
  case_bool_decide as Hi.
  - rewrite decide_True by done. apply last_snoc.
  - rewrite decide_False by done. by rewrite app_nil_r.
Qed.

Lemma stamped_by_index ms row :
  original_index (stamped_by ms row) = original_index row.
Proof.
  unfold stamped_by. by destruct (last_group_of _ _) as [[k m] |].
Qed.

(** Each row is left as the last group that refers to it marks it. *)
Lemma assign_match_groups_rows df ms :
  assign_match_groups df ms = stamped_by ms <$> df.
Proof.
  induction ms as [| m ms IH] using rev_ind.
  - unfold assign_match_groups. simpl. symmetry. apply list_fmap_id.
  - rewrite assign_match_groups_snoc, IH, <- list_fmap_compose.
    apply list_fmap_ext. intros i row _. unfold compose. cbv beta.
    rewrite stamped_by_index. unfold stamped_by at 3.
    rewrite last_group_of_snoc.
    case_bool_decide as Hi; [| done].
    unfold stamped_by. by destruct (last_group_of ms _) as [[k' m'] |].
Qed.

Lemma last_group_of_None ms i :
  last_group_of ms i = None ↔ i ∉ ms ≫= group_ids.
Proof.
  induction ms as [| x ms IH] using rev_ind.
  - split; [intros _; apply not_elem_of_nil | done].
  - rewrite last_group_of_snoc, bind_app, elem_of_app. simpl.
    rewrite app_nil_r. case_bool_decide as Hi.
    + split; [done | tauto].
    + rewrite IH. tauto.
Qed.

Lemma last_group_of_Some ms i k m :
  last_group_of ms i = Some (k, m)
  ↔ ms !! k = Some m ∧ i ∈ group_ids m
    ∧ ∀ k' m', (k < k')%nat → ms !! k' = Some m' → i ∉ group_ids m'.
Proof.
  revert k m. induction ms as [| x ms IH] using rev_ind; intros k m.
  - split; [done | by intros [? _]].
  - rewrite last_group_of_snoc. case_bool_decide as Hi.
    + split.
      * intros [= <- <-]. split; [by apply list_lookup_middle |].
        split; [done |]. intros k' m' Hk Hm'.
        apply lookup_lt_Some in Hm'. rewrite length_app in Hm'.
        simpl in Hm'. lia.
      * intros (Hk & Him & Hlater).
        destruct (decide (k = length ms)) as [-> | Hne].
        { rewrite list_lookup_middle in Hk by done. congruence. }
        exfalso. apply (Hlater (length ms) x); [| by apply list_lookup_middle
                                                 | done].
        apply lookup_lt_Some in Hk. rewrite length_app in Hk.
        simpl in Hk. lia.
    + rewrite IH. split.
      * intros (Hk & Him & Hlater).
        split; [by apply lookup_app_l_Some |]. split; [done |].
        intros k' m' Hlt Hm'.
        destruct (decide (k' = length ms)) as [-> | Hne].
        { rewrite list_lookup_middle in Hm' by done. congruence. }
        apply (Hlater k' m'); [done |].
        rewrite lookup_app_l in Hm'; [done |].
        apply lookup_lt_Some in Hm'. rewrite length_app in Hm'.
        simpl in Hm'. lia.
      * intros (Hk & Him & Hlater).
        assert (Hlt : (k < length ms)%nat).
        { destruct (decide (k = length ms)) as [-> | Hne].
          - rewrite list_lookup_middle in Hk by done. congruence.
          - apply lookup_lt_Some in Hk. rewrite length_app in Hk.
            simpl in Hk. lia. }
        rewrite lookup_app_l in Hk by done.
        split; [done |]. split; [done |].
        intros k' m' Hk' Hm'. apply (Hlater k' m'); [done |].
        by apply lookup_app_l_Some.
Qed.

Lemma stamped_by_same_data ms row : same_data row (stamped_by ms row).
Proof.
  unfold stamped_by. by destruct (last_group_of _ _) as [[k m] |].
Qed.

(** X19. [assign_match_groups] keeps the rows and their data: the result
    has the rows of the table, in order, with the same label, amount,
    description, type and absolute amount; only the status columns
    change. *)
Theorem assign_match_groups_keeps_data df ms :
  length (assign_match_groups df ms) = length df
  ∧ Forall2 (λ before after,
               original_index after = original_index before
               ∧ amount after = amount before
               ∧ description after = description before
               ∧ transaction_type after = transaction_type before
               ∧ abs_amount after = abs_amount before)
      df (assign_match_groups df ms).
Proof.
  rewrite assign_match_groups_rows. split; [by rewrite length_fmap |].
  apply Forall2_fmap_r, Forall_Forall2_diag, Forall_forall.
  intros row _. by destruct (stamped_by_same_data ms row) as (-> & -> & -> & -> & ->).
Qed.

(** X20. A row that no group refers to is left as it is. A row that
    groups refer to is marked as matched with the group id and the
    confidence of the last group of the list that refers to it. *)
Theorem assign_match_groups_last_wins df ms p row :
  df !! p = Some row →
  (original_index row ∉ ms ≫= (λ m, original_index <$> group_rows m) →
     assign_match_groups df ms !! p = Some row)
  ∧ (∀ k m,
       ms !! k = Some m →
       original_index row ∈ original_index <$> group_rows m →
       (∀ k' m', (k < k')%nat → ms !! k' = Some m' →
                 original_index row ∉ original_index <$> group_rows m') →
       assign_match_groups df ms !! p
       = Some {| original_index := original_index row;
                 amount := amount row;
                 description := description row;
                 transaction_type := transaction_type row;
                 abs_amount := abs_amount row;
                 match_status := "matched";
                 match_group_id := Some (calculate_match_group_id k);
                 match_confidence := Some (confidence m) |}).
Proof.
  intros Hrow. rewrite assign_match_groups_rows, list_lookup_fmap, Hrow.
  simpl. unfold stamped_by. split.
  - intros Hout. apply last_group_of_None in Hout. by rewrite Hout.
  - intros k m Hk Hin Hlater.
    assert (Hlast : last_group_of ms (original_index row) = Some (k, m))
      by (by apply last_group_of_Some).
    by rewrite Hlast.
Qed.

(** Stamping a stamped table again with groups that refer to every id the
    first groups referred to. *)
Lemma assign_match_groups_over df ms ms' :
  (∀ i, i ∈ ms ≫= group_ids → i ∈ ms' ≫= group_ids) →
  assign_match_groups (assign_match_groups df ms) ms'
  = assign_match_groups df ms'.
Proof.
  intros Hids. rewrite !assign_match_groups_rows, <- list_fmap_compose.
  apply list_fmap_ext. intros i row _. unfold compose.
  unfold stamped_by at 1 3. rewrite stamped_by_index.
  destruct (last_group_of ms' (original_index row)) as [[k m] |] eqn:Hl'.
  - unfold stamped_by. by destruct (last_group_of ms _) as [[k0 m0] |].
  - unfold stamped_by.
    destruct (last_group_of ms (original_index row)) as [[k0 m0] |] eqn:Hl;
      [| done].
    apply last_group_of_None in Hl'. destruct Hl'. apply Hids.
    apply last_group_of_Some in Hl as (Hk0 & Hin & _).
    apply list_elem_of_bind. exists m0. split; [done |].
    by eapply list_elem_of_lookup_2.
Qed.

(** X21. Stamping a table that is stamped already gives what stamping
    the unstamped table gives, when the new groups refer to every row
    the old ones referred to: as when [confirm_match] stamps the stored
    table again with the stored groups and a new one. *)
Theorem assign_match_groups_again df ms ms' :
  (∀ m, m ∈ ms → m ∈ ms') →
  assign_match_groups (assign_match_groups df ms) ms'
  = assign_match_groups df ms'.
Proof.
  intros Hsub. apply assign_match_groups_over. intros i Hi.
  apply list_elem_of_bind in Hi as (m & Hi & Hm).
  apply list_elem_of_bind. exists m. split; [done | by apply Hsub].
Qed.

(** The matched rows of a stamped table that was unmatched. *)
Lemma stamped_by_status ms row :
  match_status row = "unmatched" →
  (match_status (stamped_by ms row) = "matched"
   ↔ original_index row ∈ ms ≫= group_ids)
  ∧ (match_status (stamped_by ms row) = "unmatched"
     ↔ original_index row ∉ ms ≫= group_ids).
Proof.
  intros Hun. unfold stamped_by.
  destruct (last_group_of ms (original_index row)) as [[k m] |] eqn:Hl.
  - assert (Hin : original_index row ∈ ms ≫= group_ids).
    { apply last_group_of_Some in Hl as (Hk & Hin & _).
      apply list_elem_of_bind. exists m. split; [done |].
      by eapply list_elem_of_lookup_2. }
    simpl. split; split; done.
  - apply last_group_of_None in Hl. rewrite Hun. split; split; done.
Qed.

(** X22. Grouping by status a table that was unmatched and then stamped:
    nothing is pending; the unmatched rows are the rows of the table
    that no group refers to, as they were; the matched rows are the
    others; and the two groups together are the whole stamped table. *)
Theorem group_by_match_status_stamped df ms :
  Forall (λ t, match_status t = "unmatched") df →
  let grouped := group_by_match_status (assign_match_groups df ms) in
  let ids := ms ≫= (λ m, original_index <$> group_rows m) in
  sg_pending grouped = []
  ∧ sg_unmatched grouped = filter (λ t, original_index t ∉ ids) df
  ∧ original_index <$> sg_matched grouped
    = original_index <$> filter (λ t, original_index t ∈ ids) df
  ∧ sg_matched grouped ++ sg_unmatched grouped
    ≡ₚ assign_match_groups df ms.
Proof.
  intros Hun grouped ids. subst grouped. unfold group_by_match_status.
  cbn [sg_pending sg_unmatched sg_matched].
  rewrite assign_match_groups_rows.
  assert (Hrows : ∀ row, row ∈ df →
            (original_index row ∈ ids
             ∧ match_status (stamped_by ms row) = "matched")
            ∨ ((original_index row ∉ ids)
               ∧ stamped_by ms row = row
               ∧ match_status row = "unmatched")).
  { intros row Hrow. rewrite Forall_forall in Hun.
    pose proof (Hun row Hrow) as Hr.
    destruct (stamped_by_status ms row Hr) as [[_ H1] [H2 H3]].
    destruct (decide (original_index row ∈ ids)) as [Hin | Hout].
    - left. split; [done | by apply H1].
    - right. split; [done |]. split; [| done].
      unfold stamped_by.
      by rewrite (proj2 (last_group_of_None ms (original_index row)) Hout). }
  clear Hun. induction df as [| row df IH]; [done |].
  destruct IH as (IH1 & IH2 & IH3 & IH4).
  { intros r Hr. apply Hrows. by right. }
  rewrite fmap_cons, !filter_cons.
  destruct (Hrows row) as [[Hin Hst] | (Hout & Heq & Hst)]; [left | |].
  - rewrite Hst. repeat case_decide; try done.
    split; [done |]. split; [done |]. split.
    + rewrite !fmap_cons, IH3. by rewrite stamped_by_index.
    + cbn [app]. by rewrite IH4.
  - rewrite Heq, Hst. repeat case_decide; try done.
    split; [done |]. split; [by rewrite IH2 |]. split; [done |].
    by rewrite <- Permutation_middle, IH4.
Qed.

(** ** Keywords *)

Lemma lower_char_class c :
  let c' := Py.lower_char c in
  Py.isspace (if Py.isword c' || Py.isspace c' then c' else " "%char)
  || keyword_char (if Py.isword c' || Py.isspace c' then c' else " "%char)
  = true.
Proof. by destruct c as [[] [] [] [] [] [] [] []]. Qed.

Lemma lower_char_idemp c : Py.lower_char (Py.lower_char c) = Py.lower_char c.
Proof. by destruct c as [[] [] [] [] [] [] [] []]. Qed.

Lemma lower_idemp s : Py.lower (Py.lower s) = Py.lower s.
Proof.
  induction s as [| c s IH]; [done |]. simpl.
  by rewrite lower_char_idemp, IH.
Qed.

Lemma all_chars_snoc P w c :
  all_chars P (w +:+ String c "") = all_chars P w && P c.
Proof.
  induction w as [| d w IH]; simpl.
  - by rewrite andb_true_r.
  - change (String.append w (String c "")) with (w +:+ String c "").
    by rewrite IH, andb_assoc.
Qed.

(** The text the words are split from holds spaces and keyword
    characters only. *)
Lemma sub_lower_chars text :
  all_chars (λ c, Py.isspace c || keyword_char c)
    (Py.sub_nonword_space (Py.lower text)) = true.
Proof.
  induction text as [| c text IH]; [done |]. simpl.
  rewrite IH, andb_true_r. apply lower_char_class.
Qed.

(** The words of a split are not empty and hold no space. *)
Lemma split_from_chars (P : ascii → bool) s word :
  all_chars P word = true →
  all_chars (λ c, Py.isspace c || P c) s = true →
  Forall (λ w, w ≠ "" ∧ all_chars P w = true) (Py.split_from word s).
Proof.
  revert word. induction s as [| c s IH]; intros word Hw Hs; simpl.
  - destruct (String.eqb word "") eqn:He; [constructor |].
    apply String.eqb_neq in He. by repeat constructor.
  - simpl in Hs. apply andb_true_iff in Hs as [Hc Hs].
    destruct (Py.isspace c) eqn:Hsp.
    + destruct (String.eqb word "") eqn:He; [by apply IH |].
      apply String.eqb_neq in He. constructor; [done | by apply IH].
    + simpl in Hc. apply IH; [| done].
      by rewrite all_chars_snoc, Hw, Hc.
Qed.

Section Keywords.

Variable cfg : config.

(** X5. A keyword of a text of 7-bit ASCII characters is never a
    stopword and never shorter than the minimum keyword length, and it
    is made of lower-case letters, digits and underscores only: no
    upper-case letter, no space and no punctuation. *)
Theorem extract_keywords_members text word :
  isascii text = true →
  word ∈ extract_keywords cfg text →
  (word ∉ STOPWORDS cfg)
  ∧ (KEYWORD_MIN_LENGTH cfg <= String.length word)%nat
  ∧ word ≠ ""
  ∧ all_chars keyword_char word = true.
Proof.
  intros _.
  unfold extract_keywords. rewrite elem_of_list_to_set, list_elem_of_filter.
  intros [[Hstop Hlen] Hin]. unfold stopwords in Hstop.
  rewrite elem_of_list_to_set in Hstop.
  split; [done |]. split; [done |].
  pose proof (split_from_chars keyword_char
                (Py.sub_nonword_space (Py.lower text)) "" eq_refl
                (sub_lower_chars text)) as Hall.
  rewrite Forall_forall in Hall. by apply Hall.
Qed.

(** X6. The keywords of a text do not depend on the case of its
    letters: lower-casing the text first gives the same keywords. *)
Theorem extract_keywords_lower text :
  extract_keywords cfg (Py.lower text) = extract_keywords cfg text.
Proof. unfold extract_keywords. by rewrite lower_idemp. Qed.

End Keywords.

(** ** Processing the uploaded table *)

Lemma processed_row_well_formed r a : well_formed_row (processed_row r a).
Proof.
  unfold well_formed_row, processed_row. simpl. split; [reflexivity |].
  destruct (Py.Qltb a 0) eqn:Hneg; [by apply Qltb_lt |].
  destruct (Py.Qltb 0 a) eqn:Hpos; [by apply Qltb_lt |].
  apply Qltb_ge in Hneg, Hpos. by apply Qle_antisym.
Qed.

Lemma processed_row_type_Zero r a :
  transaction_type (processed_row r a) = Zero ↔ a == 0.
Proof.
  unfold processed_row. simpl.
  destruct (Py.Qltb a 0) eqn:Hneg.
  { apply Qltb_lt in Hneg. split; [done |]. intros H0. rewrite H0 in Hneg.
    by apply Qlt_irrefl in Hneg. }
  destruct (Py.Qltb 0 a) eqn:Hpos.
  { apply Qltb_lt in Hpos. split; [done |]. intros H0. rewrite H0 in Hpos.
    by apply Qlt_irrefl in Hpos. }
  apply Qltb_ge in Hneg, Hpos. split; [| done]. intros _.
  by apply Qle_antisym.
Qed.

Lemma omap_sublist_fmap {A B C} (f : A → option B) (g : B → C) (h : A → C)
    (l : list A) :
  (∀ x y, f x = Some y → g y = h x) →
  g <$> omap f l `sublist_of` h <$> l.
Proof.
  intros Hfg. induction l as [| x l IH]; [done |]. simpl.
  destruct (f x) as [y |] eqn:Hx; simpl.
  - rewrite (Hfg x y Hx). by apply sublist_skip.
  - by apply sublist_cons.
Qed.

(** The table [process_transactions] builds when both columns exist. *)
Lemma process_transactions_table columns rows ac dc :
  ac ∈ columns → dc ∈ columns →
  ∃ msg,
    process_transactions columns rows ac dc
    = (true, msg,
       Some (filter (λ t, transaction_type t ≠ Zero)
               (omap (λ r, processed_row r <$> amount_cell r) rows))).
Proof.
  intros Hac Hdc. unfold process_transactions.
  rewrite !bool_decide_eq_true_2 by done. simpl. eauto.
Qed.

(** X23. When both columns exist, [process_transactions] succeeds. Every
    row of its table comes from a row of the upload with a numeric,
    nonzero amount, in the order of the upload and under its label; it
    is an expense when the amount is negative and a revenue when it is
    positive, holds the absolute value of the amount and the trimmed
    description, and is unmatched, with no group and no confidence.
    No such row of the upload is left out. *)
Theorem process_transactions_rows columns rows ac dc :
  ac ∈ columns → dc ∈ columns →
  ∃ msg df,
    process_transactions columns rows ac dc = (true, msg, Some df)
    ∧ original_index <$> df `sublist_of` label <$> rows
    ∧ Forall (λ t,
                abs_amount t == Qabs (amount t)
                ∧ (transaction_type t = Expense ∧ amount t < 0
                   ∨ transaction_type t = Revenue ∧ 0 < amount t)
                ∧ match_status t = "unmatched"
                ∧ match_group_id t = None ∧ match_confidence t = None)
        df
    ∧ (∀ t, t ∈ df ↔
         ∃ r a, r ∈ rows ∧ amount_cell r = Some a ∧ ¬ a == 0
                ∧ original_index t = label r ∧ amount t = a
                ∧ description t = Py.strip (description_cell r)
                ∧ t = processed_row r a).
Proof.
  intros Hac Hdc.
  destruct (process_transactions_table columns rows ac dc Hac Hdc)
    as [msg Heq].
  eexists msg, _. split; [exact Heq |]. split; [| split].
  - etransitivity; [apply fmap_sublist, sublist_filter |].
    apply omap_sublist_fmap. intros r t Ht.
    destruct (amount_cell r) as [a |]; [| done].
    by injection Ht as <-.
  - apply Forall_forall. intros t [Hnz Ht]%list_elem_of_filter.
    apply list_elem_of_omap in Ht as (r & Hr & Ht).
    destruct (amount_cell r) as [a |]; [| done]. injection Ht as <-.
    destruct (processed_row_well_formed r a) as [Habs Hsign].
    split; [done |]. split; [| done].
    destruct (transaction_type (processed_row r a)); [by left | by right |].
    done.
  - intros t. rewrite list_elem_of_filter, list_elem_of_omap. split.
    + intros (Hnz & r & Hr & Ht).
      destruct (amount_cell r) as [a |] eqn:Ha; [| done].
      injection Ht as <-. exists r, a. rewrite processed_row_type_Zero in Hnz.
      done.
    + intros (r & a & Hr & Ha & Hnz & _ & _ & _ & ->). split.
      * by rewrite processed_row_type_Zero.
      * exists r. by rewrite Ha.
Qed.

(** X24. [process_transactions] fails, with no table, exactly when a
    selected column is missing: the amount column is checked first, and
    the message names the missing column. *)
Theorem process_transactions_missing_column columns rows ac dc :
  (ac ∉ columns →
     process_transactions columns rows ac dc
     = (false, "Amount column '" +:+ ac +:+ "' not found", None))
  ∧ (ac ∈ columns → dc ∉ columns →
     process_transactions columns rows ac dc
     = (false, "Description column '" +:+ dc +:+ "' not found", None))
  ∧ ((process_transactions columns rows ac dc).1.1 = true
     ↔ ac ∈ columns ∧ dc ∈ columns)
  ∧ ((process_transactions columns rows ac dc).2 = None
     ↔ ¬ (ac ∈ columns ∧ dc ∈ columns)).
Proof.
  unfold process_transactions.
  destruct (decide (ac ∈ columns)) as [Hac | Hac];
    [rewrite (bool_decide_eq_true_2 _ Hac)
    | rewrite (bool_decide_eq_false_2 _ Hac)];
    [destruct (decide (dc ∈ columns)) as [Hdc | Hdc];
       [rewrite (bool_decide_eq_true_2 _ Hdc)
       | rewrite (bool_decide_eq_false_2 _ Hdc)] |];
    simpl; repeat split; try done; try tauto.
Qed.

(** ** Summary statistics *)

Lemma sum_by_type df :
  Forall well_formed_row df →
  Py.sum (amount <$> df)
  == Py.sum (amount <$> filter (λ t, transaction_type t = Expense) df)
     + Py.sum (amount <$> filter (λ t, transaction_type t = Revenue) df)
  ∧ Py.sum (amount <$> filter (λ t, transaction_type t = Expense) df) <= 0
  ∧ 0 <= Py.sum (amount <$> filter (λ t, transaction_type t = Revenue) df).
Proof.
  induction 1 as [| t df [_ Hsign] _ (IH & IHe & IHr)].
  - unfold Py.sum. simpl. split; [ring |]. split; apply Qle_refl.
  - rewrite !filter_cons, fmap_cons, sum_cons.
    destruct (transaction_type t) eqn:Ht.
    + rewrite decide_True, decide_False by done.
      rewrite fmap_cons, sum_cons, IH. split; [ring |]. split; lra.
    + rewrite decide_False, decide_True by done.
      rewrite fmap_cons, sum_cons, IH. split; [ring |]. split; lra.
    + rewrite !decide_False by done. rewrite IH, Hsign.
      split; [ring |]. split; lra.
Qed.

Lemma length_filter_split {A} (P Q : A → Prop) `{!∀ x, Decision (P x)}
    `{!∀ x, Decision (Q x)} (l : list A) :
  Forall (λ x, (P x ∨ Q x) ∧ ¬ (P x ∧ Q x)) l →
  (length (filter P l) + length (filter Q l))%nat = length l.
Proof.
  induction 1 as [| x l [Hor Hnand] _ IH]; [done |].
  rewrite !filter_cons.
  destruct (decide (P x)), (decide (Q x)); simpl; try lia; tauto.
Qed.

(** X25. On a table whose rows have the type of the sign of their
    amount, the counts and the signs of the summary are consistent: the
    expense total and the revenue total are not negative; the expenses
    and the revenues are all the rows when no row has a zero amount; and
    the matched and the unmatched rows are all the rows when every row
    has one of these two statuses. *)
Theorem get_summary_statistics_consistent df :
  Forall well_formed_row df →
  let s := get_summary_statistics df in
  total_transactions s = length df
  ∧ 0 <= total_expense_amount s
  ∧ 0 <= total_revenue_amount s
  ∧ (Forall (λ t, transaction_type t ≠ Zero) df →
     (expense_count s + revenue_count s)%nat = total_transactions s)
  ∧ (Forall (λ t, match_status t = "matched" ∨ match_status t = "unmatched")
       df →
     (matched_count s + unmatched_count s)%nat = total_transactions s).
Proof.
  intros Hdf s. subst s. unfold get_summary_statistics. cbv zeta.
  cbn [summary_net_balance total_revenue_amount total_expense_amount
       expense_count revenue_count matched_count unmatched_count
       total_transactions].
  destruct (sum_by_type df Hdf) as (Hsum & Hexp & Hrev).
  split; [done |]. split; [apply Qabs_nonneg | split; [done | split]].
  - intros Hnz. apply length_filter_split.
    eapply Forall_impl; [exact Hnz |]. intros t Ht. simpl in *.
    split; [| intros [H1 H2]; congruence].
    destruct (transaction_type t); [by left | by right | by destruct Ht].
  - intros Hst. apply length_filter_split.
    eapply Forall_impl; [exact Hst |]. intros t Ht. simpl.
    split; [done |]. intros [H1 H2]. rewrite H1 in H2. done.
Qed.

(** ** The review queue *)

Lemma overlap_score_range (rk ek : gset string) :
  (0 < max (size rk) (size ek))%nat →
  0 <= overlap_score rk ek ∧ overlap_score rk ek <= 1.
Proof.
  intros Hpos. unfold overlap_score.
  assert (Hle : (size (rk ∩ ek) <= max (size rk) (size ek))%nat).
  { etransitivity; [apply subseteq_size, intersection_subseteq_l |]. lia. }
  set (s := size (rk ∩ ek)) in *. set (m := max (size rk) (size ek)) in *.
  assert (Hm : 0 < inject_Z (Z.of_nat m)).
  { change 0 with (inject_Z 0). rewrite <- Zlt_Qlt. lia. }
  assert (Hs : 0 <= inject_Z (Z.of_nat s)).
  { change 0 with (inject_Z 0). rewrite <- Zle_Qle. lia. }
  assert (Hsm : inject_Z (Z.of_nat s) <= inject_Z (Z.of_nat m)).
  { rewrite <- Zle_Qle. lia. }
  split.
  - apply Qle_shift_div_l; [done |]. lra.
  - apply Qle_shift_div_r; [done |]. lra.
Qed.

Section Review.

Variable cfg : config.
Variable token_sort_ratio : string → string → Z.

(** X7. When the token-sort ratio is a percentage, from 0 to 100, the
    three scores of a candidate and its composite score are all between
    0 and 1. *)
Theorem review_score_bounds rv e :
  (0 <= token_sort_ratio (description rv) (description e) <= 100)%Z →
  let c := review_score cfg token_sort_ratio rv e in
  (0 <= fuzzy_score c ∧ fuzzy_score c <= 1)
  ∧ (0 <= rc_keyword_score c ∧ rc_keyword_score c <= 1)
  ∧ (0 <= amount_score c ∧ amount_score c <= 1)
  ∧ (0 <= combined_score c ∧ combined_score c <= 1).
Proof.
  intros [Hlo Hhi] c. subst c. unfold review_score. cbv zeta.
  cbn [fuzzy_score rc_keyword_score amount_score combined_score].
  set (rk := extract_keywords cfg (description rv)).
  set (ek := extract_keywords cfg (description e)).
  assert (Hf : 0 <= calculate_similarity token_sort_ratio (description rv)
                      (description e)
               ∧ calculate_similarity token_sort_ratio (description rv)
                   (description e) <= 1).
  { unfold calculate_similarity. cbv zeta.
    set (z := token_sort_ratio _ _) in *.
    assert (H0 : 0 <= inject_Z z)
      by (change 0 with (inject_Z 0); by rewrite <- Zle_Qle).
    assert (H1 : inject_Z z <= 100)
      by (change 100 with (inject_Z 100); by rewrite <- Zle_Qle).
    split.
    - apply Qle_shift_div_l; [reflexivity |]. lra.
    - apply Qle_shift_div_r; [reflexivity |]. lra. }
  assert (Hk : 0 <= (if (0 <? size rk)%nat && (0 <? size ek)%nat
                     then overlap_score rk ek else 0)
               ∧ (if (0 <? size rk)%nat && (0 <? size ek)%nat
                  then overlap_score rk ek else 0) <= 1).
  { destruct (0 <? size rk)%nat eqn:Hrk; simpl; [| lra].
    destruct (0 <? size ek)%nat eqn:Hek; simpl; [| lra].
    apply overlap_score_range. apply Nat.ltb_lt in Hrk. lia. }
  assert (Ha : 0 <= (if Py.Qltb 0 (abs_amount rv)
                     then py_max 0 (1 - Qabs (abs_amount e - abs_amount rv)
                                        / abs_amount rv)
                     else 0)
               ∧ (if Py.Qltb 0 (abs_amount rv)
                  then py_max 0 (1 - Qabs (abs_amount e - abs_amount rv)
                                     / abs_amount rv)
                  else 0) <= 1).
  { destruct (Py.Qltb 0 (abs_amount rv)) eqn:Hpos; [| lra].
    apply Qltb_lt in Hpos.
    assert (Hq : 0 <= Qabs (abs_amount e - abs_amount rv) / abs_amount rv).
    { apply Qle_shift_div_l; [done |].
      pose proof (Qabs_nonneg (abs_amount e - abs_amount rv)). lra. }
    unfold py_max. destruct (Py.Qltb 0 _) eqn:Hx; [| lra].
    apply Qltb_lt in Hx. lra. }
  split; [done |]. split; [done |]. split; [done |]. lra.
Qed.

(** X8. The review queue holds one item per unmatched revenue, in the
    order of the pool, each pending review and with at most five
    candidates: distinct rows of the unmatched expenses, five of them
    when there are five or more. *)
Theorem generate_review_items_shape pool_r pool_e :
  let items := generate_review_items cfg token_sort_ratio pool_r pool_e in
  ri_revenue <$> items = pool_r
  ∧ Forall (λ item,
              ri_status item = "pending_review"
              ∧ length (potential_expenses item) = min 5 (length pool_e)
              ∧ rc_expense <$> potential_expenses item ⊆+ pool_e)
      items.
Proof.
  unfold generate_review_items. cbv zeta. split.
  - rewrite <- list_fmap_compose. apply list_fmap_id.
  - apply Forall_fmap, Forall_forall. intros rv _. simpl.
    unfold find_potential_matches, find_potential_matches_top.
    split; [done |]. split.
    + by rewrite length_take, sort_reverse_length, length_fmap.
    + transitivity (rc_expense <$> Py.sort_reverse combined_score
                      (review_score cfg token_sort_ratio rv <$> pool_e)).
      * apply fmap_submseteq, sublist_submseteq, sublist_take.
      * rewrite sort_reverse_Permutation, <- list_fmap_compose.
        by rewrite list_fmap_id.
Qed.

End Review.

(** ** The [/auto_match] route *)

Section Route.

Variable cfg : config.
Variable token_sort_ratio : string → string → Z.

#[local] Abbreviation engine := (auto_match_all cfg token_sort_ratio).
#[local] Abbreviation queue := (generate_review_items cfg token_sort_ratio).
#[local] Abbreviation confirm := (confirm_match cfg token_sort_ratio).
#[local] Abbreviation reachable_from :=
  (session_reachable cfg token_sort_ratio).

Lemma valid_message m :
  valid cfg m ↔ validate_match cfg m = (true, "Match is valid").
Proof.
  unfold valid, validate_match.
  destruct (revenue m); [| done]. destruct (expenses m); [done |].
  by destruct (is_balanced cfg m).
Qed.

Lemma auto_match_Some df :
  let valid_matches := filter (valid cfg) (engine df).1.1 in
  auto_match cfg token_sort_ratio (Some df)
  = (Some {| s_matches := valid_matches;
             s_review_items := queue (engine df).2 (engine df).1.2;
             s_updated_df := assign_match_groups df valid_matches;
             s_unmatched_expenses := (engine df).1.2;
             s_unmatched_revenues := (engine df).2 |},
     AutoMatched (length valid_matches)
       (length (queue (engine df).2 (engine df).1.2))
       (get_summary_statistics (assign_match_groups df valid_matches))
       (calculate_total_balance cfg valid_matches)).
Proof.
  unfold auto_match. destruct (engine df) as [[ms pe] pr].
  by rewrite validate_all_matches_filter.
Qed.

Lemma engine_all_valid df :
  Forall well_formed_row df → filter (valid cfg) (engine df).1.1 = (engine df).1.1.
Proof.
  intros Hdf. apply filter_keep_all, Forall_forall. intros g Hg.
  apply valid_message.
  apply auto_match_all_balanced in Hg as (rv & Hrv & Hbal & Hsel).
  rewrite Forall_forall in Hdf.
  apply list_elem_of_filter in Hrv as [Htype Hin].
  apply (abs_balanced_valid cfg rv g); [done | by apply Hdf | done |].
  intros e He. eapply elem_of_submseteq in He; [| exact Hsel].
  apply list_elem_of_filter in He as [? ?]. split; [by apply Hdf | done].
Qed.

(** X26. Without a stored table the route answers 400 and stores
    nothing. With one it stores a session, whatever it answers. The
    stored matches are the groups of [auto_match_all] that pass
    [validate_match], in order; the stored pools are those
    [auto_match_all] leaves; the stored table is the processed table
    stamped with the stored matches; and the review queue holds one
    item per unmatched revenue. The balance statistics of the stored
    matches count them all as balanced, with no discrepancy. *)
Theorem auto_match_stores_valid_matches df :
  auto_match cfg token_sort_ratio None
  = (None, AutoMatchFailed 400 "No processed data found")
  ∧ ∃ st answer,
      auto_match cfg token_sort_ratio (Some df) = (Some st, answer)
      ∧ s_matches st
        = filter (λ m, validate_match cfg m = (true, "Match is valid"))
            (engine df).1.1
      ∧ s_unmatched_expenses st = (engine df).1.2
      ∧ s_unmatched_revenues st = (engine df).2
      ∧ s_updated_df st = assign_match_groups df (s_matches st)
      ∧ length (s_review_items st) = length (s_unmatched_revenues st)
      ∧ (let b := calculate_total_balance cfg (s_matches st) in
         total_matches b = length (s_matches st)
         ∧ balanced_matches b = length (s_matches st)
         ∧ unbalanced_matches b = 0%nat
         ∧ balance_discrepancies b = []).
Proof.
  split; [done |]. rewrite auto_match_Some. cbv zeta.
  set (ms := filter (valid cfg) (engine df).1.1).
  assert (Hvalid : Forall (λ m, (validate_match cfg m).1 = true) ms).
  { apply Forall_forall. by intros m [Hm _]%list_elem_of_filter. }
  destruct (calculate_total_balance_fields cfg ms)
    as (H1 & H2 & H3 & _ & _ & _ & H7).
  cbv zeta in *.
  eexists _, _. split; [done |].
  cbn [s_matches s_unmatched_expenses s_unmatched_revenues s_updated_df
       s_review_items].
  split.
  { apply filter_ext_in. intros m _. apply valid_message. }
  split; [done |]. split; [done |]. split; [done |].
  split.
  { unfold generate_review_items. by rewrite length_fmap. }
  split; [done |].
  rewrite H2, H3, H7.
  rewrite filter_keep_all, filter_drop_all; [done | |].
  - eapply Forall_impl; [exact Hvalid |]. intros m Hm Hb.
    apply Hb. by apply valid_is_balanced.
  - eapply Forall_impl; [exact Hvalid |]. intros m Hm.
    by apply valid_is_balanced.
Qed.

(** X27. On a table whose rows have the type of the sign of their amount
    and the absolute amount of their amount, the validation step of the
    route drops nothing: the session stores every group of
    [auto_match_all]. *)
Theorem auto_match_keeps_every_group df :
  Forall well_formed_row df →
  validate_all_matches cfg (engine df).1.1 = ((engine df).1.1, [])
  ∧ ∃ st answer,
      auto_match cfg token_sort_ratio (Some df) = (Some st, answer)
      ∧ (s_matches st, s_unmatched_expenses st, s_unmatched_revenues st)
        = engine df.
Proof.
  intros Hdf. pose proof (engine_all_valid df Hdf) as Hall. split.
  - apply validate_all_matches_all_valid. rewrite <- Hall.
    apply Forall_forall. by intros m [Hm _]%list_elem_of_filter.
  - rewrite auto_match_Some. cbv zeta. eexists _, _. split; [done |].
    cbn [s_matches s_unmatched_expenses s_unmatched_revenues].
    rewrite Hall. by destruct (engine df) as [[ms pe] pr].
Qed.

(** *** The pools and the groups of the cascade split the table *)

Lemma split_by_type_Permutation (df : list transaction) :
  Forall (λ t, transaction_type t ≠ Zero) df →
  filter (λ t, transaction_type t = Expense) df
  ++ filter (λ t, transaction_type t = Revenue) df ≡ₚ df.
Proof.
  induction 1 as [| t df Ht _ IH]; [done |].
  rewrite !filter_cons.
  destruct (transaction_type t) eqn:Htype; simpl.
  - by rewrite IH.
  - by rewrite <- Permutation_middle, IH.
  - done.
Qed.

Lemma auto_match_all_Permutation df :
  NoDup (original_index <$> df) →
  referenced (engine df).1.1 ++ (engine df).1.2 ++ (engine df).2
  ≡ₚ filter (λ t, transaction_type t = Expense) df
     ++ filter (λ t, transaction_type t = Revenue) df.
Proof.
  intros Hdf. rewrite auto_match_all_stages. cbn [fst snd].
  set (e0 := filter (λ t, transaction_type t = Expense) df).
  set (r0 := filter (λ t, transaction_type t = Revenue) df).
  set (s1 := exact_match cfg e0 r0).
  set (s2 := keyword_match cfg s1.1.2 s1.2).
  set (s3 := fuzzy_match cfg token_sort_ratio s2.1.2 s2.2).
  assert (H0 : NoDup (original_index <$> (e0 ++ r0))).
  { eapply NoDup_submseteq_inv; [| exact Hdf].
    apply fmap_submseteq, split_by_type_submseteq. }
  pose proof (exact_match_partition cfg e0 r0 H0) as P1. fold s1 in P1.
  cbv zeta in P1.
  destruct (partitions_of_Permutation _ s1 H0 P1) as [_ N1].
  pose proof (keyword_match_partition cfg s1.1.2 s1.2 N1) as P2.
  fold s2 in P2. cbv zeta in P2.
  assert (C2 : referenced (s1.1.1 ++ s2.1.1) ++ s2.1.2 ++ s2.2 ≡ₚ e0 ++ r0).
  { unfold referenced in *. rewrite bind_app, <- app_assoc.
    by rewrite P2. }
  destruct (partitions_of_Permutation _ (s1.1.1 ++ s2.1.1, s2.1.2, s2.2)
              H0 C2) as [_ N2].
  cbn [fst snd] in N2.
  pose proof (fuzzy_match_partition cfg token_sort_ratio s2.1.2 s2.2 N2)
    as P3.
  fold s3 in P3. cbv zeta in P3.
  replace (s1.1.1 ++ s2.1.1 ++ s3.1.1)
    with ((s1.1.1 ++ s2.1.1) ++ s3.1.1) by (by rewrite app_assoc).
  unfold referenced in *. rewrite bind_app, <- app_assoc.
  by rewrite P3.
Qed.

Lemma engine_pools_sublist df :
  (engine df).1.2 `sublist_of` filter (λ t, transaction_type t = Expense) df
  ∧ (engine df).2 `sublist_of` filter (λ t, transaction_type t = Revenue) df.
Proof.
  rewrite auto_match_all_stages. cbn [fst snd].
  split; (etransitivity; [apply drop_ids_sublist |]);
    (etransitivity; [apply drop_ids_sublist |]); apply drop_ids_sublist.
Qed.

(** *** Sessions *)

(** A request leaves the session alone, or commits a manual group that
    passes [validate_match]. *)
Lemma confirm_cases st data :
  (confirm st data).1 = st
  ∨ ∃ (rid : Z) (eids : list Z) revenue others,
      filter (λ t, original_index t = rid) (s_unmatched_revenues st)
      = revenue :: others
      ∧ valid cfg
          (manual_match revenue
             (filter (λ t, original_index t ∈ eids)
                (s_unmatched_expenses st)))
      ∧ (confirm st data).1
        = {| s_matches :=
               s_matches st
               ++ [manual_match revenue
                     (filter (λ t, original_index t ∈ eids)
                        (s_unmatched_expenses st))];
             s_review_items :=
               queue (filter (λ t, original_index t ≠ rid)
                        (s_unmatched_revenues st))
                     (filter (λ t, original_index t ∉ eids)
                        (s_unmatched_expenses st));
             s_updated_df :=
               assign_match_groups (s_updated_df st)
                 (s_matches st
                  ++ [manual_match revenue
                        (filter (λ t, original_index t ∈ eids)
                           (s_unmatched_expenses st))]);
             s_unmatched_expenses :=
               filter (λ t, original_index t ∉ eids)
                 (s_unmatched_expenses st);
             s_unmatched_revenues :=
               filter (λ t, original_index t ≠ rid)
                 (s_unmatched_revenues st) |}.
Proof.
  destruct data as [[rid |] eids].
  2: { left. by rewrite confirm_match_invalid_data by (by left). }
  destruct (decide (rid = 0%Z)) as [-> | Hrid].
  { left. by rewrite confirm_match_invalid_data by (right; by left). }
  destruct eids as [| eid eids].
  { left. by rewrite confirm_match_invalid_data by (right; by right). }
  destruct (filter (λ t, original_index t = rid) (s_unmatched_revenues st))
    as [| revenue others] eqn:Hrev.
  { left. by rewrite confirm_match_no_revenue. }
  rewrite (confirm_match_found cfg token_sort_ratio st rid (eid :: eids)
             revenue others) by done.
  cbv zeta.
  destruct (validate_match cfg _).1 eqn:Hv; [| by left].
  right. exists rid, (eid :: eids), revenue, others. done.
Qed.

Lemma group_ids_referenced ms :
  ms ≫= group_ids = original_index <$> referenced ms.
Proof.
  unfold referenced, group_ids. induction ms as [| m ms IH]; [done |].
  by rewrite !bind_cons, fmap_app, IH.
Qed.

Lemma session_inv df st :
  reachable_from df st →
  Forall (valid cfg) (s_matches st)
  ∧ s_review_items st
    = queue (s_unmatched_revenues st) (s_unmatched_expenses st)
  ∧ s_updated_df st = assign_match_groups df (s_matches st)
  ∧ s_unmatched_expenses st
    `sublist_of` filter (λ t, transaction_type t = Expense) df
  ∧ s_unmatched_revenues st
    `sublist_of` filter (λ t, transaction_type t = Revenue) df.
Proof.
  induction 1 as [st answer Hauto | st data Hst (IHv & IHq & IHdf & IHe & IHr)].
  - rewrite auto_match_Some in Hauto. cbv zeta in Hauto.
    apply (f_equal fst) in Hauto. cbn [fst] in Hauto.
    apply (inj Some) in Hauto. subst st.
    cbn [s_matches s_review_items s_updated_df
         s_unmatched_expenses s_unmatched_revenues].
    split.
    { apply Forall_forall. by intros m [Hm _]%list_elem_of_filter. }
    split; [done |]. split; [done |]. apply engine_pools_sublist.
  - destruct (confirm_cases st data)
      as [-> | (rid & eids & rv & others & Hrev & Hvalid & ->)];
      [done |].
    cbn [s_matches s_review_items s_updated_df
         s_unmatched_expenses s_unmatched_revenues].
    split.
    { apply Forall_app. split; [done |]. by constructor. }
    split; [done |]. split.
    { rewrite IHdf. apply assign_match_groups_over. intros i Hi.
      rewrite bind_app. apply elem_of_app. by left. }
    split; (etransitivity; [apply sublist_filter | done]).
Qed.

(** X28. In every session the route [/auto_match] and any number of
    [/confirm_match] requests lead to, every stored match passes
    [validate_match]; the review queue is the one generated from the
    stored pools; the stored table is the table first processed, stamped
    with the stored matches; and the pools hold expenses and revenues of
    that table, in its order. *)
Theorem session_invariants df st :
  reachable_from df st →
  Forall (λ m, validate_match cfg m = (true, "Match is valid")) (s_matches st)
  ∧ s_review_items st
    = queue (s_unmatched_revenues st) (s_unmatched_expenses st)
  ∧ s_updated_df st = assign_match_groups df (s_matches st)
  ∧ s_unmatched_expenses st
    `sublist_of` filter (λ t, transaction_type t = Expense) df
  ∧ s_unmatched_revenues st
    `sublist_of` filter (λ t, transaction_type t = Revenue) df.
Proof.
  intros (Hv & Hrest)%session_inv. split; [| done].
  eapply Forall_impl; [exact Hv |]. intros m. apply valid_message.
Qed.

Lemma filter_by_key_unique {A B} `{EqDecision B} (f : A → B) (b : B)
    (l : list A) x others :
  NoDup (f <$> l) → filter (λ y, f y = b) l = x :: others → others = [].
Proof.
  revert x others. induction l as [| y l IH]; intros x others Hnd Hf;
    [done |].
  rewrite fmap_cons in Hnd. apply NoDup_cons in Hnd as [Hy Hnd].
  rewrite filter_cons in Hf. destruct (decide (f y = b)) as [Hb | Hb].
  - injection Hf as -> Hf. destruct others as [| z others]; [done |].
    exfalso. apply Hy.
    assert (Hz : z ∈ filter (λ y, f y = b) l) by (rewrite Hf; left).
    apply list_elem_of_filter in Hz as [Hz Hin]. rewrite Hb, <- Hz.
    by apply list_elem_of_fmap_2.
  - by eapply IH.
Qed.

(** The stored matches and pools split the expenses and revenues of the
    table. *)
Lemma session_partition df st :
  NoDup (original_index <$> df) → Forall well_formed_row df →
  reachable_from df st →
  referenced (s_matches st)
  ++ s_unmatched_expenses st ++ s_unmatched_revenues st
  ≡ₚ filter (λ t, transaction_type t = Expense) df
     ++ filter (λ t, transaction_type t = Revenue) df.
Proof.
  intros Hnd Hdf.
  induction 1 as [st answer Hauto | st data Hst IH].
  - rewrite auto_match_Some in Hauto. cbv zeta in Hauto.
    apply (f_equal fst) in Hauto. cbn [fst] in Hauto.
    apply (inj Some) in Hauto. subst st.
    cbn [s_matches s_unmatched_expenses s_unmatched_revenues].
    rewrite engine_all_valid by done. by apply auto_match_all_Permutation.
  - destruct (confirm_cases st data)
      as [-> | (rid & eids & rv & others & Hrev & Hvalid & ->)];
      [done |].
    cbn [s_matches s_unmatched_expenses s_unmatched_revenues].
    assert (Hids : NoDup (original_index <$> s_unmatched_revenues st)).
    { assert (Hall : NoDup (original_index
                              <$> filter (λ t, transaction_type t = Expense) df
                                  ++ filter (λ t, transaction_type t = Revenue)
                                       df)).
      { eapply NoDup_submseteq_inv; [| exact Hnd].
        apply fmap_submseteq, split_by_type_submseteq. }
      rewrite <- IH, !fmap_app in Hall.
      apply NoDup_app in Hall as (_ & _ & Hall).
      by apply NoDup_app in Hall as (_ & _ & Hall). }
    pose proof (filter_by_key_unique original_index rid _ _ _ Hids Hrev)
      as ->.
    pose proof (filter_app_complement (λ t, original_index t = rid)
                  (s_unmatched_revenues st)) as Hr.
    rewrite Hrev in Hr.
    pose proof (filter_app_complement (λ t, original_index t ∈ eids)
                  (s_unmatched_expenses st)) as He.
    rewrite <- IH.
    unfold referenced. rewrite bind_app, bind_cons.
    change ([] ≫= group_rows) with (@nil transaction).
    unfold group_rows at 2. cbn [revenue expenses manual_match option_list].
    rewrite app_nil_r, <- !app_assoc. f_equiv.
    transitivity
      ((filter (λ t, original_index t ∈ eids) (s_unmatched_expenses st)
        ++ filter (λ t, original_index t ∉ eids) (s_unmatched_expenses st))
       ++ [rv]
       ++ filter (λ t, original_index t ≠ rid) (s_unmatched_revenues st));
      [| by rewrite He, Hr].
    cbn [app]. by rewrite <- Permutation_middle, <- app_assoc.
Qed.

(** X29. On a table with distinct labels whose rows have the type of the
    sign of their amount, in every session the routes lead to each
    expense and each revenue of the table is referred to by exactly one
    stored match or sits in exactly one unmatched pool, never both. *)
Theorem session_partitions_table df st :
  NoDup (original_index <$> df) → Forall well_formed_row df →
  reachable_from df st →
  partitions
    (filter (λ t, transaction_type t = Expense) df
     ++ filter (λ t, transaction_type t = Revenue) df)
    (s_matches st, s_unmatched_expenses st, s_unmatched_revenues st)
  ∧ NoDup (original_index
             <$> referenced (s_matches st)
                 ++ s_unmatched_expenses st ++ s_unmatched_revenues st).
Proof.
  intros Hnd Hdf Hst.
  pose proof (session_partition df st Hnd Hdf Hst) as Hperm.
  assert (Hall : NoDup (original_index
                          <$> filter (λ t, transaction_type t = Expense) df
                              ++ filter (λ t, transaction_type t = Revenue)
                                   df)).
  { eapply NoDup_submseteq_inv; [| exact Hnd].
    apply fmap_submseteq, split_by_type_submseteq. }
  split.
  - by apply (partitions_of_Permutation _
                (s_matches st, s_unmatched_expenses st,
                 s_unmatched_revenues st)).
  - by rewrite Hperm.
Qed.

Lemma length_filter_fmap {A B} (P : B → Prop) `{!∀ y, Decision (P y)}
    (f : A → B) (l : list A) :
  length (filter P (f <$> l)) = length (filter (λ x, P (f x)) l).
Proof.
  induction l as [| x l IH]; [done |].
  rewrite fmap_cons, !filter_cons. destruct (decide (P (f x))); simpl; lia.
Qed.

(** Counting the rows of [df] by whether their id is one of [M]'s. *)
Lemma count_by_ids (M P df : list transaction) :
  M ++ P ≡ₚ df → NoDup (original_index <$> df) →
  length (filter (λ row, original_index row ∈ original_index <$> M) df)
  = length M
  ∧ length (filter (λ row, original_index row ∉ original_index <$> M) df)
    = length P.
Proof.
  intros Hperm Hnd. rewrite <- Hperm in Hnd |- *.
  rewrite fmap_app in Hnd. apply NoDup_app in Hnd as (_ & Hdisj & _).
  rewrite !filter_app, !length_app.
  assert (HM : Forall (λ row, original_index row ∈ original_index <$> M) M).
  { apply Forall_forall. intros row Hrow. by apply list_elem_of_fmap_2. }
  assert (HP : Forall (λ row, original_index row ∉ original_index <$> M) P).
  { apply Forall_forall. intros row Hrow Hin. apply (Hdisj _ Hin).
    by apply list_elem_of_fmap_2. }
  rewrite (filter_keep_all _ M HM), (filter_keep_all _ P HP).
  rewrite (filter_drop_all _ P), (filter_drop_all _ M); [simpl; lia | |].
  - eapply Forall_impl; [exact HM |]. tauto.
  - exact HP.
Qed.

(** X30. On a table as [process_transactions] hands it over, with
    distinct labels, the summary of the stored table agrees with the
    stored matches and pools in every session the routes lead to: the
    matched rows are as many as the rows the stored matches refer to,
    the unmatched rows as many as the rows in the two pools, and
    together they are all the rows. *)
Theorem session_summary_counts df st :
  processed_table df → reachable_from df st →
  let s := get_summary_statistics (s_updated_df st) in
  total_transactions s = length df
  ∧ matched_count s = length (referenced (s_matches st))
  ∧ unmatched_count s
    = (length (s_unmatched_expenses st)
       + length (s_unmatched_revenues st))%nat
  ∧ (matched_count s + unmatched_count s)%nat = total_transactions s.
Proof.
  intros (Hnd & Hwf & Hnz & Hun) Hst s. subst s.
  destruct (session_inv df st Hst) as (_ & _ & -> & _ & _).
  pose proof (session_partition df st Hnd Hwf Hst) as Hperm.
  rewrite split_by_type_Permutation in Hperm by done.
  destruct (count_by_ids _ _ _ Hperm Hnd) as [HM HP].
  rewrite length_app in HP.
  unfold get_summary_statistics. cbv zeta.
  cbn [total_transactions matched_count unmatched_count].
  rewrite assign_match_groups_rows, length_fmap, !length_filter_fmap.
  assert (H1 : filter (λ row, match_status (stamped_by (s_matches st) row)
                              = "matched") df
               = filter (λ row, original_index row
                                ∈ original_index <$> referenced (s_matches st))
                   df).
  { apply filter_ext_in. intros row Hrow. rewrite <- group_ids_referenced.
    rewrite Forall_forall in Hun. apply stamped_by_status. by apply Hun. }
  assert (H2 : filter (λ row, match_status (stamped_by (s_matches st) row)
                              = "unmatched") df
               = filter (λ row, original_index row
                                ∉ original_index <$> referenced (s_matches st))
                   df).
  { apply filter_ext_in. intros row Hrow. rewrite <- group_ids_referenced.
    rewrite Forall_forall in Hun. apply stamped_by_status. by apply Hun. }
  rewrite H1, H2, HM, HP.
  split; [done |]. split; [done |]. split; [done |].
  apply Permutation_length in Hperm. rewrite !length_app in Hperm. lia.
Qed.

End Route.

(** * The tolerance tests, the scores and the solvers in binary64 *)

(** ** Balance validation *)

Section FloatBalance.

Variable fsum : list Q → Q.
Variable cfg : config.

Lemma float_is_balanced_true m :
  F64.is_balanced fsum cfg m = true
  ↔ Qabs (F64.calculate_match_balance fsum m) < BALANCE_TOLERANCE cfg.
Proof. unfold F64.is_balanced. apply Qltb_lt. Qed.

Lemma float_is_balanced_false m :
  F64.is_balanced fsum cfg m = false
  ↔ ¬ Qabs (F64.calculate_match_balance fsum m) < BALANCE_TOLERANCE cfg.
Proof.
  rewrite <- float_is_balanced_true.
  destruct (F64.is_balanced fsum cfg m); naive_solver.
Qed.

(** C7. [validate_match] fails with the missing-revenue reason exactly when
    the group has no revenue; otherwise with the missing-expenses reason
    exactly when the expense list is empty; otherwise with the unbalanced
    reason, which carries the residual printed to two decimals, exactly
    when the absolute residual is not strictly below the tolerance; and it
    succeeds in every remaining case. The residual is the float the code
    computes: the sum of the expense amounts, added to the revenue amount
    and rounded. *)
Theorem validate_match_cases m :
  let residual := F64.calculate_match_balance fsum m in
  residual
  = Float.add (from_option amount 0 (revenue m)) (fsum (amount <$> expenses m))
  ∧ (F64.validate_match fsum cfg m = (false, "No revenue transaction in match")
     ↔ revenue m = None)
  ∧ (F64.validate_match fsum cfg m
       = (false, "No expense transactions in match")
     ↔ revenue m ≠ None ∧ expenses m = [])
  ∧ (F64.validate_match fsum cfg m
       = (false, "Match not balanced. Balance: " +:+ Py.format_2f residual)
     ↔ revenue m ≠ None ∧ expenses m ≠ []
       ∧ ¬ Qabs residual < BALANCE_TOLERANCE cfg)
  ∧ (F64.validate_match fsum cfg m = (true, "Match is valid")
     ↔ revenue m ≠ None ∧ expenses m ≠ []
       ∧ Qabs residual < BALANCE_TOLERANCE cfg).
Proof.
  intros residual. split; [reflexivity |].
  unfold F64.validate_match. subst residual.
  destruct (revenue m) as [r |] eqn:Hr.
  2: { repeat split; first [done | congruence | intros [? ?]; done | intros (? & ? & ?); done | idtac]. }
  destruct (expenses m) as [| e es] eqn:He.
  { repeat split; first [done | congruence | intros [? ?]; done | intros (? & ? & ?); done | idtac]. }
  destruct (F64.is_balanced fsum cfg m) eqn:Hb; simpl.
  - apply float_is_balanced_true in Hb.
    repeat split; first [done | congruence | intros [? ?]; done | intros (? & ? & ?); done | idtac].
  - apply float_is_balanced_false in Hb.
    repeat split; first [done | congruence | intros [? ?]; done | intros (? & ? & ?); done | idtac].
Qed.

End FloatBalance.

(** ** The Exact stage *)

Section FloatExactStage.

Variable cfg : config.

#[local] Abbreviation scan := (F64.exact_match_scan cfg).
#[local] Abbreviation run expenses :=
  (foldl (λ st revenue, F64.exact_match_scan cfg revenue expenses st)).

Lemma float_exact_test_pair revenue e :
  Py.Qltb (Qabs (Float.sub (abs_amount e) (abs_amount revenue)))
          (BALANCE_TOLERANCE cfg)
  && String.eqb (Py.strip (Py.lower (description e)))
                (Py.strip (Py.lower (description revenue))) = true
  ↔ F64.exact_pair cfg revenue e.
Proof.
  unfold F64.exact_pair.
  by rewrite andb_true_iff, Qltb_lt, String.eqb_eq.
Qed.

(** The inner loop finds the first expense that is not consumed and
    pairs with the revenue, and commits that pair. *)
Lemma float_exact_match_scan_find revenue expenses st :
  scan revenue expenses st
  = match list_find (λ e, (original_index e ∉ matched_expense_ids st)
                          ∧ F64.exact_pair cfg revenue e) expenses with
    | Some (_, e) =>
        {| matches := matches st ++ [F64.exact_group revenue e];
           matched_expense_ids :=
             matched_expense_ids st ∪ {[original_index e]};
           matched_revenue_ids :=
             matched_revenue_ids st ∪ {[original_index revenue]} |}
    | None => st
    end.
Proof.
  induction expenses as [| e rest IH]; [done |].
  cbn [F64.exact_match_scan list_find].
  destruct (float_exact_test_pair revenue e) as [Hto Hfrom].
  case_bool_decide as Hin.
  - rewrite decide_False by tauto. rewrite IH.
    by destruct (list_find _ rest) as [[i e'] |].
  - destruct (decide (F64.exact_pair cfg revenue e)) as [Hp | Hp].
    + rewrite decide_True by tauto. by rewrite (Hfrom Hp).
    + rewrite decide_False by tauto.
      destruct (Py.Qltb _ _ && _) eqn:Ht; [by destruct Hp; auto |].
      rewrite IH. by destruct (list_find _ rest) as [[i e'] |].
Qed.

(** The groups of the stage are the pairs of the first-fit reading, in
    order. *)
Lemma float_exact_run_pairs expenses revenues st :
  matches (run expenses st revenues)
  = matches st
    ++ ((λ p, F64.exact_group p.1 p.2)
          <$> F64.exact_pairs cfg revenues expenses (matched_expense_ids st)).
Proof.
  revert st. induction revenues as [| r rs IH]; intros st.
  { simpl. by rewrite app_nil_r. }
  cbn [foldl F64.exact_pairs]. rewrite IH, float_exact_match_scan_find.
  destruct (list_find _ expenses) as [[i e] |]; [| done].
  simpl. by rewrite <- app_assoc.
Qed.

Lemma float_exact_run_app expenses rs1 rs2 st :
  matches (run expenses st rs1)
  `prefix_of` matches (run expenses st (rs1 ++ rs2)).
Proof.
  rewrite foldl_app. rewrite (float_exact_run_pairs expenses rs2).
  by apply prefix_app_r.
Qed.

(** C5. The Exact stage pairs each revenue, in pool order, with the
    first expense, in pool order, whose id is not yet consumed, whose
    absolute amount is within the tolerance (strictly) of the revenue's
    and whose lower-cased, trimmed description equals the revenue's. The
    difference of the two amounts is the float the subtraction gives.
    Every group has exactly one expense, confidence 1.0 and kind exact.
    Pairs once made are kept: the groups made from a prefix of the
    revenue pool are a prefix of the groups made from the whole pool.
    Scenario A yields one group with confidence 1.0 and residual 0. *)
Theorem exact_match_first_fit pool_e pool_r :
  let groups := (F64.exact_match cfg pool_e pool_r).1.1 in
  groups
  = (λ p, {| match_type := "exact";
             confidence := 1;
             revenue := Some p.1;
             expenses := [p.2];
             balance := Float.sub (abs_amount p.1) (abs_amount p.2) |})
      <$> F64.exact_pairs cfg pool_r pool_e ∅
  ∧ Forall (λ g, length (expenses g) = 1%nat
                 ∧ confidence g = 1 ∧ match_type g = "exact") groups
  ∧ (∀ rs1 rs2, pool_r = rs1 ++ rs2 →
       (F64.exact_match cfg pool_e rs1).1.1 `prefix_of` groups)
  ∧ ∃ g, F64.exact_match F64.Config [scenario_A_expense] [scenario_A_revenue]
         = ([g], [], [])
         ∧ confidence g = 1 ∧ balance g == 0
         ∧ F64.calculate_match_balance Float.sum g == 0
         ∧ revenue g = Some scenario_A_revenue
         ∧ expenses g = [scenario_A_expense].
Proof.
  intros groups.
  assert (Hg : groups
               = (λ p, F64.exact_group p.1 p.2)
                   <$> F64.exact_pairs cfg pool_r pool_e ∅).
  { subst groups. unfold F64.exact_match. simpl.
    by rewrite float_exact_run_pairs. }
  split; [exact Hg |]. split; [| split].
  - rewrite Hg. apply Forall_fmap, Forall_true. by intros [r e].
  - intros rs1 rs2 ->. subst groups. unfold F64.exact_match. simpl.
    apply float_exact_run_app.
  - exists (F64.exact_group scenario_A_revenue scenario_A_expense).
    split; [vm_compute; reflexivity |].
    split; [reflexivity |].
    split; [vm_compute; reflexivity |].
    split; [vm_compute; reflexivity |].
    split; reflexivity.
Qed.

End FloatExactStage.

(** ** The ranked bounded search *)

Section FloatRankedSearch.

Variable fsum : list Q → Q.
Variable cfg : config.

#[local] Abbreviation tol := (BALANCE_TOLERANCE cfg).

Lemma float_find_single_spec revenue pes :
  F64.find_single cfg revenue pes
  = match snd <$> list_find (F64.single_within cfg (abs_amount revenue))
                    pes with
    | Some pe =>
        Some {| match_type := "fuzzy_single";
                confidence := keyword_score pe;
                revenue := Some revenue;
                expenses := [expense pe];
                balance :=
                  Float.sub (abs_amount revenue) (abs_amount (expense pe)) |}
    | None => None
    end.
Proof.
  induction pes as [| pe pes IH]; [done |]. simpl.
  destruct (Py.Qltb _ tol) eqn:Ht.
  - apply Qltb_lt in Ht. by rewrite decide_True.
  - rewrite decide_False.
    2: { unfold F64.single_within. rewrite <- Qltb_lt. congruence. }
    rewrite IH, <- option_fmap_compose.
    by destruct (list_find _ pes) as [[i pe'] |].
Qed.

Lemma float_find_combo_spec revenue k combos :
  F64.find_combo fsum cfg revenue k combos
  = match snd <$> list_find (F64.total_within fsum cfg (abs_amount revenue))
                    combos with
    | Some combo =>
        Some {| match_type := "fuzzy_multiple_" +:+ pretty k;
                confidence := F64.mean_score fsum combo;
                revenue := Some revenue;
                expenses := expense <$> combo;
                balance :=
                  Float.sub (abs_amount revenue)
                    (fsum ((λ pe, abs_amount (expense pe)) <$> combo)) |}
    | None => None
    end.
Proof.
  induction combos as [| combo combos IH]; [done |]. simpl.
  unfold F64.combo_group at 1.
  destruct (Py.Qltb _ tol) eqn:Ht.
  - apply Qltb_lt in Ht. by rewrite decide_True.
  - rewrite decide_False.
    2: { unfold F64.total_within. rewrite <- Qltb_lt. congruence. }
    rewrite IH, <- option_fmap_compose.
    by destruct (list_find _ combos) as [[i c'] |].
Qed.

Lemma float_find_sizes_spec revenue top sizes :
  F64.find_sizes fsum cfg revenue top sizes
  = match snd <$> list_find (F64.total_within fsum cfg (abs_amount revenue))
                    (concat (Py.combinations top <$> sizes)) with
    | Some combo =>
        Some {| match_type := "fuzzy_multiple_" +:+ pretty (length combo);
                confidence := F64.mean_score fsum combo;
                revenue := Some revenue;
                expenses := expense <$> combo;
                balance :=
                  Float.sub (abs_amount revenue)
                    (fsum ((λ pe, abs_amount (expense pe)) <$> combo)) |}
    | None => None
    end.
Proof.
  induction sizes as [| k sizes IH]; [done |].
  cbn [F64.find_sizes fmap list_fmap concat].
  rewrite list_find_app_snd, float_find_combo_spec, IH.
  destruct (list_find _ (Py.combinations top k)) as [[i combo] |] eqn:Hf;
    [| done].
  simpl. apply list_find_Some in Hf as (Hi & _ & _).
  apply list_elem_of_lookup_2, combinations_sublist in Hi as [_ ->]. done.
Qed.

(** Sizes beyond the number of ranked candidates yield no combination. *)
Lemma float_find_sizes_beyond revenue top sizes extra :
  Forall (λ k, (length top < k)%nat) extra →
  F64.find_sizes fsum cfg revenue top (sizes ++ extra)
  = F64.find_sizes fsum cfg revenue top sizes.
Proof.
  intros Hextra. induction sizes as [| k sizes IH]; simpl.
  - induction Hextra as [| k extra Hk _ IH]; [done |]. simpl.
    by rewrite combinations_short.
  - by rewrite IH.
Qed.

(** [range(2, min(6, len + 1))] and the sizes 2, 3, 4, 5 give the same
    search. *)
Lemma float_find_sizes_range revenue (ranked : list potential) :
  F64.find_sizes fsum cfg revenue (take 10 ranked)
    (Py.range 2 (min 6 (length ranked + 1)))
  = F64.find_sizes fsum cfg revenue (take 10 ranked) [2; 3; 4; 5]%nat.
Proof.
  assert (Hlen : (length (take 10 ranked) <= length ranked)%nat)
    by (rewrite length_take; lia).
  destruct ranked as [| a [| b [| c [| d [| e rest]]]]];
    simpl length in *; unfold Py.range.
  - symmetry. apply (float_find_sizes_beyond _ _ [] [2; 3; 4; 5]%nat).
    repeat constructor; simpl; lia.
  - symmetry. apply (float_find_sizes_beyond _ _ [] [2; 3; 4; 5]%nat).
    repeat constructor; simpl; lia.
  - symmetry. apply (float_find_sizes_beyond _ _ [2]%nat [3; 4; 5]%nat).
    repeat constructor; simpl; lia.
  - symmetry. apply (float_find_sizes_beyond _ _ [2; 3]%nat [4; 5]%nat).
    repeat constructor; simpl; lia.
  - symmetry. apply (float_find_sizes_beyond _ _ [2; 3; 4]%nat [5]%nat).
    repeat constructor; simpl; lia.
  - replace (min 6 (S (S (S (S (S (length rest))))) + 1)) with 6%nat by lia.
    done.
Qed.

Lemma float_find_best_unfold revenue candidates :
  F64._find_best_expense_combination fsum cfg revenue candidates
  = match F64.ranked_search fsum cfg (abs_amount revenue)
            (Py.sort_reverse keyword_score candidates) with
    | Some [pe] =>
        Some {| match_type := "fuzzy_single";
                confidence := keyword_score pe;
                revenue := Some revenue;
                expenses := [expense pe];
                balance :=
                  Float.sub (abs_amount revenue) (abs_amount (expense pe)) |}
    | Some combo =>
        Some {| match_type := "fuzzy_multiple_" +:+ pretty (length combo);
                confidence := F64.mean_score fsum combo;
                revenue := Some revenue;
                expenses := expense <$> combo;
                balance :=
                  Float.sub (abs_amount revenue)
                    (fsum ((λ pe, abs_amount (expense pe)) <$> combo)) |}
    | None => None
    end
  ∧ ∀ chosen,
      F64.ranked_search fsum cfg (abs_amount revenue)
        (Py.sort_reverse keyword_score candidates) = Some chosen →
      chosen `sublist_of` Py.sort_reverse keyword_score candidates
      ∧ (1 <= length chosen <= 5)%nat.
Proof.
  unfold F64._find_best_expense_combination, F64.ranked_search.
  rewrite float_find_single_spec, float_find_sizes_range,
    float_find_sizes_spec.
  set (ranked := Py.sort_reverse keyword_score candidates).
  destruct (list_find (F64.single_within cfg _) ranked) as [[i pe] |] eqn:Hs.
  { simpl. split; [done |]. intros chosen [= <-].
    apply list_find_Some in Hs as (Hi & _ & _).
    split; [| simpl; lia].
    apply list_elem_of_lookup_2 in Hi. by apply singleton_sublist_l. }
  simpl.
  destruct (list_find (F64.total_within fsum cfg _) _) as [[i combo] |] eqn:Hc;
    simpl; [| by split].
  apply list_find_Some in Hc as (Hi & _ & _).
  apply list_elem_of_lookup_2 in Hi.
  cbn [concat fmap list_fmap] in Hi. rewrite !elem_of_app in Hi.
  assert (Hk : combo `sublist_of` take 10 ranked
               ∧ (2 <= length combo <= 5)%nat).
  { destruct Hi as [Hi | [Hi | [Hi | [Hi | Hi]]]];
      [| | | | by apply elem_of_nil in Hi];
      apply combinations_sublist in Hi as [Hsub Hlen];
      (split; [done | lia]). }
  destruct Hk as [Hsub Hlen].
  split.
  - destruct combo as [| a [| b combo]]; simpl in Hlen; [lia | lia | done].
  - intros chosen [= <-]. split; [| lia].
    etransitivity; [exact Hsub | apply sublist_take].
Qed.

(** C1. The ranked bounded search works on the candidates in descending
    order of score (a stable sort of the input). It returns the first
    single candidate whose absolute amount is within the tolerance of
    the target; only when there is none, the first combination, among
    those of sizes 2, 3, 4, 5 of the ten best ranked candidates taken in
    increasing size and generation order, whose absolute total is within
    the tolerance; and no solution when there is none either. Within
    the tolerance means that the float difference of the amount, or of
    the float total, and the target is below the tolerance in absolute
    value. The search is a total function: it has no failing outcome. *)
Theorem find_best_expense_combination_ranked revenue candidates :
  let ranked := Py.sort_reverse keyword_score candidates in
  let answer :=
    F64._find_best_expense_combination fsum cfg revenue candidates in
  ranked ≡ₚ candidates
  ∧ StronglySorted (λ a b, keyword_score b <= keyword_score a) ranked
  ∧ (∀ q, filter (λ pe, keyword_score pe == q) ranked
          = filter (λ pe, keyword_score pe == q) candidates)
  ∧ expenses <$> answer
    = fmap expense
        <$> F64.ranked_search fsum cfg (abs_amount revenue) ranked
  ∧ (answer = None
     ↔ F64.ranked_search fsum cfg (abs_amount revenue) ranked = None)
  ∧ (∀ chosen,
       F64.ranked_search fsum cfg (abs_amount revenue) ranked = Some chosen →
       chosen `sublist_of` ranked ∧ (1 <= length chosen <= 5)%nat).
Proof.
  intros ranked answer.
  split; [apply sort_reverse_Permutation |].
  split; [apply (sort_reverse_sorted keyword_score) |].
  split; [intros q; apply (sort_reverse_stable keyword_score) |].
  subst answer.
  destruct (float_find_best_unfold revenue candidates) as [-> Hchosen].
  fold ranked. split; [| split; [| exact Hchosen]].
  - destruct (F64.ranked_search fsum cfg _ ranked)
      as [[| a [| b chosen]] |]; by simpl.
  - destruct (F64.ranked_search fsum cfg _ ranked)
      as [[| a [| b chosen]] |]; by simpl.
Qed.

End FloatRankedSearch.

(** ** The review ranker *)

Section FloatReviewRanker.

Variable cfg : config.
Variable token_sort_ratio : string → string → Z.

(** C9. For an unmatched revenue, each unmatched expense is scored
    0.4 x fuzzy similarity + 0.4 x keyword-overlap fraction + 0.2 x
    amount closeness, every product and sum being the float Python
    computes, from left to right. The fuzzy similarity is the token-sort
    ratio over 100; the overlap fraction is shared keywords over the
    larger keyword count (0 when either side has no keyword); the amount
    closeness is max(0, 1 - |difference| / revenue amount), and 0 when
    the revenue amount is not positive, so nothing is divided by 0. The
    ranker returns the first five of the scored expenses sorted by
    descending composite score, equal scores staying in the input order
    of the expenses. It is a function of the pools and returns only the
    ranked list: the pools are read, never written. *)
Theorem find_potential_matches_ranking rv pool :
  let score := F64.review_score cfg token_sort_ratio rv in
  let ranked := Py.sort_reverse combined_score (score <$> pool) in
  (∀ e,
     let rk := extract_keywords cfg (description rv) in
     let ek := extract_keywords cfg (description e) in
     rc_expense (score e) = e
     ∧ combined_score (score e)
       = Float.add
           (Float.add (Float.mul (fuzzy_score (score e)) (Float.lit (4 # 10)))
              (Float.mul (rc_keyword_score (score e)) (Float.lit (4 # 10))))
           (Float.mul (amount_score (score e)) (Float.lit (2 # 10)))
     ∧ fuzzy_score (score e)
       = Float.div
           (Float.of_int (token_sort_ratio (description rv) (description e)))
           100
     ∧ (rk ≠ ∅ → ek ≠ ∅ →
        rc_keyword_score (score e)
        = Float.div_int (Z.of_nat (size (rk ∩ ek)))
            (Z.of_nat (max (size rk) (size ek))))
     ∧ (rk = ∅ ∨ ek = ∅ → rc_keyword_score (score e) = 0)
     ∧ (0 < abs_amount rv →
        amount_score (score e)
        == Qmax 0
             (Float.sub 1
                (Float.div (Qabs (Float.sub (abs_amount e) (abs_amount rv)))
                   (abs_amount rv))))
     ∧ (¬ 0 < abs_amount rv → amount_score (score e) = 0))
  ∧ F64.find_potential_matches cfg token_sort_ratio rv pool = take 5 ranked
  ∧ ranked ≡ₚ score <$> pool
  ∧ StronglySorted (λ a b, combined_score b <= combined_score a) ranked
  ∧ (∀ q, filter (λ c, combined_score c == q) ranked
          = filter (λ c, combined_score c == q) (score <$> pool))
  ∧ length (F64.find_potential_matches cfg token_sort_ratio rv pool)
    = min 5 (length pool).
Proof.
  intros score ranked. split; [| split; [done |]].
  - intros e rk ek. subst score.
    unfold F64.review_score, F64.amount_similarity, F64.combine,
      F64.overlap_score, F64.calculate_similarity.
    cbn [rc_expense combined_score fuzzy_score rc_keyword_score amount_score].
    fold rk ek.
    split; [done |]. split; [done |]. split; [done |].
    split; [| split; [| split]].
    + intros Hrk Hek.
      apply size_pos_nonempty in Hrk, Hek.
      destruct (0 <? size rk)%nat eqn:H1; [| apply Nat.ltb_ge in H1; lia].
      destruct (0 <? size ek)%nat eqn:H2; [| apply Nat.ltb_ge in H2; lia].
      done.
    + intros [-> | ->]; rewrite size_empty; simpl; [done |].
      by rewrite andb_false_r.
    + intros Hpos. apply Qltb_lt in Hpos. rewrite Hpos. apply py_max_0.
    + intros Hnpos. rewrite <- Qltb_lt in Hnpos.
      by destruct (Py.Qltb 0 (abs_amount rv)).
  - split; [apply sort_reverse_Permutation |].
    split; [apply (sort_reverse_sorted combined_score) |].
    split; [intros q; apply (sort_reverse_stable combined_score) |].
    unfold F64.find_potential_matches, F64.find_potential_matches_top.
    fold score.
    by rewrite length_take, sort_reverse_length, length_fmap.
Qed.

End FloatReviewRanker.

(** ** Rounding keeps signs and the bound 1 *)

Lemma rnd_magnitude_nonneg a q :
  0 <= a → 0 <= inject_Z (Py.round (a / Float.pow2 q)) * Float.pow2 q.
Proof.
  intros Ha.
  apply Qmult_le_0_compat; [| apply Qlt_le_weak, pow2_pos].
  change 0 with (inject_Z 0). rewrite <- Zle_Qle.
  apply round_nonneg.
  apply Qle_shift_div_l; [apply pow2_pos |].
  by rewrite Qmult_0_l.
Qed.

Lemma rnd_nonpos x : x <= 0 → Float.rnd x <= 0.
Proof.
  intros Hx. unfold Float.rnd. cbv zeta.
  destruct (Qeq_bool (Qred x) 0) eqn:H0; [apply Qle_refl |].
  apply Qeq_bool_neq in H0. rewrite Qred_correct in H0.
  assert (Hs : Py.Qltb (Qred x) 0 = true).
  { apply Qltb_lt. rewrite Qred_correct.
    destruct (Qlt_le_dec x 0) as [? | Hge]; [done |].
    destruct H0. by apply Qle_antisym. }
  rewrite Hs, Qred_correct.
  pose proof (rnd_magnitude_nonneg (Qabs (Qred x))
                (Z.max (Float.ilog2 (Qabs (Qred x)) - 52) (-1074))
                (Qabs_nonneg _)).
  lra.
Qed.

Lemma round_le_int y K : y <= inject_Z K → (Py.round y <= K)%Z.
Proof.
  intros Hy. unfold Py.round.
  assert (Hf : (Qfloor y <= K)%Z).
  { rewrite <- (Qfloor_Z K). by apply Qfloor_resp_le. }
  destruct (Z.eq_dec (Qfloor y) K) as [Heq | Hne].
  - assert (Hr : y - inject_Z (Qfloor y) <= 0) by (rewrite Heq; lra).
    assert (Hlt : Py.Qltb (y - inject_Z (Qfloor y)) (1 # 2) = true).
    { apply Qltb_lt. lra. }
    rewrite Hlt. lia.
  - repeat match goal with |- context [if ?b then _ else _] => destruct b end;
      lia.
Qed.

Lemma ilog2_le_0 a : 0 < a → a <= 1 → (Float.ilog2 a <= 0)%Z.
Proof.
  intros Hpos Hle. unfold Float.ilog2. cbv zeta.
  assert (He : (Z.log2 (Qnum a) - Z.log2 (Z.pos (Qden a)) <= 0)%Z).
  { assert (Hn : (Qnum a <= Z.pos (Qden a))%Z).
    { unfold Qle in Hle. simpl in Hle. lia. }
    pose proof (Z.log2_le_mono _ _ Hn). lia. }
  destruct (Qle_bool _ a); lia.
Qed.

Lemma pow2_neg_inv q : (q < 0)%Z → inject_Z (2 ^ (- q)) * Float.pow2 q == 1.
Proof.
  intros Hq. unfold Float.pow2.
  destruct (0 <=? q)%Z eqn:H0; [apply Z.leb_le in H0; lia |].
  assert (Hp : (0 < 2 ^ (- q))%Z) by (apply Z.pow_pos_nonneg; lia).
  unfold Qeq, Qmult, inject_Z. cbn [Qnum Qden].
  rewrite Pos.mul_1_l, Z2Pos.id by done. lia.
Qed.

Lemma rnd_le_one x : x <= 1 → Float.rnd x <= 1.
Proof.
  intros Hx.
  destruct (Qlt_le_dec 0 x) as [Hpos | Hneg].
  2: { pose proof (rnd_nonpos x Hneg). lra. }
  unfold Float.rnd. cbv zeta.
  destruct (Qeq_bool (Qred x) 0); [done |].
  set (a := Qabs (Qred x)).
  set (q := Z.max (Float.ilog2 a - 52) (-1074)).
  assert (Ha : a == x).
  { subst a. rewrite Qred_correct. apply Qabs_pos. by apply Qlt_le_weak. }
  assert (Hq : (q < 0)%Z).
  { pose proof (ilog2_le_0 a) as Hl.
    assert (0 < a) by (rewrite Ha; done).
    assert (a <= 1) by (rewrite Ha; done).
    specialize (Hl H H0). subst q. lia. }
  assert (Hs : Py.Qltb (Qred x) 0 = false).
  { apply Qltb_ge. rewrite Qred_correct. by apply Qlt_le_weak. }
  rewrite Hs, Qred_correct.
  assert (Hm : (Py.round (a / Float.pow2 q) <= 2 ^ (- q))%Z).
  { apply round_le_int. apply Qle_shift_div_r; [apply pow2_pos |].
    rewrite pow2_neg_inv by done. by rewrite Ha. }
  rewrite <- (pow2_neg_inv q Hq).
  apply Qmult_le_compat_r; [| apply Qlt_le_weak, pow2_pos].
  by rewrite <- Zle_Qle.
Qed.

(** ** Combinations within the tolerance, and close ones *)

Section FloatCombinations.

Variable fsum : list Q → Q.
Variable cfg : config.

#[local] Abbreviation tol := (BALANCE_TOLERANCE cfg).

Lemma float_find_expense_combinations_filter target es k :
  F64.find_expense_combinations fsum cfg target es k
  = filter (F64.within_tolerance fsum cfg target)
      (concat (Py.combinations es
                 <$> Py.range 1 (min (k + 1) (length es + 1)))).
Proof.
  unfold F64.find_expense_combinations.
  etransitivity.
  - apply (foldl_collect_nested (F64.within_tolerance fsum cfg target)
             (λ combo,
                Py.Qltb (Qabs (Float.sub (F64.combo_sum fsum combo) target))
                  tol) id).
    intros combo. apply Qltb_lt.
  - by rewrite list_fmap_id.
Qed.

(** X9. [find_expense_combinations] returns exactly the selections of
    the expenses, kept in order, of at least one and at most
    [max_combo_size] rows, for which the float difference between the
    total of their absolute amounts, as [sum] gives it, and the target
    is below the tolerance in absolute value. *)
Theorem find_expense_combinations_exact target es k combo :
  combo ∈ F64.find_expense_combinations fsum cfg target es k
  ↔ combo `sublist_of` es
    ∧ (1 <= length combo <= k)%nat
    ∧ Qabs (Float.sub (fsum ((λ exp, Qabs (amount exp)) <$> combo)) target)
      < tol.
Proof.
  rewrite float_find_expense_combinations_filter, list_elem_of_filter.
  rewrite elem_of_combinations_sizes, elem_of_range.
  unfold F64.within_tolerance, F64.combo_sum. split.
  - intros (Hw & Hsub & Hlen). split; [done |]. split; [lia | done].
  - intros (Hsub & Hlen & Hw). split; [done |]. split; [done |].
    apply sublist_length in Hsub. lia.
Qed.

Lemma float_find_close_combinations_unfold target es n :
  F64._find_close_combinations fsum target es n
  = take n
      (Py.sort_reverse score
         (F64.close_suggestion fsum target
            <$> filter (F64.within_ten_percent fsum target)
                  (concat (Py.combinations (take 10 es)
                             <$> Py.range 1 (min 6 (min 10 (length es) + 1)))))).
Proof.
  unfold F64._find_close_combinations. cbv zeta.
  rewrite take_min_length. f_equal. f_equal.
  apply (foldl_collect_nested (F64.within_ten_percent fsum target)
           (λ combo,
              Py.Qltb (Qabs (Float.sub (F64.combo_sum fsum combo) target))
                (Float.mul target (Float.lit (1 # 10))))
           (F64.close_suggestion fsum target)
           (Py.combinations (take 10 es))
           (Py.range 1 (min 6 (min 10 (length es) + 1))) []).
  intros combo. apply Qltb_lt.
Qed.

(** The ten-percent test passes for a positive target only, so the score
    divides by a positive number; the score lies between 0 and 1. *)
Lemma float_close_suggestion_score target combo :
  F64.within_ten_percent fsum target combo →
  0 < target
  ∧ score (F64.close_suggestion fsum target combo)
    == Qmax 0
         (Float.sub 1
            (Float.div (Qabs (Float.sub (F64.combo_sum fsum combo) target))
               target))
  ∧ 0 <= score (F64.close_suggestion fsum target combo)
  ∧ score (F64.close_suggestion fsum target combo) <= 1.
Proof.
  unfold F64.within_ten_percent, F64.close_suggestion. cbn [score].
  set (d := Qabs (Float.sub (F64.combo_sum fsum combo) target)). intros Hw.
  assert (Hd : 0 <= d) by apply Qabs_nonneg.
  assert (Ht : 0 < target).
  { destruct (Qlt_le_dec 0 target) as [? | Hle]; [done |].
    assert (Hc : 0 < Float.lit (1 # 10)) by (by vm_compute).
    assert (Hp : target * Float.lit (1 # 10) <= 0).
    { rewrite <- (Qmult_0_l (Float.lit (1 # 10))).
      apply Qmult_le_compat_r; [done | by apply Qlt_le_weak]. }
    apply rnd_nonpos in Hp. unfold Float.mul in Hw. lra. }
  split; [done |]. split; [apply py_max_0 |].
  assert (Hq : 0 <= Float.div d target).
  { apply rnd_nonneg. apply Qle_shift_div_l; [done |]. lra. }
  assert (H1 : Float.sub 1 (Float.div d target) <= 1).
  { apply rnd_le_one. lra. }
  unfold py_max.
  destruct (Py.Qltb 0 (Float.sub 1 (Float.div d target))) eqn:Hpos.
  - apply Qltb_lt in Hpos. split; [by apply Qlt_le_weak | done].
  - split; [apply Qle_refl | done].
Qed.

Lemma float_find_close_combinations_member target es n s :
  s ∈ F64._find_close_combinations fsum target es n →
  ∃ combo,
    s = F64.close_suggestion fsum target combo
    ∧ combo `sublist_of` take 10 es
    ∧ (1 <= length combo <= 5)%nat
    ∧ F64.within_ten_percent fsum target combo.
Proof.
  rewrite float_find_close_combinations_unfold.
  intros (i & Hi & _)%elem_of_take. apply list_elem_of_lookup_2 in Hi.
  rewrite sort_reverse_Permutation in Hi.
  apply list_elem_of_fmap in Hi as (combo & -> & Hc).
  apply list_elem_of_filter in Hc as [Hw Hc].
  apply elem_of_combinations_sizes in Hc as [Hsub Hlen].
  apply elem_of_range in Hlen.
  exists combo. split; [done |]. split; [done |]. split; [lia | done].
Qed.

(** X15. Every approximate suggestion is a selection of one to five of
    the first ten expenses that passes the ten-percent test: the float
    difference between the total of its absolute amounts and the target
    is below the float product of the target and 0.1. The target is
    then positive, so the score divides by a positive number. The score
    is 1 less the float quotient of the difference by the target, no
    less than 0 and no more than 1. *)
Theorem find_close_combinations_scores target es n s :
  s ∈ F64._find_close_combinations fsum target es n →
  0 < target
  ∧ sg_match_type s = "approximate"
  ∧ sg_expenses s `sublist_of` take 10 es
  ∧ (1 <= length (sg_expenses s) <= 5)%nat
  ∧ total_amount s = fsum ((λ exp, Qabs (amount exp)) <$> sg_expenses s)
  ∧ sg_balance s = Float.sub target (total_amount s)
  ∧ difference s = Some (Qabs (Float.sub (total_amount s) target))
  ∧ Qabs (Float.sub (total_amount s) target)
    < Float.mul target (Float.lit (1 # 10))
  ∧ score s
    == Qmax 0
         (Float.sub 1
            (Float.div (Qabs (Float.sub (total_amount s) target)) target))
  ∧ 0 <= score s ∧ score s <= 1.
Proof.
  intros (combo & -> & Hsub & Hlen & Hw)%float_find_close_combinations_member.
  destruct (float_close_suggestion_score target combo Hw)
    as (Ht & Hs & H0 & H1).
  split; [done |]. split; [done |]. split; [done |]. split; [exact Hlen |].
  split; [done |]. split; [done |]. split; [done |]. split; [exact Hw |].
  done.
Qed.

End FloatCombinations.

(** ** The binary64 functions on amounts at the edge of a test *)

(** 0.06 - 0.05 is a float just below 0.01: the pair is balanced. *)
Example validate_match_cent_apart :
  F64.validate_match Float.sum F64.Config (group_of_rows six_cents [five_cents])
  = (true, "Match is valid").
Proof. vm_compute. reflexivity. Qed.

(** 1.015 - 1.00 is a float just below 0.015: it prints as 0.01. Scenario
    D prints 0.02. *)
Example validate_match_printed_residual :
  F64.validate_match Float.sum F64.Config
    (group_of_rows toll_revenue [toll_expense])
  = (false, "Match not balanced. Balance: 0.01")
  ∧ F64.validate_match Float.sum F64.Config
      (group_of_rows scenario_D_revenue
         [scenario_D_expense_1; scenario_D_expense_2])
    = (false, "Match not balanced. Balance: 0.02").
Proof. split; vm_compute; reflexivity. Qed.

(** 50.01 - 50.00 is a float just below 0.01: the Exact stage pairs the
    two rows. *)
Example exact_match_cent_apart :
  F64.exact_match F64.Config [fifty_and_a_cent] [fifty]
  = ([F64.exact_group fifty fifty_and_a_cent], [], []).
Proof. vm_compute. reflexivity. Qed.

(** 0.02 + 0.03 is the float 0.05, and 0.05 - 0.06 is above -0.01: for a
    target of 0.06 the search returns the two candidates, best ranked
    first. *)
Example find_best_cent_apart :
  let answer :=
    F64._find_best_expense_combination Float.sum F64.Config six_cents
      [candidate three_cents (8 # 10); candidate two_cents (9 # 10)] in
  expenses <$> answer = Some [two_cents; three_cents]
  ∧ match_type <$> answer = Some "fuzzy_multiple_2".
Proof. split; vm_compute; reflexivity. Qed.

(** The composite 0.6 x 0.4 is the float 0.24, and 0.1 x 0.4 + 1.0 x 0.2
    is the next float above: the second expense is ranked first. *)
Example find_potential_matches_tie :
  rc_expense
    <$> F64.find_potential_matches F64.Config tie_ratio tie_revenue
          [tie_far; tie_near]
  = [tie_near; tie_far].
Proof. vm_compute. reflexivity. Qed.

Example find_expense_combinations_cent_apart :
  F64.find_expense_combinations Float.sum F64.Config 50 [fifty_and_a_cent] 10
  = [[fifty_and_a_cent]].
Proof. vm_compute. reflexivity. Qed.

(** 2.7 - 3.0 is a float just above -0.3, and 3.0 x 0.1 is a float just
    above 0.3: the expense is suggested, with the score 0.9. *)
Example find_close_combinations_edge :
  (λ s, (sg_expenses s, score s))
    <$> F64._find_close_combinations Float.sum 3 [lunch] 3
  = [([lunch], Float.lit (9 # 10))].
Proof. vm_compute. reflexivity. Qed.

Lemma find_close_combinations_scores_witness :
  let s := F64.close_suggestion Float.sum 3 [lunch] in
  0 < 3
  ∧ sg_match_type s = "approximate"
  ∧ sg_expenses s `sublist_of` take 10 [lunch]
  ∧ (1 <= length (sg_expenses s) <= 5)%nat
  ∧ total_amount s
    = Float.sum ((λ exp, Qabs (amount exp)) <$> sg_expenses s)
  ∧ sg_balance s = Float.sub 3 (total_amount s)
  ∧ difference s = Some (Qabs (Float.sub (total_amount s) 3))
  ∧ Qabs (Float.sub (total_amount s) 3) < Float.mul 3 (Float.lit (1 # 10))
  ∧ score s
    == Qmax 0
         (Float.sub 1 (Float.div (Qabs (Float.sub (total_amount s) 3)) 3))
  ∧ 0 <= score s ∧ score s <= 1.
Proof.
  apply (find_close_combinations_scores Float.sum 3 [lunch] 3).
  vm_compute. left.
Defined.

(** ** The further properties on sample data *)

Lemma scenarios_df_well_formed : Forall well_formed_row scenarios_df.
Proof. repeat constructor; vm_compute; reflexivity. Qed.

Lemma review_df_processed : processed_table review_df.
Proof.
  split; [| split; [| split]].
  - apply (@bool_decide_unpack _ (NoDup_dec _)). vm_compute. exact I.
  - repeat constructor; vm_compute; reflexivity.
  - repeat constructor; vm_compute; discriminate.
  - repeat constructor.
Qed.

Lemma review_session_1_reachable :
  session_reachable Config no_similarity review_df review_session_1.
Proof.
  apply reach_confirm_match.
  apply (reach_auto_match Config no_similarity review_df review_session_0
           (auto_match Config no_similarity (Some review_df)).2).
  vm_compute. reflexivity.
Qed.

Lemma calculate_total_balance_of_valid_witness :
  let stats := calculate_total_balance Config [scenario_A_group] in
  balanced_matches stats = 1%nat
  ∧ unbalanced_matches stats = 0%nat
  ∧ balance_discrepancies stats = [].
Proof.
  apply (calculate_total_balance_of_valid Config [scenario_A_group]).
  repeat constructor.
Defined.

Lemma auto_match_all_groups_rows_witness :
  ∃ rv,
    revenue scenario_A_group = Some rv
    ∧ rv ∈ scenarios_df ∧ transaction_type rv = Revenue
    ∧ expenses scenario_A_group ≠ []
    ∧ expenses scenario_A_group ⊆+ scenarios_df
    ∧ Forall (λ e, transaction_type e = Expense) (expenses scenario_A_group).
Proof.
  apply (auto_match_all_groups_rows Config no_similarity scenarios_df).
  vm_compute. left.
Defined.

Lemma auto_match_all_groups_valid_witness :
  validate_match Config scenario_B_group = (true, "Match is valid").
Proof.
  apply (auto_match_all_groups_valid Config no_similarity scenarios_df).
  - exact scenarios_df_well_formed.
  - vm_compute. right. left.
Defined.


Lemma keyword_match_confidence_bounds_witness :
  ∃ rv,
    rv ∈ [scenario_B_revenue] ∧ revenue scenario_B_group = Some rv
    ∧ (let rk := extract_keywords Config (description rv) in
       ∀ e, e ∈ expenses scenario_B_group →
         let ek := extract_keywords Config (description e) in
         e ∈ [scenario_B_expense_A; scenario_B_expense_B]
         ∧ (2 <= size (rk ∩ ek))%nat
         ∧ (2 <= max (size rk) (size ek))%nat)
    ∧ 0 < confidence scenario_B_group ∧ confidence scenario_B_group <= 1.
Proof.
  apply (keyword_match_confidence_bounds Config
           [scenario_B_expense_A; scenario_B_expense_B]
           [scenario_B_revenue] scenario_B_group).
  vm_compute. left.
Defined.

Lemma assign_match_groups_last_wins_witness :
  assign_match_groups scenarios_df [scenario_A_group; scenario_B_group] !! 0%nat
  = Some {| original_index := 0;
            amount := 100;
            description := "Acme Invoice 123";
            transaction_type := Revenue;
            abs_amount := Qabs 100;
            match_status := "matched";
            match_group_id := Some (calculate_match_group_id 0);
            match_confidence := Some 1 |}.
Proof.
  refine (proj2 (assign_match_groups_last_wins scenarios_df
                   [scenario_A_group; scenario_B_group] 0 scenario_A_revenue
                   _)
            0%nat scenario_A_group _ _ _).
  - reflexivity.
  - reflexivity.
  - vm_compute. left.
  - intros k' m' Hk Hm'. destruct k' as [| [| k']]; [lia | | done].
    injection Hm' as <-. vm_compute.
    intros H. repeat (apply elem_of_cons in H as [H | H]; [discriminate H |]).
    by apply elem_of_nil in H.
Defined.

Lemma assign_match_groups_again_witness :
  assign_match_groups (assign_match_groups scenarios_df [scenario_A_group])
    [scenario_A_group; scenario_B_group]
  = assign_match_groups scenarios_df [scenario_A_group; scenario_B_group].
Proof.
  apply assign_match_groups_again.
  intros m ->%list_elem_of_singleton. left.
Defined.

Lemma group_by_match_status_stamped_witness :
  let grouped :=
    group_by_match_status
      (assign_match_groups scenarios_df [scenario_A_group]) in
  let ids := [scenario_A_group] ≫= (λ m, original_index <$> group_rows m) in
  sg_pending grouped = []
  ∧ sg_unmatched grouped = filter (λ t, original_index t ∉ ids) scenarios_df
  ∧ original_index <$> sg_matched grouped
    = original_index <$> filter (λ t, original_index t ∈ ids) scenarios_df
  ∧ sg_matched grouped ++ sg_unmatched grouped
    ≡ₚ assign_match_groups scenarios_df [scenario_A_group].
Proof.
  apply (group_by_match_status_stamped scenarios_df [scenario_A_group]).
  repeat constructor.
Defined.

Lemma extract_keywords_members_witness :
  ("acme" ∉ STOPWORDS Config)
  ∧ (KEYWORD_MIN_LENGTH Config <= String.length "acme")%nat
  ∧ "acme" ≠ ""
  ∧ all_chars keyword_char "acme" = true.
Proof.
  apply (extract_keywords_members Config "Payment to ACME Corp, ref. 7").
  - by vm_compute.
  - by vm_compute.
Defined.

Lemma process_transactions_rows_witness :
  ∃ msg df,
    process_transactions upload_columns upload_rows "Amount" "Memo"
    = (true, msg, Some df)
    ∧ original_index <$> df `sublist_of` label <$> upload_rows
    ∧ Forall (λ t,
                abs_amount t == Qabs (amount t)
                ∧ (transaction_type t = Expense ∧ amount t < 0
                   ∨ transaction_type t = Revenue ∧ 0 < amount t)
                ∧ match_status t = "unmatched"
                ∧ match_group_id t = None ∧ match_confidence t = None)
        df
    ∧ (∀ t, t ∈ df ↔
         ∃ r a, r ∈ upload_rows ∧ amount_cell r = Some a ∧ ¬ a == 0
                ∧ original_index t = label r ∧ amount t = a
                ∧ description t = Py.strip (description_cell r)
                ∧ t = processed_row r a).
Proof.
  apply (process_transactions_rows upload_columns upload_rows "Amount" "Memo").
  - right. left.
  - right. right. left.
Defined.

Lemma get_summary_statistics_consistent_witness :
  let s := get_summary_statistics scenarios_df in
  total_transactions s = length scenarios_df
  ∧ 0 <= total_expense_amount s
  ∧ 0 <= total_revenue_amount s
  ∧ (Forall (λ t, transaction_type t ≠ Zero) scenarios_df →
     (expense_count s + revenue_count s)%nat = total_transactions s)
  ∧ (Forall (λ t, match_status t = "matched" ∨ match_status t = "unmatched")
       scenarios_df →
     (matched_count s + unmatched_count s)%nat = total_transactions s).
Proof.
  apply (get_summary_statistics_consistent scenarios_df).
  exact scenarios_df_well_formed.
Defined.

Lemma review_score_bounds_witness :
  let c := review_score Config no_similarity scenario_B_revenue
             scenario_B_expense_A in
  (0 <= fuzzy_score c ∧ fuzzy_score c <= 1)
  ∧ (0 <= rc_keyword_score c ∧ rc_keyword_score c <= 1)
  ∧ (0 <= amount_score c ∧ amount_score c <= 1)
  ∧ (0 <= combined_score c ∧ combined_score c <= 1).
Proof.
  apply (review_score_bounds Config no_similarity scenario_B_revenue
           scenario_B_expense_A).
  split; by vm_compute.
Defined.

Lemma auto_match_keeps_every_group_witness :
  validate_all_matches Config
    (auto_match_all Config no_similarity scenarios_df).1.1
  = ((auto_match_all Config no_similarity scenarios_df).1.1, [])
  ∧ ∃ st answer,
      auto_match Config no_similarity (Some scenarios_df) = (Some st, answer)
      ∧ (s_matches st, s_unmatched_expenses st, s_unmatched_revenues st)
        = auto_match_all Config no_similarity scenarios_df.
Proof.
  apply (auto_match_keeps_every_group Config no_similarity scenarios_df).
  exact scenarios_df_well_formed.
Defined.

Lemma session_invariants_witness :
  Forall (λ m, validate_match Config m = (true, "Match is valid"))
    (s_matches review_session_1)
  ∧ s_review_items review_session_1
    = generate_review_items Config no_similarity
        (s_unmatched_revenues review_session_1)
        (s_unmatched_expenses review_session_1)
  ∧ s_updated_df review_session_1
    = assign_match_groups review_df (s_matches review_session_1)
  ∧ s_unmatched_expenses review_session_1
    `sublist_of` filter (λ t, transaction_type t = Expense) review_df
  ∧ s_unmatched_revenues review_session_1
    `sublist_of` filter (λ t, transaction_type t = Revenue) review_df.
Proof.
  apply (session_invariants Config no_similarity review_df).
  exact review_session_1_reachable.
Defined.

Lemma session_partitions_table_witness :
  partitions
    (filter (λ t, transaction_type t = Expense) review_df
     ++ filter (λ t, transaction_type t = Revenue) review_df)
    (s_matches review_session_1, s_unmatched_expenses review_session_1,
     s_unmatched_revenues review_session_1)
  ∧ NoDup (original_index
             <$> referenced (s_matches review_session_1)
                 ++ s_unmatched_expenses review_session_1
                 ++ s_unmatched_revenues review_session_1).
Proof.
  destruct review_df_processed as (Hnd & Hwf & _ & _).
  apply (session_partitions_table Config no_similarity review_df
           review_session_1 Hnd Hwf).
  exact review_session_1_reachable.
Defined.

Lemma session_summary_counts_witness :
  let s := get_summary_statistics (s_updated_df review_session_1) in
  total_transactions s = length review_df
  ∧ matched_count s = length (referenced (s_matches review_session_1))
  ∧ unmatched_count s
    = (length (s_unmatched_expenses review_session_1)
       + length (s_unmatched_revenues review_session_1))%nat
  ∧ (matched_count s + unmatched_count s)%nat = total_transactions s.
Proof.
  apply (session_summary_counts Config no_similarity review_df
           review_session_1).
  - exact review_df_processed.
  - exact review_session_1_reachable.
Defined.


(** The session of the sample table after the confirmation: seven rows,
    all matched, in three groups. *)
Example review_session_1_run :
  length (s_matches review_session_1) = 3%nat
  ∧ s_unmatched_expenses review_session_1 = []
  ∧ s_unmatched_revenues review_session_1 = []
  ∧ (match_group_id <$> s_updated_df review_session_1)
    = [Some "MG_0000"; Some "MG_0000"; Some "MG_0001"; Some "MG_0001";
       Some "MG_0001"; Some "MG_0002"; Some "MG_0002"].
Proof. repeat split; by vm_compute. Qed.

(** The upload of four rows, processed: the row of amount zero and the
    row without a number are dropped. *)
Example upload_processed :
  process_transactions upload_columns upload_rows "Amount" "Memo"
  = (true, "Processed 2 transactions (1 expenses, 1 revenues)",
     Some [row 0 (-100) " acme invoice 123 "; row 1 100 "Acme Invoice 123"])
  ∧ process_transactions upload_columns upload_rows "Total" "Memo"
    = (false, "Amount column 'Total' not found", None).
Proof. split; by vm_compute. Qed.
